(** * backtrader: the LineIterator scheduling core and the VChart CSV feed

    A shallow embedding of [backtrader/lineiterator.py] (construction
    protocol of [MetaLineIterator], and the [_next] / [_once] execution
    protocol of [LineIterator]) and of [backtrader/feeds/vchartcsv.py]
    ([VChartCSVData._loadline]).

    Python objects live in a store indexed by object identity ([nid]);
    attribute access on an absent object (Python's [None]) raises
    [AttributeError].  The recursive [_next] / [_once] calls follow object
    references, so they are defined with fuel; the theorems give the fuel
    that suffices. *)

From Stdlib Require Import ZArith List Bool Lia String Ascii QArith_base.
From stdpp Require Import base option list gmap strings.

Local Open Scope Z_scope.

(** ** Values, results and objects *)

(** Identity of a Python object (a LineSeries or a LineIterator). *)
Definition nid := nat.

(** What a buffer slot holds: the filler of a fresh slot, a number, or the
    [datetime.datetime] object the feed stores in its first line. *)
Inductive value :=
| NaN
| Num (q : Q)
| Stamp (y m d hh mm ss : Z).

(** The exceptions the modelled code can raise.  [UserError] stands for an
    exception class of a given name defined outside the builtins. *)
Inductive exn :=
| AttributeError
| NameError
| IndexError
| ValueError
| UserError (name : string).

Inductive Result (A : Type) :=
| Ok (a : A)
| Raise (e : exn)
| OutOfFuel.
Arguments Ok {A} a.
Arguments Raise {A} e.
Arguments OutOfFuel {A}.

(** Modelled from the spec: the [Line] of [linebuffer.py], which is not
    part of the sources at hand -- an append-only buffer [array] with a
    cursor [idx] ([-1] before the first bar), and the bindings declared on
    it: pairs (target object, target line index). *)
Record Line := mkLine {
  array : list value;
  idx : Z;
  bindings : list (nid * nat)
}.

(** The attributes [MetaLineIterator] gives a [LineIterator]; [is_observer]
    is the outcome of [isinstance(x, LineObserver)]. *)
Record Node := mkNode {
  _owner : option nid;
  datas : list nid;
  _clock : nid;
  _minperiod : Z;
  _indicators : list nid;
  _observers : list nid;
  _clockindicator : bool;
  is_observer : bool
}.

Definition set_minperiod (p : Z) (x : Node) : Node :=
  mkNode (_owner x) (datas x) (_clock x) p (_indicators x) (_observers x)
         (_clockindicator x) (is_observer x).

Definition set_indicators (l : list nid) (x : Node) : Node :=
  mkNode (_owner x) (datas x) (_clock x) (_minperiod x) l (_observers x)
         (_clockindicator x) (is_observer x).

Definition set_observers (l : list nid) (x : Node) : Node :=
  mkNode (_owner x) (datas x) (_clock x) (_minperiod x) (_indicators x) l
         (_clockindicator x) (is_observer x).

Definition set_clockindicator (b : bool) (x : Node) : Node :=
  mkNode (_owner x) (datas x) (_clock x) (_minperiod x) (_indicators x)
         (_observers x) b (is_observer x).

(** What the execution engine traverses: the objects and their attributes. *)
Abbreviation Graph := (gmap nid Node).

(** The output storage of every object: its [lines]. *)
Abbreviation Bufs := (gmap nid (list Line)).

(** ** Line and LineSeries operations *)

Module LineOps.

(** Modelled from the spec: [Line.forward(n)] of the absent
    [linebuffer.py] -- storage grows by [n] unresolved slots and the cursor
    moves on by [n]. *)
Definition forward (size : Z) (l : Line) : Line :=
  mkLine (array l ++ replicate (Z.to_nat size) NaN) (idx l + size) (bindings l).

(** Modelled from the spec: [Line.home()] of the absent [linebuffer.py] --
    the cursor goes back to the start, storage is kept. *)
Definition home (l : Line) : Line :=
  mkLine (array l) (-1) (bindings l).

(** Modelled from the spec: [Line.length()] of the absent [linebuffer.py],
    cursor position + 1. *)
Definition length (l : Line) : Z := idx l + 1.

(** Modelled from the spec: [buflen()] of the absent [linebuffer.py], the
    number of slots of storage. *)
Definition buflen (l : Line) : Z := Z.of_nat (List.length (array l)).

(** Modelled from the spec: [addbinding] of the absent [linebuffer.py], the
    target gets appended to the declared bindings. *)
Definition addbinding (tgt : nid * nat) (l : Line) : Line :=
  mkLine (array l) (idx l) (bindings l ++ [tgt]).

(** Modelled from the spec: [Line.set(0, v)] of the absent [linebuffer.py]:
    only the current slot is written, and a cursor outside the storage is
    an error. *)
Definition set0 (v : value) (l : Line) : Result Line :=
  if (0 <=? idx l) && (idx l <? Z.of_nat (List.length (array l)))
  then Ok (mkLine (<[Z.to_nat (idx l) := v]> (array l)) (idx l) (bindings l))
  else Raise IndexError.

(** Writing by absolute index, as a [once] override does. *)
Definition set_at (i : Z) (v : value) (l : Line) : Result Line :=
  if (0 <=? i) && (i <? Z.of_nat (List.length (array l)))
  then Ok (mkLine (<[Z.to_nat i := v]> (array l)) (idx l) (bindings l))
  else Raise IndexError.

End LineOps.

(** ** The execution monad: buffers, a call trace, exceptions and fuel *)

(** What the engine calls, in call order. *)
Inductive event :=
| EvStep (n : nid)                  (* n._next() entered *)
| EvBatch (n : nid)                 (* n._once() entered *)
| EvForward (n : nid) (size : Z)    (* n.forward(size) *)
| EvHome (n : nid)                  (* n.home() *)
| EvNotify (n : nid)                (* n._notify() *)
| EvNext (n : nid)                  (* n.next() *)
| EvNextstart (n : nid)             (* n.nextstart() *)
| EvPrenext (n : nid)               (* n.prenext() *)
| EvPreonce (n : nid) (s e : Z)     (* n.preonce(s, e) *)
| EvOnce (n : nid) (s e : Z)        (* n.once(s, e) *)
| EvOncebinding (n : nid) (i : nat) (* n.lines[i].oncebinding() *).

Record State := mkState {
  bufs : Bufs;
  trace : list event
}.

Definition M (A : Type) := State -> Result (A * State).

Definition ret {A} (a : A) : M A := fun s => Ok (a, s).

Definition bind {A B} (m : M A) (k : A -> M B) : M B :=
  fun s => match m s with
           | Ok (a, s') => k a s'
           | Raise e => Raise e
           | OutOfFuel => OutOfFuel
           end.

Definition raise {A} (e : exn) : M A := fun _ => Raise e.

Definition log (e : event) : M unit :=
  fun s => Ok (tt, mkState (bufs s) (trace s ++ [e])).

Declare Scope eng_scope.
Delimit Scope eng_scope with eng.
Notation "'let*' x ':=' m 'in' k" := (bind m (fun x => k))
  (at level 10, x name, m at level 100, k at level 200) : eng_scope.
Notation "m ';;' k" := (bind m (fun _ => k))
  (at level 100, k at level 200, right associativity) : eng_scope.

Local Open Scope eng_scope.

(** [for x in l: body(x)] *)
Fixpoint for_each {A} (l : list A) (body : A -> M unit) : M unit :=
  match l with
  | [] => ret tt
  | x :: r => body x ;; for_each r body
  end.

(** Reading [o.lines]; an absent object is Python's [None]. *)
Definition lines_of (o : nid) : M (list Line) :=
  fun s => match bufs s !! o with
           | Some ls => Ok (ls, s)
           | None => Raise AttributeError
           end.

Definition put_lines (o : nid) (ls : list Line) : M unit :=
  fun s => Ok (tt, mkState (<[o := ls]> (bufs s)) (trace s)).

(** Modelled from the spec: [len(series)] of the absent [lineseries.py],
    the length of the first (reference) line. *)
Definition len (o : nid) : M Z :=
  let* ls := lines_of o in
  match ls with
  | l :: _ => ret (LineOps.length l)
  | [] => raise IndexError
  end.

(** Modelled from the spec: [series.buflen()] of the absent
    [lineseries.py], the storage size of the first line. *)
Definition buflen (o : nid) : M Z :=
  let* ls := lines_of o in
  match ls with
  | l :: _ => ret (LineOps.buflen l)
  | [] => raise IndexError
  end.

(** Modelled from the spec: [series.forward(size)] of the absent
    [lineseries.py], applied to every member line alike. *)
Definition forward (o : nid) (size : Z) : M unit :=
  log (EvForward o size) ;;
  let* ls := lines_of o in
  put_lines o (map (LineOps.forward size) ls).

(** Modelled from the spec: [series.home()] of the absent [lineseries.py],
    applied to every member line alike. *)
Definition home (o : nid) : M unit :=
  log (EvHome o) ;;
  let* ls := lines_of o in
  put_lines o (map LineOps.home ls).

(** Modelled from the spec: [line.oncebinding()] of the absent
    [linebuffer.py] -- every bound target line takes the values of the
    source line. *)
Definition bind_target (src : Line) (tgt : nid * nat) : M unit :=
  let* ls := lines_of (fst tgt) in
  match ls !! snd tgt with
  | Some t => put_lines (fst tgt)
                (<[snd tgt := mkLine (array src) (idx t) (bindings t)]> ls)
  | None => raise IndexError
  end.

Definition oncebinding (o : nid) (i : nat) : M unit :=
  log (EvOncebinding o i) ;;
  let* ls := lines_of o in
  match ls !! i with
  | Some src => for_each (bindings src) (bind_target src)
  | None => raise IndexError
  end.

(** ** User overrides *)

(** A callback of a concrete node class: it computes on the buffers and
    may raise. *)
Definition hook := Bufs -> Result Bufs.

(** The methods a [LineIterator] subclass overrides, per object.
    [cb_nextstart] is [None] where the class keeps the inherited
    [nextstart]. *)
Record Callbacks := mkCallbacks {
  cb_notify : nid -> hook;
  cb_prenext : nid -> hook;
  cb_nextstart : nid -> option hook;
  cb_next : nid -> hook;
  cb_preonce : nid -> Z -> Z -> hook;
  cb_once : nid -> Z -> Z -> hook
}.

(** The body [pass]. *)
Definition pass : hook := fun b => Ok b.

(** The methods as [LineIterator] itself defines them. *)
Definition default_callbacks : Callbacks :=
  mkCallbacks (fun _ => pass) (fun _ => pass) (fun _ => None) (fun _ => pass)
              (fun _ _ _ => pass) (fun _ _ _ => pass).

Definition user (h : hook) : M unit :=
  fun s => match h (bufs s) with
           | Ok b => Ok (tt, mkState b (trace s))
           | Raise e => Raise e
           | OutOfFuel => OutOfFuel
           end.

(** ** LineIterator: the execution protocol *)

Section Engine.

Context (cb : Callbacks) (g : Graph).

(** Attribute access on an object of the graph. *)
Definition node_of (o : nid) : M Node :=
  fun s => match g !! o with
           | Some x => Ok (x, s)
           | None => Raise AttributeError
           end.

Definition _notify (self : nid) : M unit :=
  log (EvNotify self) ;; user (cb_notify cb self).

Definition prenext (self : nid) : M unit :=
  log (EvPrenext self) ;; user (cb_prenext cb self).

Definition next (self : nid) : M unit :=
  log (EvNext self) ;; user (cb_next cb self).

(** [nextstart]: "defaults to regular next". *)
Definition nextstart (self : nid) : M unit :=
  log (EvNextstart self) ;;
  match cb_nextstart cb self with
  | Some h => user h
  | None => next self
  end.

Definition preonce (self : nid) (s e : Z) : M unit :=
  log (EvPreonce self s e) ;; user (cb_preonce cb self s e).

Definition once (self : nid) (s e : Z) : M unit :=
  log (EvOnce self s e) ;; user (cb_once cb self s e).

(** Lines 163-169 of [_next]: the choice of the lifecycle callback. *)
Definition lifecycle (self : nid) (clock_len minperiod : Z) : M unit :=
  if clock_len >? minperiod then next self
  else if clock_len =? minperiod then nextstart self
  else prenext self.

(** [LineIterator._next] *)
Fixpoint _next (fuel : nat) (self : nid) : M unit :=
  match fuel with
  | O => fun _ => OutOfFuel
  | S fuel =>
      log (EvStep self) ;;
      let* me := node_of self in
      (if _clockindicator me then _next fuel (_clock me) else ret tt) ;;
      let* clock_len := len (_clock me) in
      let* own_len := len self in
      (if bool_decide (clock_len ≠ own_len) then forward self 1 else ret tt) ;;
      for_each (_indicators me) (_next fuel) ;;
      _notify self ;;
      lifecycle self clock_len (_minperiod me) ;;
      for_each (_observers me) (_next fuel)
  end.

(** [LineIterator._once] *)
Fixpoint _once (fuel : nat) (self : nid) : M unit :=
  match fuel with
  | O => fun _ => OutOfFuel
  | S fuel =>
      log (EvBatch self) ;;
      let* me := node_of self in
      let* size := buflen (_clock me) in
      forward self size ;;
      (if _clockindicator me then _once fuel (_clock me) else ret tt) ;;
      for_each (_indicators me) (_once fuel) ;;
      for_each (_observers me)
        (fun observer => let* size := buflen self in forward observer size) ;;
      for_each (datas me) home ;;
      (if _clockindicator me then home (_clock me) else ret tt) ;;
      for_each (_indicators me) home ;;
      for_each (_observers me) home ;;
      home self ;;
      preonce self 0 (_minperiod me - 1) ;;
      let* total := buflen self in
      once self (_minperiod me - 1) total ;;
      let* ls := lines_of self in
      for_each (seq 0 (List.length ls)) (oncebinding self)
  end.

End Engine.

(** ** MetaLineIterator: the construction protocol *)

(** A positional constructor argument: a series object
    ([isinstance(x, LineSeries)]) or a plain parameter. *)
Inductive pyarg :=
| ArgSeries (o : nid)
| ArgPlain (z : Z).

Definition series_args (args : list pyarg) : list nid :=
  omap (fun a => match a with ArgSeries o => Some o | ArgPlain _ => None end) args.

(** [data._minperiod] for an element of [datas]: [None] and an absent object
    have no such attribute. *)
Definition minperiod_of (g : Graph) (d : option nid) : Result (nid * Z) :=
  match d with
  | None => Raise AttributeError
  | Some o => match g !! o with
              | Some x => Ok (o, _minperiod x)
              | None => Raise AttributeError
              end
  end.

(** A list comprehension whose element expression may raise. *)
Fixpoint comprehension {A B} (f : A -> Result B) (l : list A) : Result (list B) :=
  match l with
  | [] => Ok []
  | a :: r => match f a with
              | Ok b => match comprehension f r with
                        | Ok bs => Ok (b :: bs)
                        | Raise e => Raise e
                        | OutOfFuel => OutOfFuel
                        end
              | Raise e => Raise e
              | OutOfFuel => OutOfFuel
              end
  end.

(** Python's [max] on a list of integers. *)
Definition py_max (l : list Z) : Result Z :=
  match l with
  | [] => Raise ValueError
  | x :: r => Ok (fold_left Z.max r x)
  end.

(** [MetaLineIterator.dopreinit].  [owner] is what [metabase.findowner]
    returned; [_obj] exists with the attributes its class gives it. *)
Definition dopreinit (g : Graph) (_obj : nid) (owner : option nid)
    (args : list pyarg) : Result (Graph * list pyarg) :=
  match g !! _obj with
  | None => Raise AttributeError
  | Some x =>
      let found := series_args args in
      let ds := match found with
                | [] => [owner]
                | _ => map Some found
                end in
      match comprehension (minperiod_of g) ds with
      | Ok dm =>
          match map fst dm with
          | [] => Raise IndexError
          | clock :: _ =>
              match py_max (match map snd dm with
                            | [] => [_minperiod x]
                            | mps => mps
                            end) with
              | Ok mp =>
                  let x' := mkNode owner (map fst dm) clock mp [] []
                                   (_clockindicator x) (is_observer x) in
                  Ok (<[_obj := x']> g,
                      List.filter
                        (fun a => match a with
                                  | ArgSeries o => bool_decide (o ∉ map fst dm)
                                  | ArgPlain _ => true
                                  end) args)
              | Raise e => Raise e
              | OutOfFuel => OutOfFuel
              end
          end
      | Raise e => Raise e
      | OutOfFuel => OutOfFuel
      end
  end.

(** [LineIterator.addindicator] *)
Definition addindicator (g : Graph) (self indicator : nid) : Result Graph :=
  match g !! self, g !! indicator with
  | Some me, Some ind =>
      if is_observer ind
      then Ok (<[self := set_observers (_observers me ++ [indicator]) me]> g)
      else
        let g1 := <[self := set_indicators (_indicators me ++ [indicator]) me]> g in
        match g1 !! self, g1 !! indicator with
        | Some me1, Some ind1 =>
            Ok (<[self := set_minperiod (Z.max (_minperiod ind1) (_minperiod me1)) me1]> g1)
        | _, _ => Raise AttributeError
        end
  | _, _ => Raise AttributeError
  end.

(** [LineIterator.setminperiod] *)
Definition setminperiod (g : Graph) (self : nid) (minperiod : Z) : Result Graph :=
  match g !! self with
  | Some me => Ok (<[self := set_minperiod (_minperiod me + (minperiod - 1)) me]> g)
  | None => Raise AttributeError
  end.

(** [[x for x in l if x not in seen and not seen.add(x)]] *)
Fixpoint keep_first (seen : list nid) (l : list nid) : list nid :=
  match l with
  | [] => []
  | x :: r => if bool_decide (x ∈ seen) then keep_first seen r
              else x :: keep_first (x :: seen) r
  end.

(** [MetaLineIterator.dopostinit].  The slice on line 102 reads the name
    [self], which is neither a parameter nor a global there. *)
Definition dopostinit (g : Graph) (_obj : nid) : Result Graph :=
  match g !! _obj with
  | None => Raise AttributeError
  | Some x =>
      match (match _owner x with
             | Some o => addindicator g o _obj
             | None => Ok g
             end) with
      | Ok g1 =>
          match g1 !! _obj with
          | None => Raise AttributeError
          | Some x1 =>
              let x2 := set_clockindicator false
                          (set_indicators (keep_first [] (_indicators x1)) x1) in
              if bool_decide (_clock x2 ∈ _indicators x2)
              then Raise NameError
              else Ok (<[_obj := x2]> g1)
          end
      | Raise e => Raise e
      | OutOfFuel => OutOfFuel
      end
  end.

(** ** LineIterator.bindlines *)

(** An argument of [bindlines] that is not [None]: one index or an iterable
    of indices. *)
Inductive pylines :=
| PyInt (i : Z)
| PyIter (l : list Z).

(** Python truth value of such an argument, [None] included. *)
Definition truthy (a : option pylines) : bool :=
  match a with
  | None => false
  | Some (PyInt i) => negb (i =? 0)
  | Some (PyIter l) => match l with [] => false | _ => true end
  end.

Definition as_iterable (a : pylines) : list Z :=
  match a with
  | PyInt i => [i]
  | PyIter l => l
  end.

(** Modelled from the spec: [lines[i]] of the absent [lineseries.py]; an
    index outside the declared arity is an error. *)
Definition line_at (ls : list Line) (i : Z) : M Line :=
  if 0 <=? i
  then match ls !! Z.to_nat i with
       | Some l => ret l
       | None => raise IndexError
       end
  else raise IndexError.

Section Bindlines.

Context (g : Graph).

(** The loop body on line 134. *)
Definition bind_one (self : nid) (pair : Z * Z) : M unit :=
  let '(lineowner, lineown) := pair in
  let* ls := lines_of self in
  let* src := line_at ls lineown in
  let* me := node_of g self in
  match _owner me with
  | None => raise AttributeError
  | Some o =>
      let* ols := lines_of o in
      let* _ := line_at ols lineowner in
      let* ls' := lines_of self in
      put_lines self
        (<[Z.to_nat lineown := LineOps.addbinding (o, Z.to_nat lineowner) src]> ls')
  end.

(** [LineIterator.bindlines] *)
Definition bindlines (self : nid) (owner own : option pylines) : M nid :=
  let owner := if truthy owner then from_option as_iterable [] owner else [0] in
  let own := if truthy own then from_option as_iterable [] own
             else map Z.of_nat (seq 0 (List.length owner)) in
  for_each (zip owner own) (bind_one self) ;;
  ret self.

End Bindlines.

(** ** LineIterator.bind2lines *)

(** The loop body on line 148, for the [i]-th element [line] of [lines]. *)
Definition bind2_one (self lineit : nid) (itlines : list Z) (i : nat) (line : Z) : M unit :=
  let* ils := lines_of lineit in
  match itlines !! i with
  | None => raise IndexError
  | Some k =>
      let* src := line_at ils k in
      let* ls := lines_of self in
      let* _ := line_at ls line in
      let* ils' := lines_of lineit in
      put_lines lineit
        (<[Z.to_nat k := LineOps.addbinding (self, Z.to_nat line) src]> ils')
  end.

(** [enumerate(l)] *)
Definition enumerate {A} (l : list A) : list (nat * A) :=
  zip (seq 0 (List.length l)) l.

(** [LineIterator.bind2lines]; [itlines] is [None] when omitted. *)
Definition bind2lines (self : nid) (lines : pylines) (lineit : nid)
    (itlines : option pylines) : M unit :=
  let lines := as_iterable lines in
  let itlines := match itlines with
                 | None => map Z.of_nat (seq 0 (List.length lines))
                 | Some a => as_iterable a
                 end in
  for_each (enumerate lines) (fun '(i, line) => bind2_one self lineit itlines i line).

(** ** feeds/vchartcsv.py *)

Module VChart.

(** The lines the data feed declares, by name. *)
Inductive lname := datetime | open | high | low | close | volume | openinterest.

#[global] Instance lname_eq_dec : EqDecision lname.
Proof. solve_decision. Defined.

(** The feed object while a record is loaded: its lines, every
    [line[0] = v] executed so far, and how far the counter [i] got. *)
Record Feed := mkFeed {
  flines : lname -> Line;
  written : list (lname * value);
  counter : nat
}.

Definition FM (A : Type) := Feed -> Result (A * Feed).

Definition fret {A} (a : A) : FM A := fun s => Ok (a, s).

Definition fbind {A B} (m : FM A) (k : A -> FM B) : FM B :=
  fun s => match m s with
           | Ok (a, s') => k a s'
           | Raise e => Raise e
           | OutOfFuel => OutOfFuel
           end.

Definition lift {A} (r : Result A) : FM A :=
  fun s => match r with
           | Ok a => Ok (a, s)
           | Raise e => Raise e
           | OutOfFuel => OutOfFuel
           end.

Declare Scope feed_scope.
Delimit Scope feed_scope with feed.
Notation "'let*' x ':=' m 'in' k" := (fbind m (fun x => k))
  (at level 10, x name, m at level 100, k at level 200) : feed_scope.
Notation "m ';;' k" := (fbind m (fun _ => k))
  (at level 100, k at level 200, right associativity) : feed_scope.

Local Open Scope feed_scope.

(** [itertools.count(0)] and [next(i)] *)
Definition count0 : FM unit :=
  fun s => Ok (tt, mkFeed (flines s) (written s) 0).

Definition next_i : FM nat :=
  fun s => Ok (counter s, mkFeed (flines s) (written s) (S (counter s))).

(** [linetokens[k]] *)
Definition token (linetokens : list string) (k : nat) : FM string :=
  match linetokens !! k with
  | Some t => fret t
  | None => lift (Raise IndexError)
  end.

(** [self.lines.<name>[0] = v] *)
Definition setitem0 (nm : lname) (v : value) : FM unit :=
  fun s => match LineOps.set0 v (flines s nm) with
           | Ok l => Ok (tt, mkFeed (fun k => if decide (k = nm) then l else flines s k)
                                    (written s ++ [(nm, v)]) (counter s))
           | Raise e => Raise e
           | OutOfFuel => OutOfFuel
           end.

(** Python's [int(text)] in base 10: blanks around, a sign, digits. *)
Definition is_space (c : ascii) : bool :=
  let n := nat_of_ascii c in
  (n =? 32)%nat || ((9 <=? n)%nat && (n <=? 13)%nat).

Fixpoint lstrip (s : string) : string :=
  match s with
  | String c r => if is_space c then lstrip r else s
  | EmptyString => s
  end.

Fixpoint rev_string (acc s : string) : string :=
  match s with
  | String c r => rev_string (String c acc) r
  | EmptyString => acc
  end.

Definition strip (s : string) : string :=
  rev_string EmptyString (lstrip (rev_string EmptyString (lstrip s))).

Definition digit (c : ascii) : option Z :=
  let n := nat_of_ascii c in
  if (48 <=? n)%nat && (n <=? 57)%nat then Some (Z.of_nat n - 48) else None.

Fixpoint digits (acc : Z) (s : string) : option Z :=
  match s with
  | EmptyString => Some acc
  | String c r => match digit c with
                  | Some d => digits (10 * acc + d) r
                  | None => None
                  end
  end.

Definition unsigned (s : string) : Result Z :=
  match s with
  | EmptyString => Raise ValueError
  | _ => match digits 0 s with
         | Some z => Ok z
         | None => Raise ValueError
         end
  end.

Definition int (text : string) : Result Z :=
  match strip text with
  | String "-"%char r => match unsigned r with
                         | Ok z => Ok (- z)
                         | other => other
                         end
  | String "+"%char r => unsigned r
  | r => unsigned r
  end.

(** [datetime.datetime(y, m, d, hh, mm, ss)]: the fields are range-checked. *)
Definition is_leap (y : Z) : bool :=
  ((y mod 4 =? 0) && negb (y mod 100 =? 0)) || (y mod 400 =? 0).

Definition days_in_month (y m : Z) : Z :=
  if m =? 2 then (if is_leap y then 29 else 28)
  else if (m =? 4) || (m =? 6) || (m =? 9) || (m =? 11) then 30
  else 31.

Definition datetime_datetime (y m d hh mm ss : Z) : Result value :=
  if (1 <=? y) && (y <=? 9999) && (1 <=? m) && (m <=? 12)
     && (1 <=? d) && (d <=? days_in_month y m)
     && (0 <=? hh) && (hh <=? 23) && (0 <=? mm) && (mm <=? 59)
     && (0 <=? ss) && (ss <=? 59)
  then Ok (Stamp y m d hh mm ss)
  else Raise ValueError.

Section Loadline.

(** Python's [float(text)]. *)
Context (float : string -> Result Q).

Definition float_token (linetokens : list string) : FM value :=
  let* k := next_i in
  let* t := token linetokens k in
  let* x := lift (float t) in
  fret (Num x).

(** [VChartCSVData._loadline] *)
Definition _loadline (linetokens : list string) : FM bool :=
  count0 ;;
  let* _ := next_i in
  let* _ := next_i in
  let* k := next_i in
  let* dttxt := token linetokens k in
  let* y := lift (int (substring 0 4 dttxt)) in
  let* m := lift (int (substring 4 2 dttxt)) in
  let* d := lift (int (substring 6 2 dttxt)) in
  let* k := next_i in
  let* tmtxt := token linetokens k in
  let* t := lift (int tmtxt) in
  let hh := t / 10000 in
  let mmss := t mod 10000 in
  let mm := mmss / 100 in
  let ss := mmss mod 100 in
  let* dt := lift (datetime_datetime y m d hh mm ss) in
  setitem0 datetime dt ;;
  let* v := float_token linetokens in setitem0 open v ;;
  let* v := float_token linetokens in setitem0 high v ;;
  let* v := float_token linetokens in setitem0 low v ;;
  let* v := float_token linetokens in setitem0 close v ;;
  let* v := float_token linetokens in setitem0 volume v ;;
  let* v := float_token linetokens in setitem0 openinterest v ;;
  fret true.

End Loadline.

End VChart.

(** ** Notions the properties are stated with *)

(** Sequencing of fallible construction steps. *)
Definition and_then {A B} (r : Result A) (k : A -> Result B) : Result B :=
  match r with
  | Ok a => k a
  | Raise e => Raise e
  | OutOfFuel => OutOfFuel
  end.

(** A sequence of [self.addindicator(x)] calls, in order. *)
Fixpoint addindicators (g : Graph) (self : nid) (inds : list nid) : Result Graph :=
  match inds with
  | [] => Ok g
  | i :: r => and_then (addindicator g self i) (fun g' => addindicators g' self r)
  end.

(** [n._minperiod] is at least the [_minperiod] of each registered
    indicator and of each data of [n]. *)
Definition minperiod_covers (g : Graph) (n : nid) : Prop :=
  forall x, g !! n = Some x ->
    (forall c y, c ∈ _indicators x -> g !! c = Some y -> _minperiod y <= _minperiod x)
    /\ (forall d y, d ∈ datas x -> g !! d = Some y -> _minperiod y <= _minperiod x).

(** Construction seen as a sequence of calls on the objects of the
    graph. *)
Inductive call :=
| CallPreinit (n : nid) (owner : option nid) (args : list pyarg)
| CallSetminperiod (n : nid) (p : Z)
| CallAddindicator (n c : nid)
| CallPostinit (n : nid).

Definition do_call (g : Graph) (c : call) : Result Graph :=
  match c with
  | CallPreinit n owner args =>
      and_then (dopreinit g n owner args) (fun r => Ok (fst r))
  | CallSetminperiod n p => setminperiod g n p
  | CallAddindicator n c => addindicator g n c
  | CallPostinit n => dopostinit g n
  end.

Fixpoint do_calls (g : Graph) (cs : list call) : Result Graph :=
  match cs with
  | [] => Ok g
  | c :: r => and_then (do_call g c) (fun g' => do_calls g' r)
  end.

(** The objects whose [_minperiod] that of [n] is to cover. *)
Definition covered_by (g : Graph) (n : nid) : list nid :=
  match g !! n with
  | Some x => datas x ++ _indicators x
  | None => []
  end.

(** [m] is neither [n] nor one of the objects [n] is to cover. *)
Definition apart (g : Graph) (n m : nid) : bool :=
  bool_decide (m ≠ n /\ m ∉ covered_by g n).

(** The calls that cannot raise the [_minperiod] of a data or registered
    indicator of [n] above that of [n]: calls on [n] itself
    ([setminperiod] with a period of at least 1), the post-initialisation
    of an object that has no owner or whose owner is [n] or apart, and any
    call on an object apart. *)
Definition harmless (g : Graph) (n : nid) (c : call) : bool :=
  match c with
  | CallPreinit m _ _ => apart g n m
  | CallSetminperiod m p => (bool_decide (m = n) && (1 <=? p)) || apart g n m
  | CallAddindicator m _ => bool_decide (m = n) || apart g n m
  | CallPostinit m =>
      bool_decide (m = n)
      || match g !! m with
         | Some x => match _owner x with
                     | Some o => bool_decide (o = n) || apart g n o
                     | None => true
                     end
         | None => true
         end
  end.

Fixpoint all_harmless (g : Graph) (n : nid) (cs : list call) : bool :=
  match cs with
  | [] => true
  | c :: r => harmless g n c
              && match do_call g c with
                 | Ok g' => all_harmless g' n r
                 | _ => true
                 end
  end.

(** [m], started in [s], returns [a] in state [s'] and has logged exactly
    the calls [t] meanwhile. *)
Definition runs {A} (m : M A) (s : State) (t : list event) (a : A) (s' : State) : Prop :=
  m s = Ok (a, s') /\ trace s' = trace s ++ t.

(** The callback [_next] picks for clock length [L] on a node of
    [_minperiod] [P]. *)
Inductive phase := Warmup | Start | Steady.

Definition phase_of (L P : Z) : phase :=
  if L >? P then Steady else if L =? P then Start else Warmup.

(** The calls logged by the callback of a phase; the inherited [nextstart]
    calls [next]. *)
Definition phase_calls (cb : Callbacks) (self : nid) (p : phase) : list event :=
  match p with
  | Warmup => [EvPrenext self]
  | Start => match cb_nextstart cb self with
             | Some _ => [EvNextstart self]
             | None => [EvNextstart self; EvNext self]
             end
  | Steady => [EvNext self]
  end.

(** Lines 154-156 of [_next]: the clock's length is read and the node's
    own storage follows it; the value is the clock length read. *)
Definition arrive (self : nid) (me : Node) : M Z :=
  (let* clock_len := len (_clock me) in
   let* own_len := len self in
   (if bool_decide (clock_len ≠ own_len) then forward self 1 else ret tt) ;;
   ret clock_len)%eng.

(** Lines 161-169 of [_next]: notifications, then the lifecycle callback. *)
Definition dispatch (cb : Callbacks) (self : nid) (clock_len minperiod : Z) : M unit :=
  (_notify cb self ;; lifecycle cb self clock_len minperiod)%eng.

(** ** Schedules *)

(** The two moments of a node within one [_next] round: its arrival (lines
    154-156) and its dispatch (lines 161-169). *)
Inductive mark :=
| Arr (n : nid)
| Fin (n : nid).

#[global] Instance mark_eq_dec : EqDecision mark.
Proof. solve_decision. Defined.

(** The order in which one [_next] call on [n] goes through these moments,
    on a graph without explicit clock steps: [n] arrives, its indicators
    take their whole turn one after the other, [n] is dispatched, then its
    observers take their turn. *)
Fixpoint sched (g : Graph) (fuel : nat) (n : nid) : list mark :=
  match fuel with
  | O => []
  | S fuel =>
      match g !! n with
      | Some x => Arr n :: flat_map (sched g fuel) (_indicators x)
                    ++ Fin n :: flat_map (sched g fuel) (_observers x)
      | None => []
      end
  end.

(** [rk] bounds the depth of the calls below each object, and every
    registered indicator or observer exists. *)
Definition ranked (g : Graph) (rk : nid -> nat) : Prop :=
  forall n x c, g !! n = Some x -> c ∈ _indicators x ++ _observers x ->
    is_Some (g !! c) /\ (rk c < rk n)%nat.

(** No object of the graph steps its clock explicitly (no object that
    [dopostinit] can deliver does). *)
Definition plain_clocks (g : Graph) : Prop :=
  forall n x, g !! n = Some x -> _clockindicator x = false.

Definition arrived (l : list mark) : list nid :=
  omap (fun m => match m with Arr n => Some n | Fin _ => None end) l.

Definition finished (l : list mark) : list nid :=
  omap (fun m => match m with Fin n => Some n | Arr _ => None end) l.

(** ** Rounds of a step-mode run *)

(** What the engine itself looks at in a line: cursor, storage size and
    bindings -- not the values. *)
Definition shape (l : Line) : Z * nat * list (nid * nat) :=
  (idx l, List.length (array l), bindings l).

Definition same_shapes (b b' : Bufs) : Prop :=
  forall m, map shape <$> b' !! m = map shape <$> b !! m.

(** Every line of [m] holds [k] bars, the cursor on the last one. *)
Definition at_bar (k : Z) (b : Bufs) (m : nid) : Prop :=
  exists l ls, b !! m = Some (l :: ls)
    /\ Forall (fun l => idx l = k - 1 /\ Z.of_nat (List.length (array l)) = k)
              (l :: ls).

(** A callback of node [n] that only stores values in the lines of [n]:
    wherever the cursor of each line is on a slot, it returns, and all it
    has changed are values in the lines of [n]. *)
Definition tidy (n : nid) (h : hook) : Prop :=
  forall b ls, b !! n = Some ls ->
    Forall (fun l => 0 <= idx l < Z.of_nat (List.length (array l))) ls ->
    exists ls', h b = Ok (<[n := ls']> b) /\ map shape ls' = map shape ls.

Definition tidy_callbacks (cb : Callbacks) : Prop :=
  forall n, tidy n (cb_notify cb n) /\ tidy n (cb_prenext cb n)
            /\ tidy n (cb_next cb n)
            /\ (forall h, cb_nextstart cb n = Some h -> tidy n h).

(** A schedule that fits a set of feeds: each object arrives once, after
    its clock (a feed, or an object arrived before it), and is dispatched
    once, after its own arrival. *)
Fixpoint sound (g : Graph) (feeds arr fin : list nid) (l : list mark) : bool :=
  match l with
  | [] => true
  | Arr n :: r =>
      match g !! n with
      | Some x => bool_decide (_clock x ∈ feeds ++ arr)
                  && bool_decide (n ∉ feeds ++ arr)
                  && sound g feeds (n :: arr) fin r
      | None => false
      end
  | Fin n :: r => bool_decide (n ∈ arr) && bool_decide (n ∉ fin)
                  && sound g feeds arr (n :: fin) r
  end.

(** The lifecycle callbacks of [m] among the calls [t]. *)
Definition is_call (m : nid) (e : event) : bool :=
  match e with
  | EvPrenext n | EvNextstart n | EvNext n => bool_decide (n = m)
  | _ => false
  end.

Definition calls_of (m : nid) (t : list event) : list event :=
  List.filter (is_call m) t.

(** Each object has as many lines in [b'] as in [b]. *)
Definition same_arity (b b' : Bufs) : Prop :=
  forall m, List.length <$> b' !! m = List.length <$> b !! m.

(** Where a round for bar [k] stands once the moments [pre] of its
    schedule [whole] are over: feeds and arrived objects hold [k] bars, the
    others [k - 1]; no object has gained or lost a line since [b0]; and the
    lifecycle callbacks called since the round began (trace [tr0]) are, for
    each dispatched object, those of its phase at clock length [k]. *)
Definition in_round (cb : Callbacks) (g : Graph) (feeds : list nid)
    (whole : list mark) (k : Z) (b0 : Bufs) (tr0 : list event)
    (pre : list mark) (s : State) : Prop :=
  (forall c, c ∈ feeds ++ arrived pre -> at_bar k (bufs s) c)
  /\ (forall m, m ∈ arrived whole -> m ∉ arrived pre -> at_bar (k - 1) (bufs s) m)
  /\ same_arity b0 (bufs s)
  /\ exists t, trace s = tr0 ++ t
       /\ forall m x, g !! m = Some x ->
            calls_of m t = if bool_decide (m ∈ finished pre)
                           then phase_calls cb m (phase_of k (_minperiod x))
                           else [].

(** ** Runs *)

(** The data of a run: for each feed, what each of its lines holds in the
    end. *)
Abbreviation FeedData := (list (nid * list (list value))).

(** Modelled from the spec: one record loaded into a feed, which is not the
    core's code -- every line of the feed receives exactly one new value and
    the cursor moves onto it. *)
Definition push (v : value) (l : Line) : Line :=
  mkLine (array l ++ [v]) (idx l + 1) (bindings l).

Definition deliver (i : nat) (fd : nid * list (list value)) : M unit :=
  (let* ls := lines_of (fst fd) in
   put_lines (fst fd) (zip_with (fun l arr => push (nth i arr NaN) l) ls (snd fd)))%eng.

(** Modelled from the spec: the external driver in step mode -- for each
    bar, the feeds receive their record, then [_next] is called on the
    root. *)
Fixpoint step_run (cb : Callbacks) (g : Graph) (fuel : nat) (root : nid)
    (feeds : FeedData) (bars : nat) : M unit :=
  match bars with
  | O => ret tt
  | S i => (step_run cb g fuel root feeds i ;;
            for_each feeds (deliver i) ;;
            _next cb g fuel root)%eng
  end.

(** Modelled from the spec: the external driver in batch mode -- the feeds
    are loaded in full, then [_once] is called once on the root. *)
Definition preload (bars : nat) (fd : nid * list (list value)) : M unit :=
  (let* ls := lines_of (fst fd) in
   put_lines (fst fd)
     (zip_with (fun l arr => mkLine (array l ++ firstn bars arr)
                                    (idx l + Z.of_nat bars) (bindings l))
               ls (snd fd)))%eng.

Definition batch_run (cb : Callbacks) (g : Graph) (fuel : nat) (root : nid)
    (feeds : FeedData) (bars : nat) : M unit :=
  (for_each feeds (preload bars) ;; _once cb g fuel root)%eng.

(** The feed data fits the feeds: distinct feeds, one array per line, and
    enough bars in each. *)
Definition fits (b : Bufs) (feeds : FeedData) (bars : nat) : Prop :=
  NoDup (map fst feeds)
  /\ forall f arrs, (f, arrs) ∈ feeds ->
       exists ls, b !! f = Some ls /\ List.length arrs = List.length ls
                  /\ Forall (fun arr => bars <= List.length arr)%nat arrs.

(** The lifecycle callbacks of a node of [_minperiod] [P] over the first
    [bars] bars of a run. *)
Definition lifecycle_history (cb : Callbacks) (m : nid) (P : Z) (bars : nat) : list event :=
  flat_map (fun i => phase_calls cb m (phase_of (Z.of_nat (S i)) P)) (seq 0 bars).

(** All feeds and all scheduled objects hold [k] bars. *)
Definition settled (feeds : list nid) (whole : list mark) (k : Z) (b : Bufs) : Prop :=
  forall c, c ∈ feeds ++ arrived whole -> at_bar k b c.

(** How often [nextstart] of [m] occurs among the calls [t]. *)
Definition starts (m : nid) (t : list event) : nat :=
  List.length (List.filter (fun e => match e with
                                     | EvNextstart n => bool_decide (n = m)
                                     | _ => false
                                     end) t).

(** The plain parameters among constructor arguments. *)
Definition is_plain (a : pyarg) : bool :=
  match a with
  | ArgPlain _ => true
  | ArgSeries _ => false
  end.

(** The bindings the pairs (owner line, own line) declare on own line [i],
    towards the lines of [o]. *)
Definition bound_to (o : nid) (i : nat) (pairs : list (Z * Z)) : list (nid * nat) :=
  omap (fun p => if bool_decide (Z.to_nat (snd p) = i)
                 then Some (o, Z.to_nat (fst p)) else None) pairs.

(** The line sequences [bindlines] works with once defaults are filled in. *)
Definition owner_lines (owner : option pylines) : list Z :=
  if truthy owner then from_option as_iterable [] owner else [0].

Definition own_lines (owner own : option pylines) : list Z :=
  if truthy own then from_option as_iterable [] own
  else map Z.of_nat (seq 0 (List.length (owner_lines owner))).

(** Column [k] of a record holds the number [x]. *)
Definition column (float : string -> Result Q) (toks : list string)
    (k : nat) (x : Q) : Prop :=
  exists t, toks !! k = Some t /\ float t = Ok x.

(** A line whose cursor is on a slot of its storage. *)
Definition on_slot (l : Line) : Prop :=
  0 <= idx l < Z.of_nat (List.length (array l)).

(** The line with [v] in its current slot. *)
Definition with_current (v : value) (l : Line) : Line :=
  mkLine (<[Z.to_nat (idx l) := v]> (array l)) (idx l) (bindings l).

(** One bar of a VChart feed, line by line. *)
Definition bar_values (dt : value) (xo xh xl xc xv xi : Q) (nm : VChart.lname) : value :=
  match nm with
  | VChart.datetime => dt
  | VChart.open => Num xo
  | VChart.high => Num xh
  | VChart.low => Num xl
  | VChart.close => Num xc
  | VChart.volume => Num xv
  | VChart.openinterest => Num xi
  end.

Definition feed_lines : list VChart.lname :=
  [VChart.datetime; VChart.open; VChart.high; VChart.low; VChart.close;
   VChart.volume; VChart.openinterest].

(** ** Whole runs of [_once] and [_next] *)

(** [o] is computed in batch mode below some object of the graph: as one
    of its indicators, or as its clock where that is stepped explicitly. *)
Definition batch_child (g : Graph) (o : nid) : Prop :=
  exists p x, g !! p = Some x
    /\ (o ∈ _indicators x \/ (_clockindicator x = true /\ _clock x = o)).

(** The calls a batch run started on [root] may make. *)
Definition batch_event (g : Graph) (root : nid) (e : event) : Prop :=
  match e with
  | EvBatch o | EvPreonce o _ _ | EvOnce o _ _ | EvOncebinding o _ =>
      o = root \/ batch_child g o
  | EvForward _ _ | EvHome _ => True
  | EvStep _ | EvNotify _ | EvNext _ | EvNextstart _ | EvPrenext _ => False
  end.

(** The calls a step may make: [forward] by one bar only. *)
Definition step_event (e : event) : Prop :=
  match e with
  | EvStep _ | EvNotify _ | EvNext _ | EvNextstart _ | EvPrenext _ => True
  | EvForward _ size => size = 1
  | EvBatch _ | EvHome _ | EvPreonce _ _ _ | EvOnce _ _ _ | EvOncebinding _ _ => False
  end.

(** How many of the calls [t] satisfy [f]. *)
Definition tally (f : event -> bool) (t : list event) : nat :=
  List.length (List.filter f t).

Definition is_step (o : nid) (e : event) : bool :=
  match e with EvStep n => bool_decide (n = o) | _ => false end.

Definition is_notify (o : nid) (e : event) : bool :=
  match e with EvNotify n => bool_decide (n = o) | _ => false end.

Definition is_forward (o : nid) (e : event) : bool :=
  match e with EvForward n _ => bool_decide (n = o) | _ => false end.

(** Only step-mode calls, and per object as many notifications as steps
    and at most as many [forward] calls. *)
Definition paced (t : list event) : Prop :=
  Forall step_event t
  /\ forall o, tally (is_notify o) t = tally (is_step o) t
               /\ (tally (is_forward o) t <= tally (is_step o) t)%nat.

(** A callback of node [n] that leaves the lines of every other object
    alone. *)
Definition own_only (n : nid) (h : hook) : Prop :=
  forall b b', h b = Ok b' -> forall o, o ≠ n -> b' !! o = b !! o.

Definition own_only_callbacks (cb : Callbacks) : Prop :=
  forall n, own_only n (cb_notify cb n) /\ own_only n (cb_prenext cb n)
            /\ own_only n (cb_next cb n)
            /\ (forall h, cb_nextstart cb n = Some h -> own_only n h).

(** Every line of [o] has its cursor before the first slot. *)
Definition rewound (b : Bufs) (o : nid) : Prop :=
  exists ls, b !! o = Some ls /\ Forall (fun l => idx l = -1) ls.

(** The same objects, with the same cursors. *)
Definition same_cursors (b b' : Bufs) : Prop :=
  forall o, map idx <$> b' !! o = map idx <$> b !! o.

(** A callback that leaves every cursor where it is. *)
Definition keeps_cursors (h : hook) : Prop :=
  forall b b', h b = Ok b' -> same_cursors b b'.

(** ** Sample objects *)

Module Samples.

(** A fresh line, and a line that has received [n] bars (cursor on the
    last one). *)
Definition fresh_line : Line := mkLine [] (-1) [].

Definition line_of (vs : list value) : Line :=
  mkLine vs (Z.of_nat (List.length vs) - 1) [].

(** An object as its class leaves it before [dopreinit]: the default
    [_minperiod] of a series is 1. *)
Definition blank (observer : bool) : Node :=
  mkNode None [] 0%nat 1 [] [] false observer.

(** A plain data series (a feed): only [_minperiod] is ever read. *)
Definition feed_node : Node := blank false.

(** One VChart record and a feed whose seven lines have an open slot. *)
Definition record_tokens : list string :=
  ["TICK"; "D"; "20150102"; "093000"; "10"; "12"; "9"; "11"; "1000"; "0"]%string.

Definition open_feed : VChart.Feed :=
  VChart.mkFeed (fun _ => line_of [NaN]) [] 0.

(** A [float] that reads integer literals only. *)
Definition float_of_int (t : string) : Result Q :=
  match VChart.int t with
  | Ok z => Ok (inject_Z z)
  | Raise e => Raise e
  | OutOfFuel => OutOfFuel
  end.

(** A strategy [0] on the feed [3]; inside its [__init__] an indicator [1]
    built without data (its clock is the strategy), then an indicator [2]
    on the feed that asks for 30 bars. *)
Definition unbuilt : Graph :=
  <[0%nat := blank false]> (<[1%nat := blank false]>
    (<[2%nat := blank false]> (<[3%nat := feed_node]> ∅))).

Definition late_sibling : Result Graph :=
  and_then (dopreinit unbuilt 0%nat None [ArgSeries 3%nat]) (fun '(g, _) =>
  and_then (dopreinit g 1%nat (Some 0%nat) []) (fun '(g, _) =>
  and_then (dopostinit g 1%nat) (fun g =>
  and_then (dopreinit g 2%nat (Some 0%nat) [ArgSeries 3%nat; ArgPlain 30]) (fun '(g, _) =>
  and_then (setminperiod g 2%nat 30) (fun g =>
  dopostinit g 2%nat))))).

(** A node [1] that takes the indicator [2] as data and registers it as
    its own child. *)
Definition clock_child : Result Graph :=
  and_then (dopreinit unbuilt 1%nat None [ArgSeries 2%nat]) (fun '(g, _) =>
  addindicator g 1%nat 2%nat).

(** Node [1] owned by node [0]; [1] has declared no line, [0] has one. *)
Definition owned : Graph :=
  <[0%nat := blank false]>
    (<[1%nat := mkNode (Some 0%nat) [0%nat] 0%nat 1 [] [] false false]> ∅).

Definition lineless : Bufs :=
  <[0%nat := [fresh_line]]> (<[1%nat := []]> ∅).

Definition one_line_each : Bufs :=
  <[0%nat := [fresh_line]]> (<[1%nat := [fresh_line; fresh_line]]> ∅).

(** A strategy [0] on the feed [9] with two indicators [1], [2] on the same
    feed and an observer [3] that takes the strategy as its clock. *)
Definition family_root : Node :=
  mkNode None [9%nat] 9%nat 2 [1%nat; 2%nat] [3%nat] false false.

Definition family : Graph :=
  <[0%nat := family_root]>
    (<[1%nat := mkNode (Some 0%nat) [9%nat] 9%nat 1 [] [] false false]>
      (<[2%nat := mkNode (Some 0%nat) [9%nat] 9%nat 2 [] [] false false]>
        (<[3%nat := mkNode (Some 0%nat) [0%nat] 0%nat 1 [] [] false true]>
          (<[9%nat := feed_node]> ∅)))).

Definition num (z : Z) : value := Num (inject_Z z).

(** The buffers when the feed holds [vs] and nothing else has run. *)
Definition family_bufs (vs : list value) : Bufs :=
  <[0%nat := [fresh_line]]> (<[1%nat := [fresh_line]]>
    (<[2%nat := [fresh_line]]> (<[3%nat := [fresh_line]]>
      (<[9%nat := [line_of vs]]> ∅)))).

(** Call depth below each object of [family]. *)
Definition family_rank (n : nid) : nat :=
  match n with O => 1%nat | _ => 0%nat end.

(** Closing prices of the feed over three bars. *)
Definition family_feed : FeedData :=
  [(9%nat, [[num 10; num 11; num 12]])].

(** [family] before the first bar. *)
Definition family_start : Bufs :=
  <[0%nat := [fresh_line]]> (<[1%nat := [fresh_line]]>
    (<[2%nat := [fresh_line]]> (<[3%nat := [fresh_line]]>
      (<[9%nat := [fresh_line]]> ∅)))).

(** A strategy [0] on the feed [9] with an observer [3], which has an
    indicator [4] of its own on the feed. *)
Definition watched : Graph :=
  <[0%nat := mkNode None [9%nat] 9%nat 1 [] [3%nat] false false]>
    (<[3%nat := mkNode (Some 0%nat) [0%nat] 0%nat 1 [4%nat] [] false true]>
      (<[4%nat := mkNode (Some 3%nat) [9%nat] 9%nat 1 [] [] false false]>
        (<[9%nat := feed_node]> ∅))).

Definition watched_start : Bufs :=
  <[0%nat := [fresh_line]]> (<[3%nat := [fresh_line]]>
    (<[4%nat := [fresh_line]]> (<[9%nat := [fresh_line]]> ∅))).

(** Node [0] built on the feed [3], on which [1], [2] and again [1] have
    registered. *)
Definition registered_twice : Result Graph :=
  and_then (dopreinit unbuilt 0%nat None [ArgSeries 3%nat]) (fun '(g, _) =>
  addindicators g 0%nat [1%nat; 2%nat; 1%nat]).

(** Node [0] built on the feed [3] and node [1] built inside it without
    data, before [1] is post-initialised. *)
Definition before_postinit : Result Graph :=
  and_then (dopreinit unbuilt 0%nat None [ArgSeries 3%nat]) (fun '(g, _) =>
  and_then (dopreinit g 1%nat (Some 0%nat) [ArgPlain 14]) (fun '(g, _) =>
  Ok g)).

(** Buffers for [owned] in which [0] has two lines and [1] has three. *)
Definition two_and_three : Bufs :=
  <[0%nat := [fresh_line; fresh_line]]>
    (<[1%nat := [fresh_line; fresh_line; fresh_line]]> ∅).

(** Node [0] built on the feed [3], which then calls [setminperiod(0)]. *)
Definition period_zero : Result Graph :=
  and_then (dopreinit unbuilt 0%nat None [ArgSeries 3%nat]) (fun '(g, _) =>
  setminperiod g 0%nat 0).

(** The calls of [late_sibling] after the strategy's [dopreinit]. *)
Definition late_sibling_calls : list call :=
  [CallPreinit 1%nat (Some 0%nat) [];
   CallPostinit 1%nat;
   CallPreinit 2%nat (Some 0%nat) [ArgSeries 3%nat; ArgPlain 30];
   CallSetminperiod 2%nat 30;
   CallPostinit 2%nat].

(** [family] with two bars loaded in the feed and nothing computed. *)
Definition two_bars : State :=
  mkState (family_bufs [num 10; num 11]) [].

(** [family] with an empty feed and a strategy that already holds two
    bars. *)
Definition clock_behind : State :=
  mkState (<[0%nat := [line_of [NaN; NaN]]]> family_start) [].

(** [family] with three bars loaded in the feed and nothing computed. *)
Definition three_bars : State :=
  mkState (family_bufs [num 10; num 11; num 12]) [].

End Samples.

(** * Properties *)

(** ** Construction *)

Lemma comprehension_ok g ds dm :
  comprehension (minperiod_of g) ds = Ok dm ->
  Forall2 (fun d p => d = Some (fst p)
                      /\ exists x, g !! fst p = Some x /\ snd p = _minperiod x)
          ds dm.
Proof.
  revert dm. induction ds as [|d ds IH]; intros dm H; simpl in H.
  - injection H as <-. constructor.
  - destruct (minperiod_of g d) as [p| |] eqn:Ed; [|discriminate..].
    destruct (comprehension (minperiod_of g) ds) as [ps| |]; [|discriminate..].
    injection H as <-. constructor; [|apply IH; reflexivity].
    unfold minperiod_of in Ed. destruct d as [o|]; [|discriminate].
    destruct (g !! o) as [x|] eqn:Eo; [|discriminate].
    injection Ed as <-. simpl. eauto.
Qed.

Lemma fold_max_ge r : forall x, x <= fold_left Z.max r x.
Proof.
  induction r as [|a r IH]; intros x; simpl; [lia|].
  specialize (IH (Z.max x a)). lia.
Qed.

Lemma fold_max_bound r : forall x y, y ∈ x :: r -> y <= fold_left Z.max r x.
Proof.
  induction r as [|a r IH]; intros x y Hy; simpl.
  - apply list_elem_of_singleton in Hy. lia.
  - pose proof (fold_max_ge r (Z.max x a)) as Hge.
    apply elem_of_cons in Hy as [Hy|Hy]; [lia|].
    apply elem_of_cons in Hy as [Hy|Hy]; [lia|].
    apply IH. right. exact Hy.
Qed.

(** What a successful [dopreinit] has done. *)
Lemma dopreinit_ok g _obj owner args g' args' :
  dopreinit g _obj owner args = Ok (g', args') ->
  exists x dm clock mp,
    g !! _obj = Some x
    /\ Forall2 (fun d p => d = Some (fst p)
                  /\ exists y, g !! fst p = Some y /\ snd p = _minperiod y)
         (match series_args args with
          | [] => [owner]
          | _ => map Some (series_args args)
          end) dm
    /\ head (map fst dm) = Some clock
    /\ (forall p, p ∈ dm -> snd p <= mp)
    /\ g' = <[_obj := mkNode owner (map fst dm) clock mp [] []
                        (_clockindicator x) (is_observer x)]> g.
Proof.
  unfold dopreinit. intros H.
  destruct (g !! _obj) as [x|]; [|discriminate]. cbv zeta in H.
  destruct (comprehension _ _) as [dm| |] eqn:Ec; [|discriminate..].
  apply comprehension_ok in Ec.
  destruct dm as [|p dm]; [discriminate|]. simpl in H.
  injection H as <- _.
  exists x, (p :: dm), (fst p), (fold_left Z.max (map snd dm) (snd p)).
  split; [reflexivity|]. split; [exact Ec|]. split; [reflexivity|].
  split; [|reflexivity].
  intros q Hq. apply fold_max_bound.
  change (snd p :: map snd dm) with (map snd (p :: dm)).
  apply list_elem_of_fmap. exists q. auto.
Qed.

(** C8 (as amended): built without any series argument and without an
    owner, a node cannot be constructed -- [dopreinit] raises, the exception
    being the [AttributeError] of reading [_minperiod] off the missing owner
    (no exception class of its own exists for this); and whenever
    [dopreinit] succeeds, the node has a clock: the first of its datas, an
    existing object. *)
Theorem dopreinit_never_clockless g _obj args :
  (series_args args = [] ->
   dopreinit g _obj None args = Raise AttributeError)
  /\ (forall owner g' args',
        dopreinit g _obj owner args = Ok (g', args') ->
        exists x', g' !! _obj = Some x'
                   /\ head (datas x') = Some (_clock x')
                   /\ is_Some (g !! _clock x')).
Proof.
  split.
  - intros Hs. unfold dopreinit. rewrite Hs.
    destruct (g !! _obj); reflexivity.
  - intros owner g' args' H.
    apply dopreinit_ok in H as (x & dm & clock & mp & Hx & Hf & Hh & _ & ->).
    eexists. split; [apply lookup_insert_eq|]. simpl. split; [exact Hh|].
    destruct dm as [|p dm]; [discriminate|]. injection Hh as <-.
    inversion Hf as [|d q ds qs [_ (y & Hy & _)] _]; subst. eauto.
Qed.

Lemma dopreinit_never_clockless_witness :
  dopreinit Samples.unbuilt 1%nat None [ArgPlain 5] = Raise AttributeError
  /\ exists g', dopreinit Samples.unbuilt 1%nat None [ArgSeries 3%nat]
                  = Ok (g', [])
                /\ exists x', g' !! 1%nat = Some x'
                              /\ head (datas x') = Some (_clock x')
                              /\ is_Some (Samples.unbuilt !! _clock x').
Proof.
  split.
  - exact (proj1 (dopreinit_never_clockless Samples.unbuilt 1%nat [ArgPlain 5])
             eq_refl).
  - assert (E : exists g', dopreinit Samples.unbuilt 1%nat None [ArgSeries 3%nat]
                           = Ok (g', []))
      by (vm_compute; eexists; reflexivity).
    destruct E as (g' & E). exists g'. split; [exact E|].
    exact (proj2 (dopreinit_never_clockless Samples.unbuilt 1%nat _) _ _ _ E).
Defined.

(** C8, as stated, fails: the exception is not a [NoClockError]. *)
Lemma dopreinit_raises_no_NoClockError :
  dopreinit Samples.unbuilt 1%nat None [ArgPlain 5]
    <> Raise (UserError "NoClockError").
Proof. vm_compute. discriminate. Qed.

Lemma dopreinit_covers g _obj owner args g' args' :
  dopreinit g _obj owner args = Ok (g', args') -> minperiod_covers g' _obj.
Proof.
  intros H. apply dopreinit_ok in H as (x & dm & clock & mp & Hx & Hf & _ & Hmp & ->).
  intros x'. rewrite lookup_insert_eq. intros [= <-]. simpl. split.
  - intros c y Hc. apply elem_of_nil in Hc. destruct Hc.
  - intros d y Hd Hy. destruct (decide (_obj = d)) as [<-|Hne].
    + rewrite lookup_insert_eq in Hy. injection Hy as <-. simpl. lia.
    + rewrite lookup_insert_ne in Hy by exact Hne.
      apply list_elem_of_fmap in Hd as (p & -> & Hp).
      assert (Hq : exists z, g !! fst p = Some z /\ snd p = _minperiod z).
      { clear -Hf Hp. induction Hf as [|a b l1 l2 [_ Hab] _ IH].
        - apply elem_of_nil in Hp. destruct Hp.
        - apply elem_of_cons in Hp as [->|Hp]; [exact Hab | exact (IH Hp)]. }
      destruct Hq as (z & Hz & Hs). rewrite Hz in Hy. injection Hy as <-.
      rewrite <- Hs. apply Hmp. exact Hp.
Qed.

Lemma addindicator_covers g self indicator g' :
  addindicator g self indicator = Ok g' ->
  minperiod_covers g self -> minperiod_covers g' self.
Proof.
  unfold addindicator. intros H Hcov.
  destruct (g !! self) as [me|] eqn:Eme; [|discriminate].
  destruct (g !! indicator) as [ind|] eqn:Eind; [|discriminate].
  destruct (Hcov me Eme) as [Hi Hd].
  destruct (is_observer ind).
  - injection H as <-. intros x. rewrite lookup_insert_eq. intros [= <-]. simpl.
    split; intros c y Hc Hy; (destruct (decide (self = c)) as [<-|Hne];
      [rewrite lookup_insert_eq in Hy; injection Hy as <-; simpl; lia
      |rewrite lookup_insert_ne in Hy by exact Hne; eauto]).
  - rewrite lookup_insert_eq in H.
    destruct (<[self:=_]> g !! indicator) as [ind1|] eqn:E1; [|discriminate].
    injection H as <-. intros x. rewrite lookup_insert_eq. intros [= <-]. simpl.
    split; intros c y Hc Hy; (destruct (decide (self = c)) as [<-|Hne];
      [rewrite lookup_insert_eq in Hy; injection Hy as <-; simpl; lia|]).
    + rewrite !lookup_insert_ne in Hy by exact Hne.
      apply elem_of_app in Hc as [Hc|Hc].
      * specialize (Hi c y Hc Hy). lia.
      * apply list_elem_of_singleton in Hc. subst c.
        rewrite lookup_insert_ne in E1 by exact Hne.
        rewrite Hy in E1. injection E1 as <-. lia.
    + rewrite !lookup_insert_ne in Hy by exact Hne.
      specialize (Hd c y Hc Hy). lia.
Qed.

Lemma addindicators_covers inds : forall g self g',
  addindicators g self inds = Ok g' ->
  minperiod_covers g self -> minperiod_covers g' self.
Proof.
  induction inds as [|i r IH]; intros g self g' H Hcov; simpl in H.
  - injection H as <-. exact Hcov.
  - unfold and_then in H. destruct (addindicator g self i) as [g1| |] eqn:E;
      [|discriminate..].
    eapply IH; [exact H|]. eapply addindicator_covers; eassumption.
Qed.

(** C5, as stated, fails.  An indicator built without data takes its
    owner as its only data, and a sibling registered later raises the
    owner's [_minperiod] above the indicator's; and a node that calls
    [setminperiod] with a period below 1 lowers its own [_minperiod]
    below that of its data. *)
Lemma minperiod_not_covering_after_late_sibling :
  (exists g, Samples.late_sibling = Ok g /\ ~ minperiod_covers g 1%nat)
  /\ (exists g, Samples.period_zero = Ok g /\ ~ minperiod_covers g 0%nat).
Proof.
  split.
  - assert (E : exists g x s,
               Samples.late_sibling = Ok g
               /\ g !! 1%nat = Some x /\ datas x = [0%nat]
               /\ g !! 0%nat = Some s
               /\ _minperiod x = 1 /\ _minperiod s = 30)
      by (vm_compute; do 3 eexists; repeat split; reflexivity).
    destruct E as (g & x & s & E & Hx & Hd & Hs & Mx & Ms).
    exists g. split; [exact E|]. intros Hcov.
    destruct (Hcov x Hx) as [_ Hdat].
    specialize (Hdat 0%nat s). rewrite Hd in Hdat.
    specialize (Hdat (list_elem_of_here _ _) Hs). lia.
  - assert (E : exists g x f,
               Samples.period_zero = Ok g
               /\ g !! 0%nat = Some x /\ datas x = [3%nat]
               /\ g !! 3%nat = Some f
               /\ _minperiod x = 0 /\ _minperiod f = 1)
      by (vm_compute; do 3 eexists; repeat split; reflexivity).
    destruct E as (g & x & f & E & Hx & Hd & Hf & Mx & Mf).
    exists g. split; [exact E|]. intros Hcov.
    destruct (Hcov x Hx) as [_ Hdat].
    specialize (Hdat 3%nat f). rewrite Hd in Hdat.
    specialize (Hdat (list_elem_of_here _ _) Hf). lia.
Qed.

(** C4: the code raises where the claim needs it to go on.  With the clock
    among the registered indicators, [dopostinit] reaches the slice on line
    102, whose [self] is unbound there: construction fails with
    [NameError] instead of leaving the clock out of the iteration list. *)
Theorem dopostinit_clock_child_raises g _obj x :
  g !! _obj = Some x ->
  _owner x = None ->
  _clock x ∈ _indicators x ->
  dopostinit g _obj = Raise NameError.
Proof.
  intros Hx Ho Hc. unfold dopostinit. rewrite Hx, Ho, Hx. simpl.
  rewrite bool_decide_eq_true_2; [reflexivity|].
  assert (K : forall l seen c, c ∈ l -> c ∉ seen -> c ∈ keep_first seen l).
  { induction l as [|a l IH]; intros seen c Hin Hns; simpl.
    - apply elem_of_nil in Hin. destruct Hin.
    - case_bool_decide as Ha.
      + apply elem_of_cons in Hin as [->|Hin]; [contradiction|]. auto.
      + destruct (decide (c = a)) as [->|Hne]; [left|].
        apply elem_of_cons in Hin as [->|Hin]; [contradiction|].
        right. apply IH; [exact Hin|].
        intros Hin'. apply elem_of_cons in Hin' as [->|Hin']; contradiction. }
  apply K; [exact Hc|]. intros Hin. apply elem_of_nil in Hin. exact Hin.
Qed.

Lemma dopostinit_clock_child_raises_witness :
  exists g x,
    Samples.clock_child = Ok g /\ g !! 1%nat = Some x
    /\ _clock x ∈ _indicators x
    /\ dopostinit g 1%nat = Raise NameError.
Proof.
  assert (E : exists g x,
             Samples.clock_child = Ok g /\ g !! 1%nat = Some x
             /\ _owner x = None /\ _clock x = 2%nat /\ _indicators x = [2%nat])
    by (vm_compute; do 2 eexists; repeat split; reflexivity).
  destruct E as (g & x & E & Hx & Ho & Hc & Hi).
  assert (Hin : _clock x ∈ _indicators x)
    by (rewrite Hc, Hi; apply list_elem_of_here).
  exists g, x. split; [exact E|]. split; [exact Hx|]. split; [exact Hin|].
  exact (dopostinit_clock_child_raises g 1%nat x Hx Ho Hin).
Defined.

(** ** bindlines *)

(** C10 (as amended): called with both arguments omitted on a node that has
    a line of its own and whose owner has a line, [bindlines] declares
    exactly one binding -- own line 0 to the owner's line 0 -- leaves every
    other line of every object as it was, and returns the node. *)
Theorem bindlines_default g self me o l0 ls t0 ts b tr :
  g !! self = Some me ->
  _owner me = Some o ->
  b !! self = Some (l0 :: ls) ->
  b !! o = Some (t0 :: ts) ->
  bindlines g self None None (mkState b tr)
  = Ok (self, mkState (<[self := LineOps.addbinding (o, 0%nat) l0 :: ls]> b) tr).
Proof.
  intros Hme Ho Hs Hl.
  unfold bindlines, bind, for_each, bind_one, bind, lines_of, node_of, line_at,
    put_lines, ret. simpl.
  rewrite Hs. simpl. rewrite Hme, Ho. simpl. rewrite Hl. simpl. rewrite Hs.
  reflexivity.
Qed.

Lemma bindlines_default_witness :
  bindlines Samples.owned 1%nat None None (mkState Samples.one_line_each [])
  = Ok (1%nat,
        mkState (<[1%nat := [LineOps.addbinding (0%nat, 0%nat) Samples.fresh_line;
                             Samples.fresh_line]]> Samples.one_line_each) []).
Proof.
  eapply (bindlines_default Samples.owned 1%nat _ 0%nat);
    vm_compute; reflexivity.
Defined.

(** C10, as stated, fails: the owner has a line, the node has none, and the
    call raises instead of returning the node. *)
Lemma bindlines_lineless_node_raises :
  Samples.lineless !! 0%nat = Some [Samples.fresh_line]
  /\ bindlines Samples.owned 1%nat None None (mkState Samples.lineless [])
     = Raise IndexError.
Proof. split; vm_compute; reflexivity. Qed.

(** ** The execution monad *)

Section MonadFacts.

Local Open Scope eng_scope.

Lemma bind_ok {A B} (m : M A) (k : A -> M B) s b s' :
  bind m k s = Ok (b, s') <->
  exists a s1, m s = Ok (a, s1) /\ k a s1 = Ok (b, s').
Proof.
  unfold bind. split.
  - destruct (m s) as [[a s1]| |]; [|discriminate..]. eauto.
  - intros (a & s1 & -> & H). exact H.
Qed.

Lemma runs_ret {A} (a : A) s : runs (ret a) s [] a s.
Proof. split; [reflexivity | symmetry; apply app_nil_r]. Qed.

Lemma runs_log e s : runs (log e) s [e] tt (mkState (bufs s) (trace s ++ [e])).
Proof. split; reflexivity. Qed.

Lemma runs_bind {A B} (m : M A) (k : A -> M B) s t1 a s1 t2 b s2 :
  runs m s t1 a s1 -> runs (k a) s1 t2 b s2 -> runs (bind m k) s (t1 ++ t2) b s2.
Proof.
  intros [H1 T1] [H2 T2]. split.
  - apply bind_ok. eauto.
  - rewrite T2, T1, app_assoc. reflexivity.
Qed.

Lemma runs_det {A} (m : M A) s t a s' t' a' s'' :
  runs m s t a s' -> runs m s t' a' s'' -> t = t' /\ a = a' /\ s' = s''.
Proof.
  intros [H1 T1] [H2 T2]. rewrite H1 in H2. injection H2 as <- <-.
  rewrite T1 in T2. apply app_inv_head in T2. auto.
Qed.

(** A computation that only ever appends to the trace. *)
Definition traced {A} (m : M A) : Prop :=
  forall s a s', m s = Ok (a, s') -> exists t, runs m s t a s'.

Lemma traced_ret {A} (a : A) : traced (ret a).
Proof. intros s a' s' [= <- <-]. exists []. apply runs_ret. Qed.

Lemma traced_raise {A} e : traced (@raise A e).
Proof. intros s a s' H. discriminate H. Qed.

Lemma traced_log e : traced (log e).
Proof. intros s [] s' [= <-]. exists [e]. apply runs_log. Qed.

Lemma traced_bind {A B} (m : M A) (k : A -> M B) :
  traced m -> (forall a, traced (k a)) -> traced (bind m k).
Proof.
  intros Hm Hk s b s' H. apply bind_ok in H as (a & s1 & H1 & H2).
  destruct (Hm _ _ _ H1) as [t1 R1]. destruct (Hk _ _ _ _ H2) as [t2 R2].
  exists (t1 ++ t2). eapply runs_bind; eassumption.
Qed.

Lemma traced_silent {A} (m : M A) :
  (forall s a s', m s = Ok (a, s') -> trace s' = trace s) -> traced m.
Proof.
  intros H s a s' E. exists []. split; [exact E|].
  rewrite (H _ _ _ E), app_nil_r. reflexivity.
Qed.

Lemma traced_lines_of o : traced (lines_of o).
Proof.
  apply traced_silent. unfold lines_of. intros s a s'.
  destruct (bufs s !! o); [|discriminate]. intros [= _ <-]. reflexivity.
Qed.

Lemma traced_put_lines o ls : traced (put_lines o ls).
Proof. apply traced_silent. intros s [] s' [= <-]. reflexivity. Qed.

Lemma traced_user h : traced (user h).
Proof.
  apply traced_silent. unfold user. intros s a s'.
  destruct (h (bufs s)); [|discriminate..]. intros [= _ <-]. reflexivity.
Qed.

Lemma traced_for_each {A} (l : list A) body :
  (forall x, traced (body x)) -> traced (for_each l body).
Proof.
  intros Hb. induction l as [|x l IH]; simpl.
  - apply traced_ret.
  - apply traced_bind; [apply Hb | intros _; exact IH].
Qed.

Lemma traced_if {A} (c : bool) (m1 m2 : M A) :
  traced m1 -> traced m2 -> traced (if c then m1 else m2).
Proof. destruct c; auto. Qed.

Lemma traced_len o : traced (len o).
Proof.
  apply traced_bind; [apply traced_lines_of|].
  intros [|l ls]; [apply traced_raise | apply traced_ret].
Qed.

Lemma traced_buflen o : traced (buflen o).
Proof.
  apply traced_bind; [apply traced_lines_of|].
  intros [|l ls]; [apply traced_raise | apply traced_ret].
Qed.

Lemma traced_forward o size : traced (forward o size).
Proof.
  apply traced_bind; [apply traced_log|]. intros _.
  apply traced_bind; [apply traced_lines_of|]. intros ls. apply traced_put_lines.
Qed.

Lemma traced_home o : traced (home o).
Proof.
  apply traced_bind; [apply traced_log|]. intros _.
  apply traced_bind; [apply traced_lines_of|]. intros ls. apply traced_put_lines.
Qed.

Lemma traced_oncebinding o i : traced (oncebinding o i).
Proof.
  apply traced_bind; [apply traced_log|]. intros _.
  apply traced_bind; [apply traced_lines_of|]. intros ls.
  destruct (ls !! i) as [src|]; [|apply traced_raise].
  apply traced_for_each. intros tgt. unfold bind_target.
  apply traced_bind; [apply traced_lines_of|]. intros tl.
  destruct (tl !! tgt.2); [apply traced_put_lines | apply traced_raise].
Qed.

End MonadFacts.

Create HintDb traced.

#[global] Hint Resolve traced_ret traced_raise traced_log traced_lines_of
  traced_put_lines traced_user traced_len traced_buflen traced_forward
  traced_home traced_oncebinding : traced.

(** ** The step protocol: what is called, in which order *)

Section StepFacts.

Context (cb : Callbacks) (g : Graph).

Local Open Scope eng_scope.

Lemma bind_runs {A B} (m : M A) (k : A -> M B) s t b s' :
  traced m -> (forall a, traced (k a)) ->
  runs (bind m k) s t b s' ->
  exists a s1 t1 t2, runs m s t1 a s1 /\ runs (k a) s1 t2 b s' /\ t = t1 ++ t2.
Proof.
  intros Hm Hk [H T]. apply bind_ok in H as (a & s1 & H1 & H2).
  destruct (Hm _ _ _ H1) as [t1 R1]. destruct (Hk _ _ _ _ H2) as [t2 R2].
  exists a, s1, t1, t2. split; [exact R1|]. split; [exact R2|].
  destruct R1 as [_ T1]. destruct R2 as [_ T2].
  rewrite T2, T1, <- app_assoc in T. apply app_inv_head in T. congruence.
Qed.

Lemma traced_node_of o : traced (node_of g o).
Proof.
  apply traced_silent. unfold node_of. intros s a s'.
  destruct (g !! o); [|discriminate]. intros [= _ <-]. reflexivity.
Qed.

Lemma traced_notify self : traced (_notify cb self).
Proof. apply traced_bind; auto with traced. Qed.

Lemma traced_prenext self : traced (prenext cb self).
Proof. apply traced_bind; auto with traced. Qed.

Lemma traced_next self : traced (next cb self).
Proof. apply traced_bind; auto with traced. Qed.

Lemma traced_nextstart self : traced (nextstart cb self).
Proof.
  apply traced_bind; [auto with traced|]. intros _.
  destruct (cb_nextstart cb self); [auto with traced | apply traced_next].
Qed.

Lemma traced_preonce self a b : traced (preonce cb self a b).
Proof. apply traced_bind; auto with traced. Qed.

Lemma traced_once self a b : traced (once cb self a b).
Proof. apply traced_bind; auto with traced. Qed.

Lemma traced_lifecycle self L P : traced (lifecycle cb self L P).
Proof.
  unfold lifecycle. repeat apply traced_if;
    [apply traced_next | apply traced_nextstart | apply traced_prenext].
Qed.

Lemma traced_dispatch self L P : traced (dispatch cb self L P).
Proof.
  apply traced_bind; [apply traced_notify | intros _; apply traced_lifecycle].
Qed.

Lemma traced_arrive self me : traced (arrive self me).
Proof.
  apply traced_bind; [auto with traced|]. intros L.
  apply traced_bind; [auto with traced|]. intros own.
  apply traced_bind; [apply traced_if; auto with traced|]. auto with traced.
Qed.

Lemma traced__next fuel : forall self, traced (_next cb g fuel self).
Proof.
  induction fuel as [|fuel IH]; intros self; simpl.
  - intros s a s' H. discriminate H.
  - apply traced_bind; [auto with traced|]. intros _.
    apply traced_bind; [apply traced_node_of|]. intros me.
    apply traced_bind; [apply traced_if; auto with traced|]. intros _.
    apply traced_bind; [auto with traced|]. intros L.
    apply traced_bind; [auto with traced|]. intros own.
    apply traced_bind; [apply traced_if; auto with traced|]. intros _.
    apply traced_bind; [apply traced_for_each; exact IH|]. intros _.
    apply traced_bind; [apply traced_notify|]. intros _.
    apply traced_bind; [apply traced_lifecycle|]. intros _.
    apply traced_for_each; exact IH.
Qed.

Lemma traced__once fuel : forall self, traced (_once cb g fuel self).
Proof.
  induction fuel as [|fuel IH]; intros self; simpl.
  - intros s a s' H. discriminate H.
  - apply traced_bind; [auto with traced|]. intros _.
    apply traced_bind; [apply traced_node_of|]. intros me.
    apply traced_bind; [auto with traced|]. intros size.
    apply traced_bind; [auto with traced|]. intros _.
    apply traced_bind; [apply traced_if; auto with traced|]. intros _.
    apply traced_bind; [apply traced_for_each; exact IH|]. intros _.
    apply traced_bind.
    { apply traced_for_each. intros o. apply traced_bind; auto with traced. }
    intros _.
    apply traced_bind; [apply traced_for_each; auto with traced|]. intros _.
    apply traced_bind; [apply traced_if; auto with traced|]. intros _.
    apply traced_bind; [apply traced_for_each; auto with traced|]. intros _.
    apply traced_bind; [apply traced_for_each; auto with traced|]. intros _.
    apply traced_bind; [auto with traced|]. intros _.
    apply traced_bind; [apply traced_preonce|]. intros _.
    apply traced_bind; [auto with traced|]. intros total.
    apply traced_bind; [apply traced_once|]. intros _.
    apply traced_bind; [auto with traced|]. intros ls.
    apply traced_for_each; auto with traced.
Qed.

End StepFacts.

Ltac solve_traced :=
  repeat (intros;
    match goal with
    | |- traced (bind _ _) => apply traced_bind
    | |- traced (for_each _ _) => apply traced_for_each
    | |- traced (if _ then _ else _) => apply traced_if
    | |- traced (_next _ _ _ _) => apply traced__next
    | |- traced (_once _ _ _ _) => apply traced__once
    | |- traced (arrive _ _) => apply traced_arrive
    | |- traced (dispatch _ _ _ _) => apply traced_dispatch
    | |- traced (lifecycle _ _ _ _) => apply traced_lifecycle
    | |- traced (_notify _ _) => apply traced_notify
    | |- traced (preonce _ _ _ _) => apply traced_preonce
    | |- traced (once _ _ _ _) => apply traced_once
    | |- traced (node_of _ _) => apply traced_node_of
    | |- traced (match ?x with _ => _ end) => destruct x
    | |- traced _ => solve [eauto with traced]
    end).

Ltac cut_run R a s1 t1 t2 R1 :=
  apply bind_runs in R as (a & s1 & t1 & t2 & R1 & R & ->);
  [|solve_traced|solve_traced].

Section OrderFacts.

Context (cb : Callbacks) (g : Graph).

Local Open Scope eng_scope.

(** [_next] as its parts: the explicit clock step, the node's own arrival,
    then children, dispatch and observers. *)
Lemma _next_eq fuel self me s :
  g !! self = Some me ->
  _next cb g (S fuel) self s =
  (log (EvStep self) ;;
   (if _clockindicator me then _next cb g fuel (_clock me) else ret tt) ;;
   let* clock_len := arrive self me in
   for_each (_indicators me) (_next cb g fuel) ;;
   dispatch cb self clock_len (_minperiod me) ;;
   for_each (_observers me) (_next cb g fuel)) s.
Proof.
  intros Hme. simpl. unfold arrive, dispatch. unfold bind, log, node_of, ret.
  simpl. rewrite Hme.
  repeat (match goal with
          | |- context [match ?x with _ => _ end] =>
              destruct x eqn:?; try reflexivity
          end).
Qed.

Lemma runs_log_inv e s t a s' :
  runs (log e) s t a s' -> t = [e] /\ s' = mkState (bufs s) (trace s ++ [e]).
Proof.
  intros R. destruct a.
  destruct (runs_det _ _ _ _ _ _ _ _ R (runs_log e s)) as (-> & _ & ->). auto.
Qed.

Lemma runs_user_inv h s t a s' : runs (user h) s t a s' -> t = [].
Proof.
  intros [H T]. unfold user in H. destruct (h (bufs s)); [|discriminate..].
  injection H as _ <-. simpl in T.
  rewrite <- (app_nil_r (trace s)) in T at 1. apply app_inv_head in T. auto.
Qed.

Lemma runs_logged_user e h s t a s' :
  runs (log e ;; user h) s t a s' -> t = [e].
Proof.
  intros R. apply bind_runs in R as ([] & s1 & t1 & t2 & R1 & R2 & ->);
    auto with traced.
  apply runs_log_inv in R1 as [-> _]. apply runs_user_inv in R2 as ->.
  reflexivity.
Qed.

Lemma runs_nextstart self s t a s' :
  runs (nextstart cb self) s t a s' -> t = phase_calls cb self Start.
Proof.
  unfold nextstart, phase_calls. destruct (cb_nextstart cb self) as [h|].
  - apply runs_logged_user.
  - intros R. apply bind_runs in R as ([] & s1 & t1 & t2 & R1 & R2 & ->);
      [|auto with traced|intros _; apply traced_next].
    apply runs_log_inv in R1 as [-> _]. apply runs_logged_user in R2 as ->.
    reflexivity.
Qed.

(** The lifecycle callback called is the one of the phase, and no other. *)
Lemma runs_lifecycle self L P s t a s' :
  runs (lifecycle cb self L P) s t a s' ->
  t = phase_calls cb self (phase_of L P).
Proof.
  unfold lifecycle, phase_of. destruct (L >? P).
  - apply runs_logged_user.
  - destruct (L =? P); [apply runs_nextstart | apply runs_logged_user].
Qed.

Lemma runs_dispatch self L P s t a s' :
  runs (dispatch cb self L P) s t a s' ->
  t = EvNotify self :: phase_calls cb self (phase_of L P).
Proof.
  intros R. apply bind_runs in R as ([] & s1 & t1 & t2 & R1 & R2 & ->);
    [|apply traced_notify|intros _; apply traced_lifecycle].
  apply runs_logged_user in R1 as ->. apply runs_lifecycle in R2 as ->.
  reflexivity.
Qed.

Lemma runs_eq {A} (m1 m2 : M A) s t a s' :
  m1 s = m2 s -> runs m1 s t a s' <-> runs m2 s t a s'.
Proof. unfold runs. intros ->. reflexivity. Qed.

(** C3: with children [[c1; c2]] and observer [o], one [_next] call on the
    node runs [c1]'s whole step, then [c2]'s whole step, then the node's
    own notification and lifecycle callback, then [o]'s step: the calls
    logged are the four segments one after the other, each segment being
    exactly what the respective call logs. *)
Theorem next_calls_in_order fuel self me c1 c2 o s t s' :
  g !! self = Some me ->
  _clockindicator me = false ->
  _indicators me = [c1; c2] ->
  _observers me = [o] ->
  (runs (_next cb g (S fuel) self) s t tt s' <->
   exists L s0 s1 s2 s3 t0 t1 t2 t4,
     runs (arrive self me) (mkState (bufs s) (trace s ++ [EvStep self])) t0 L s0
     /\ runs (_next cb g fuel c1) s0 t1 tt s1
     /\ runs (_next cb g fuel c2) s1 t2 tt s2
     /\ runs (dispatch cb self L (_minperiod me)) s2
          (EvNotify self :: phase_calls cb self (phase_of L (_minperiod me)))
          tt s3
     /\ runs (_next cb g fuel o) s3 t4 tt s'
     /\ t = EvStep self :: t0 ++ t1 ++ t2
            ++ (EvNotify self :: phase_calls cb self (phase_of L (_minperiod me)))
            ++ t4).
Proof.
  intros Hme Hci Hin Hob.
  rewrite (runs_eq _ _ _ _ _ _ (_next_eq fuel self me s Hme)).
  rewrite Hci, Hin, Hob. simpl for_each. split.
  - intros R.
    apply bind_runs in R as ([] & sa & ta & tb & Ra & R & ->);
      [|auto with traced|].
    2:{ intros _. apply traced_bind; [auto with traced|]. intros _.
        apply traced_bind; [apply traced_arrive|]. intros L.
        apply traced_bind.
        { apply traced_bind; [apply traced__next|]. intros _.
          apply traced_bind; [apply traced__next|]. auto with traced. }
        intros _. apply traced_bind; [apply traced_dispatch|]. intros _.
        apply traced_bind; [apply traced__next|]. auto with traced. }
    apply runs_log_inv in Ra as [-> ->].
    apply bind_runs in R as ([] & sb & tc & td & Rb & R & ->);
      [|auto with traced|].
    2:{ intros _. apply traced_bind; [apply traced_arrive|]. intros L.
        apply traced_bind.
        { apply traced_bind; [apply traced__next|]. intros _.
          apply traced_bind; [apply traced__next|]. auto with traced. }
        intros _. apply traced_bind; [apply traced_dispatch|]. intros _.
        apply traced_bind; [apply traced__next|]. auto with traced. }
    destruct (runs_det _ _ _ _ _ _ _ _ Rb (runs_ret tt _)) as (-> & _ & ->).
    apply bind_runs in R as (L & s0 & t0 & te & R0 & R & ->);
      [|apply traced_arrive|].
    2:{ intros L. apply traced_bind.
        { apply traced_bind; [apply traced__next|]. intros _.
          apply traced_bind; [apply traced__next|]. auto with traced. }
        intros _. apply traced_bind; [apply traced_dispatch|]. intros _.
        apply traced_bind; [apply traced__next|]. auto with traced. }
    apply bind_runs in R as ([] & sx & tf & tg & Rk & R & ->).
    2:{ apply traced_bind; [apply traced__next|]. intros _.
        apply traced_bind; [apply traced__next|]. auto with traced. }
    2:{ intros _. apply traced_bind; [apply traced_dispatch|]. intros _.
        apply traced_bind; [apply traced__next|]. auto with traced. }
    apply bind_runs in Rk as ([] & s1 & t1 & th & R1 & Rk & ->);
      [|apply traced__next|].
    2:{ intros _. apply traced_bind; [apply traced__next|]. auto with traced. }
    apply bind_runs in Rk as ([] & s2 & t2 & ti & R2 & Rk & ->);
      [|apply traced__next|auto with traced].
    destruct (runs_det _ _ _ _ _ _ _ _ Rk (runs_ret tt _)) as (-> & _ & ->).
    apply bind_runs in R as ([] & s3 & tj & tk & Rd & R & ->);
      [|apply traced_dispatch|].
    2:{ intros _. apply traced_bind; [apply traced__next|]. auto with traced. }
    pose proof (runs_dispatch _ _ _ _ _ _ _ Rd) as ->.
    apply bind_runs in R as ([] & s4 & t4 & tl & Ro & R & ->);
      [|apply traced__next|auto with traced].
    destruct (runs_det _ _ _ _ _ _ _ _ R (runs_ret tt _)) as (-> & _ & ->).
    exists L, s0, s1, s2, s3, t0, t1, t2, t4.
    repeat (split; [assumption|]).
    simpl. rewrite !app_nil_r. rewrite <- !app_assoc. reflexivity.
  - intros (L & s0 & s1 & s2 & s3 & t0 & t1 & t2 & t4
            & R0 & R1 & R2 & Rd & Ro & ->).
    change (EvStep self :: t0 ++ t1 ++ t2
              ++ (EvNotify self
                    :: phase_calls cb self (phase_of L (_minperiod me))) ++ t4)
      with ([EvStep self] ++ t0 ++ t1 ++ t2
              ++ (EvNotify self
                    :: phase_calls cb self (phase_of L (_minperiod me))) ++ t4).
    eapply runs_bind; [apply runs_log|].
    rewrite <- (app_nil_l (t0 ++ _)).
    eapply runs_bind; [apply runs_ret|].
    eapply runs_bind; [exact R0|].
    rewrite (app_assoc t1 t2).
    eapply runs_bind.
    { eapply runs_bind; [exact R1|].
      rewrite <- (app_nil_r t2). eapply runs_bind; [exact R2 | apply runs_ret]. }
    eapply runs_bind; [exact Rd|].
    rewrite <- (app_nil_r t4). eapply runs_bind; [exact Ro | apply runs_ret].
Qed.

(** ** The batch protocol: what is called, in which order *)

Lemma runs_silent {A} (m : M A) s t a s' :
  (forall s a s', m s = Ok (a, s') -> trace s' = trace s /\ True) ->
  runs m s t a s' -> t = [].
Proof.
  intros Hs [H T]. destruct (Hs _ _ _ H) as [E _]. rewrite E in T.
  rewrite <- (app_nil_r (trace s)) in T at 1. apply app_inv_head in T. auto.
Qed.

Lemma runs_lines_of o s t ls s' :
  runs (lines_of o) s t ls s' -> t = [] /\ s' = s /\ bufs s !! o = Some ls.
Proof.
  intros [H T]. unfold lines_of in H.
  destruct (bufs s !! o) as [l|] eqn:E; [|discriminate].
  injection H as <- <-. rewrite <- (app_nil_r (trace s)) in T at 1.
  apply app_inv_head in T. auto.
Qed.

Lemma runs_put_lines o ls s t a s' :
  runs (put_lines o ls) s t a s' ->
  t = [] /\ s' = mkState (<[o := ls]> (bufs s)) (trace s).
Proof.
  intros [H T]. injection H as _ <-. simpl in T.
  rewrite <- (app_nil_r (trace s)) in T at 1. apply app_inv_head in T. auto.
Qed.

Lemma runs_buflen o s t z s' :
  runs (buflen o) s t z s' -> t = [] /\ s' = s.
Proof.
  intros R. apply bind_runs in R as (ls & s1 & t1 & t2 & R1 & R2 & ->);
    [|auto with traced|intros [|? ?]; auto with traced].
  apply runs_lines_of in R1 as (-> & -> & _).
  destruct ls as [|l ls]; [destruct R2 as [R2 _]; discriminate R2|].
  destruct (runs_det _ _ _ _ _ _ _ _ R2 (runs_ret _ _)) as (-> & _ & ->). auto.
Qed.

Lemma runs_len o s t z s' :
  runs (len o) s t z s' -> t = [] /\ s' = s.
Proof.
  intros R. apply bind_runs in R as (ls & s1 & t1 & t2 & R1 & R2 & ->);
    [|auto with traced|intros [|? ?]; auto with traced].
  apply runs_lines_of in R1 as (-> & -> & _).
  destruct ls as [|l ls]; [destruct R2 as [R2 _]; discriminate R2|].
  destruct (runs_det _ _ _ _ _ _ _ _ R2 (runs_ret _ _)) as (-> & _ & ->). auto.
Qed.

Lemma runs_forward o size s t a s' :
  runs (forward o size) s t a s' -> t = [EvForward o size].
Proof.
  intros R. apply bind_runs in R as ([] & s1 & t1 & t2 & R1 & R2 & ->);
    [|auto with traced|].
  2:{ intros _. apply traced_bind; auto with traced. }
  apply runs_log_inv in R1 as [-> _].
  apply bind_runs in R2 as (ls & s2 & t3 & t4 & R2 & R3 & ->);
    auto with traced.
  apply runs_lines_of in R2 as (-> & _ & _).
  apply runs_put_lines in R3 as (-> & _). reflexivity.
Qed.

Lemma runs_home o s t a s' : runs (home o) s t a s' -> t = [EvHome o].
Proof.
  intros R. apply bind_runs in R as ([] & s1 & t1 & t2 & R1 & R2 & ->);
    [|auto with traced|].
  2:{ intros _. apply traced_bind; auto with traced. }
  apply runs_log_inv in R1 as [-> _].
  apply bind_runs in R2 as (ls & s2 & t3 & t4 & R2 & R3 & ->);
    auto with traced.
  apply runs_lines_of in R2 as (-> & _ & _).
  apply runs_put_lines in R3 as (-> & _). reflexivity.
Qed.

Lemma runs_bind_target src tgt s t a s' :
  runs (bind_target src tgt) s t a s' -> t = [].
Proof.
  intros R. apply bind_runs in R as (ls & s1 & t1 & t2 & R1 & R2 & ->);
    [|auto with traced|].
  2:{ intros ls. destruct (ls !! tgt.2); auto with traced. }
  apply runs_lines_of in R1 as (-> & -> & _).
  destruct (ls !! tgt.2); [|destruct R2 as [R2 _]; discriminate R2].
  apply runs_put_lines in R2 as (-> & _). reflexivity.
Qed.

(** A loop whose body logs one call per element. *)
Lemma runs_for_each_each {A} (Q : A -> event -> Prop) (body : A -> M unit) l :
  (forall x, traced (body x)) ->
  (forall x s t a s', runs (body x) s t a s' -> exists e, t = [e] /\ Q x e) ->
  forall s t a s', runs (for_each l body) s t a s' -> Forall2 Q l t.
Proof.
  intros Hb Hq. induction l as [|x l IH]; intros s t a s' R; simpl in R.
  - destruct a. destruct (runs_det _ _ _ _ _ _ _ _ R (runs_ret tt _)) as (-> & _).
    constructor.
  - apply bind_runs in R as ([] & s1 & t1 & t2 & R1 & R2 & ->);
      [|apply Hb|intros _; apply traced_for_each; exact Hb].
    destruct (Hq _ _ _ _ _ R1) as (e & -> & He). simpl.
    constructor; [exact He | eapply IH; exact R2].
Qed.

Lemma runs_for_each_map {A} (f : A -> event) (body : A -> M unit) l :
  (forall x, traced (body x)) ->
  (forall x s t a s', runs (body x) s t a s' -> t = [f x]) ->
  forall s t a s', runs (for_each l body) s t a s' -> t = map f l.
Proof.
  intros Hb Hq s t a s' R.
  assert (F : Forall2 (fun x e => e = f x) l t).
  { eapply runs_for_each_each; [exact Hb| |exact R].
    intros x s0 t0 a0 s0' R0. exists (f x). split; [eauto | reflexivity]. }
  clear R. induction F as [|x e l t -> _ IH]; [reflexivity|].
  simpl. rewrite IH. reflexivity.
Qed.

(** A loop whose body logs nothing. *)
Lemma runs_for_each_silent {A} (body : A -> M unit) l :
  (forall x, traced (body x)) ->
  (forall x s t a s', runs (body x) s t a s' -> t = []) ->
  forall s t a s', runs (for_each l body) s t a s' -> t = [].
Proof.
  intros Hb Hq. induction l as [|x l IH]; intros s t a s' R; simpl in R.
  - destruct a. destruct (runs_det _ _ _ _ _ _ _ _ R (runs_ret tt _)) as (-> & _).
    reflexivity.
  - apply bind_runs in R as ([] & s1 & t1 & t2 & R1 & R2 & ->);
      [|apply Hb|intros _; apply traced_for_each; exact Hb].
    rewrite (Hq _ _ _ _ _ R1), (IH _ _ _ _ R2). reflexivity.
Qed.

Lemma runs_oncebinding o i s t a s' :
  runs (oncebinding o i) s t a s' -> t = [EvOncebinding o i].
Proof.
  intros R. apply bind_runs in R as ([] & s1 & t1 & t2 & R1 & R2 & ->);
    [|auto with traced|].
  2:{ intros _. apply traced_bind; [auto with traced|]. intros ls.
      destruct (ls !! i); [|auto with traced].
      apply traced_for_each. intros tgt. unfold bind_target.
      apply traced_bind; [auto with traced|]. intros tl.
      destruct (tl !! tgt.2); auto with traced. }
  apply runs_log_inv in R1 as [-> _].
  apply bind_runs in R2 as (ls & s2 & t3 & t4 & R2 & R3 & ->);
    [|auto with traced|].
  2:{ intros ls. destruct (ls !! i); [|auto with traced].
      apply traced_for_each. intros tgt. unfold bind_target.
      apply traced_bind; [auto with traced|]. intros tl.
      destruct (tl !! tgt.2); auto with traced. }
  apply runs_lines_of in R2 as (-> & _ & _).
  destruct (ls !! i) as [src|]; [|destruct R3 as [R3 _]; discriminate R3].
  apply runs_for_each_silent in R3 as ->; [reflexivity| |].
  - intros tgt. unfold bind_target.
    apply traced_bind; [auto with traced|]. intros tl.
    destruct (tl !! tgt.2); auto with traced.
  - intros tgt. apply runs_bind_target.
Qed.

Lemma runs_node_of o s t x s' :
  runs (node_of g o) s t x s' -> t = [] /\ s' = s /\ g !! o = Some x.
Proof.
  intros [H T]. unfold node_of in H. destruct (g !! o) as [y|]; [|discriminate].
  injection H as <- <-. rewrite <- (app_nil_r (trace s)) in T at 1.
  apply app_inv_head in T. auto.
Qed.

Lemma runs_preonce self a b s t u s' :
  runs (preonce cb self a b) s t u s' -> t = [EvPreonce self a b].
Proof. apply runs_logged_user. Qed.

Lemma runs_once self a b s t u s' :
  runs (once cb self a b) s t u s' -> t = [EvOnce self a b].
Proof. apply runs_logged_user. Qed.

Ltac split_run R a s1 t1 t2 R1 :=
  apply bind_runs in R as (a & s1 & t1 & t2 & R1 & R & ->);
  [|solve_traced|solve_traced].

(** [buflen] looks at the buffers only. *)
Lemma buflen_state o s s' z :
  bufs s' = bufs s -> buflen o s = Ok (z, s) -> buflen o s' = Ok (z, s').
Proof.
  intros Hb H. unfold buflen, bind, lines_of in H |- *. rewrite Hb.
  destruct (bufs s !! o) as [[|l ls]|]; try discriminate H.
  unfold ret in H |- *. injection H as <-. reflexivity.
Qed.

(** A sized observer loop logs one [forward] per observer; when the node
    is not among its own observers, all with the node's buffer size. *)
Lemma runs_size_observers self obs : forall s t s',
  runs (for_each obs (fun observer => let* size := buflen self in
                                      forward observer size)) s t tt s' ->
  Forall2 (fun o e => exists sz, e = EvForward o sz) obs t
  /\ (self ∉ obs -> forall T0, buflen self s = Ok (T0, s) ->
      t = map (fun o => EvForward o T0) obs).
Proof.
  induction obs as [|o obs IH]; intros s t s' R; simpl in R.
  - destruct (runs_det _ _ _ _ _ _ _ _ R (runs_ret tt _)) as (-> & _).
    split; [constructor | reflexivity].
  - split_run R u s1 t1 t2 R1. destruct u.
    destruct (IH _ _ _ R) as [F E].
    split_run R1 sz s2 t3 t4 R2.
    pose proof (runs_buflen _ _ _ _ _ R2) as (-> & ->).
    pose proof (runs_forward _ _ _ _ _ _ R1) as ->.
    split; [constructor; eauto|].
    intros Hn T0 HT. simpl.
    rewrite (proj1 R2) in HT. injection HT as ->.
    rewrite (E ltac:(set_solver) T0); [reflexivity|].
    destruct R1 as [R1 _], R2 as [R2 _].
    unfold forward, bind, log, lines_of, put_lines in R1. simpl in R1.
    destruct (bufs s !! o) as [lo|] eqn:Ho; [|discriminate R1].
    injection R1 as <-.
    unfold buflen, bind, lines_of in R2 |- *. simpl.
    rewrite lookup_insert_ne by set_solver.
    destruct (bufs s !! self) as [[|l ls]|]; try discriminate R2.
    unfold ret in R2 |- *. injection R2 as <-. reflexivity.
Qed.

(** C7: a [_once] call -- and nothing else -- goes through these stages,
    each started in the state the one before has left: [forward] on the
    node by the clock's buffer size; the [_once] of the clock (when it is a
    child) and of the indicators; for the observers one [forward] each, by
    the node's buffer size, and no [_once] or callback of theirs; [home] on
    datas, clock-child, indicators, observers and the node; then
    [preonce(0, M-1)]; then [once(M-1, T)] with [T] the node's buffer size
    at that moment; and only after both, [oncebinding] on every line the
    node has, in order, which resolves the bindings declared on that
    line. *)
Theorem once_calls_in_order fuel self me s t s' :
  g !! self = Some me ->
  (runs (_once cb g (S fuel) self) s t tt s' <->
   exists fsize T ls s1 s2 s3 s4 s5 s6 tsub tobs,
     buflen (_clock me) s = Ok (fsize, s)
     /\ runs (forward self fsize) (mkState (bufs s) (trace s ++ [EvBatch self]))
             [EvForward self fsize] tt s1
     /\ runs ((if _clockindicator me then _once cb g fuel (_clock me) else ret tt) ;;
              for_each (_indicators me) (_once cb g fuel)) s1 tsub tt s2
     /\ runs (for_each (_observers me)
                (fun observer => let* size := buflen self in forward observer size))
             s2 tobs tt s3
     /\ Forall2 (fun o e => exists sz, e = EvForward o sz) (_observers me) tobs
     /\ (self ∉ _observers me -> forall T0, buflen self s2 = Ok (T0, s2) ->
         tobs = map (fun o => EvForward o T0) (_observers me))
     /\ runs (for_each (datas me) home ;;
              (if _clockindicator me then home (_clock me) else ret tt) ;;
              for_each (_indicators me) home ;;
              for_each (_observers me) home ;;
              home self) s3
             (map EvHome (datas me
                          ++ (if _clockindicator me then [_clock me] else [])
                          ++ _indicators me ++ _observers me ++ [self])) tt s4
     /\ runs (preonce cb self 0 (_minperiod me - 1)) s4
             [EvPreonce self 0 (_minperiod me - 1)] tt s5
     /\ buflen self s5 = Ok (T, s5)
     /\ runs (once cb self (_minperiod me - 1) T) s5
             [EvOnce self (_minperiod me - 1) T] tt s6
     /\ bufs s6 !! self = Some ls
     /\ runs (for_each (seq 0 (List.length ls)) (oncebinding self)) s6
             (map (EvOncebinding self) (seq 0 (List.length ls))) tt s'
     /\ t = [EvBatch self; EvForward self fsize] ++ tsub ++ tobs
            ++ map EvHome (datas me
                           ++ (if _clockindicator me then [_clock me] else [])
                           ++ _indicators me ++ _observers me ++ [self])
            ++ [EvPreonce self 0 (_minperiod me - 1);
                EvOnce self (_minperiod me - 1) T]
            ++ map (EvOncebinding self) (seq 0 (List.length ls))).
Proof.
  intros Hme. split.
  - intros R. simpl in R.
    split_run R u0 s0 t0 t0' R0. apply runs_log_inv in R0 as [-> ->].
    split_run R me' sa t1 t1' R1. apply runs_node_of in R1 as (-> & -> & Hme').
    rewrite Hme in Hme'. injection Hme' as <-.
    split_run R fsize sb t2 t2' R2.
    pose proof (runs_buflen _ _ _ _ _ R2) as (-> & ->).
    split_run R u3 s1 t3 t3' R3. pose proof (runs_forward _ _ _ _ _ _ R3) as ->.
    split_run R u4 s1' t4 t4' R4.
    split_run R u5 s2 t5 t5' R5.
    split_run R u6 s3 t6 t6' R6.
    split_run R u7 s7 t7 t7' R7.
    split_run R u8 s8 t8 t8' R8.
    split_run R u9 s9 t9 t9' R9.
    split_run R u10 s10 t10 t10' R10.
    split_run R u11 s4 t11 t11' R11.
    split_run R u12 s5 t12 t12' R12. pose proof (runs_preonce _ _ _ _ _ _ _ R12) as ->.
    split_run R T s13 t13 t13' R13.
    pose proof (runs_buflen _ _ _ _ _ R13) as (-> & ->).
    split_run R u14 s6 t14 t14' R14. pose proof (runs_once _ _ _ _ _ _ _ R14) as ->.
    split_run R ls s15 t15 t15' R15. apply runs_lines_of in R15 as (-> & -> & Hls).
    pose proof R as Hb.
    apply (runs_for_each_map (EvOncebinding self)) in Hb;
      [|solve_traced|intros; eapply runs_oncebinding; eassumption].
    subst t15'.
    destruct u3, u4, u5, u6, u7, u8, u9, u10, u11, u12, u14.
    destruct (runs_size_observers self (_observers me) _ _ _ R6) as [F6 E6].
    pose proof R7 as H7.
    apply (runs_for_each_map EvHome) in H7;
      [|solve_traced|intros; eapply runs_home; eassumption].
    assert (H8 : t8 = map EvHome (if _clockindicator me then [_clock me] else [])).
    { destruct (_clockindicator me).
      - apply runs_home in R8 as ->. reflexivity.
      - destruct (runs_det _ _ _ _ _ _ _ _ R8 (runs_ret tt _)) as (-> & _).
        reflexivity. }
    pose proof R9 as H9.
    apply (runs_for_each_map EvHome) in H9;
      [|solve_traced|intros; eapply runs_home; eassumption].
    pose proof R10 as H10.
    apply (runs_for_each_map EvHome) in H10;
      [|solve_traced|intros; eapply runs_home; eassumption].
    pose proof (runs_home _ _ _ _ _ R11) as H11.
    exists fsize, T, ls, s1, s2, s3, s4, s5, s6, (t4 ++ t5), t6.
    split; [eapply buflen_state; [|exact (proj1 R2)]; reflexivity|]. split; [exact R3|].
    split; [eapply runs_bind; [exact R4 | exact R5]|].
    split; [exact R6|]. split; [exact F6|]. split; [exact E6|].
    split.
    { rewrite !map_app. rewrite <- H7, <- H8, <- H9, <- H10. simpl.
      rewrite <- H11.
      eapply runs_bind; [exact R7|]. eapply runs_bind; [exact R8|].
      eapply runs_bind; [exact R9|]. eapply runs_bind; [exact R10|]. exact R11. }
    split; [exact R12|]. split; [exact (proj1 R13)|]. split; [exact R14|].
    split; [exact Hls|]. split; [exact R|].
    subst t7 t8 t9 t10 t11. rewrite !map_app. simpl.
    rewrite <- !app_assoc. reflexivity.
  - intros (fsize & T & ls & s1 & s2 & s3 & s4 & s5 & s6 & tsub & tobs
            & Hf & [R3 T3] & [R45 T45] & [R6 T6] & _ & _ & [Rh Th]
            & [R12 T12] & HT & [R14 T14] & Hls & [R T'] & ->).
    split.
    + simpl. apply bind_ok. eexists tt, _. split; [reflexivity|].
      apply bind_ok. exists me. eexists. split; [unfold node_of; rewrite Hme; reflexivity|].
      apply bind_ok. exists fsize. eexists. split.
      { apply (buflen_state _ s); [reflexivity | exact Hf]. }
      apply bind_ok. exists tt, s1. split; [exact R3|].
      apply bind_ok in R45 as ([] & s1' & R4 & R5).
      apply bind_ok. exists tt, s1'. split; [exact R4|].
      apply bind_ok. exists tt, s2. split; [exact R5|].
      apply bind_ok. exists tt, s3. split; [exact R6|].
      apply bind_ok in Rh as ([] & s7 & R7 & Rh).
      apply bind_ok in Rh as ([] & s8 & R8 & Rh).
      apply bind_ok in Rh as ([] & s9 & R9 & Rh).
      apply bind_ok in Rh as ([] & s10 & R10 & R11).
      apply bind_ok. exists tt, s7. split; [exact R7|].
      apply bind_ok. exists tt, s8. split; [exact R8|].
      apply bind_ok. exists tt, s9. split; [exact R9|].
      apply bind_ok. exists tt, s10. split; [exact R10|].
      apply bind_ok. exists tt, s4. split; [exact R11|].
      apply bind_ok. exists tt, s5. split; [exact R12|].
      apply bind_ok. exists T, s5. split; [exact HT|].
      apply bind_ok. exists tt, s6. split; [exact R14|].
      apply bind_ok. exists ls, s6. split; [unfold lines_of; rewrite Hls; reflexivity|].
      exact R.
    + rewrite T', T14, T12, Th, T6, T45, T3. simpl.
      rewrite <- !app_assoc. reflexivity.
Qed.

End OrderFacts.

Lemma next_calls_in_order_witness :
  exists t s',
    runs (_next default_callbacks Samples.family 2 0%nat)
         (mkState (Samples.family_bufs [Samples.num 10]) []) t tt s'
    /\ exists L s0 s1 s2 s3 t0 t1 t2 t4,
         runs (arrive 0%nat Samples.family_root)
              (mkState (Samples.family_bufs [Samples.num 10]) [EvStep 0%nat])
              t0 L s0
         /\ runs (_next default_callbacks Samples.family 1 1%nat) s0 t1 tt s1
         /\ runs (_next default_callbacks Samples.family 1 2%nat) s1 t2 tt s2
         /\ runs (dispatch default_callbacks 0%nat L 2) s2
              (EvNotify 0%nat
                 :: phase_calls default_callbacks 0%nat (phase_of L 2)) tt s3
         /\ runs (_next default_callbacks Samples.family 1 3%nat) s3 t4 tt s'
         /\ t = EvStep 0%nat :: t0 ++ t1 ++ t2
                ++ (EvNotify 0%nat
                      :: phase_calls default_callbacks 0%nat (phase_of L 2))
                ++ t4.
Proof.
  assert (E : exists t s',
             runs (_next default_callbacks Samples.family 2 0%nat)
               (mkState (Samples.family_bufs [Samples.num 10]) []) t tt s')
    by (vm_compute; do 2 eexists; split; reflexivity).
  destruct E as (t & s' & E). exists t, s'. split; [exact E|].
  assert (Hme : Samples.family !! 0%nat = Some Samples.family_root)
    by (vm_compute; reflexivity).
  exact (proj1 (next_calls_in_order default_callbacks Samples.family 1 0%nat
                  Samples.family_root 1%nat 2%nat 3%nat _ t s'
                  Hme eq_refl eq_refl eq_refl) E).
Defined.

Lemma once_calls_in_order_witness :
  exists t s',
    runs (_once default_callbacks Samples.family 2 0%nat) Samples.three_bars t tt s'
    /\
   exists fsize T ls s1 s2 s3 s4 s5 s6 tsub tobs,
     buflen (_clock Samples.family_root) Samples.three_bars = Ok (fsize, Samples.three_bars)
     /\ runs (forward 0%nat fsize) (mkState (bufs Samples.three_bars) (trace Samples.three_bars ++ [EvBatch 0%nat]))
             [EvForward 0%nat fsize] tt s1
     /\ runs ((if _clockindicator Samples.family_root then _once default_callbacks Samples.family 1 (_clock Samples.family_root) else ret tt) ;;
              for_each (_indicators Samples.family_root) (_once default_callbacks Samples.family 1)) s1 tsub tt s2
     /\ runs (for_each (_observers Samples.family_root)
                (fun observer => let* size := buflen 0%nat in forward observer size))
             s2 tobs tt s3
     /\ Forall2 (fun o e => exists sz, e = EvForward o sz) (_observers Samples.family_root) tobs
     /\ (0%nat ∉ _observers Samples.family_root -> forall T0, buflen 0%nat s2 = Ok (T0, s2) ->
         tobs = map (fun o => EvForward o T0) (_observers Samples.family_root))
     /\ runs (for_each (datas Samples.family_root) home ;;
              (if _clockindicator Samples.family_root then home (_clock Samples.family_root) else ret tt) ;;
              for_each (_indicators Samples.family_root) home ;;
              for_each (_observers Samples.family_root) home ;;
              home 0%nat) s3
             (map EvHome (datas Samples.family_root
                          ++ (if _clockindicator Samples.family_root then [_clock Samples.family_root] else [])
                          ++ _indicators Samples.family_root ++ _observers Samples.family_root ++ [0%nat])) tt s4
     /\ runs (preonce default_callbacks 0%nat 0 (_minperiod Samples.family_root - 1)) s4
             [EvPreonce 0%nat 0 (_minperiod Samples.family_root - 1)] tt s5
     /\ buflen 0%nat s5 = Ok (T, s5)
     /\ runs (once default_callbacks 0%nat (_minperiod Samples.family_root - 1) T) s5
             [EvOnce 0%nat (_minperiod Samples.family_root - 1) T] tt s6
     /\ bufs s6 !! 0%nat = Some ls
     /\ runs (for_each (seq 0 (List.length ls)) (oncebinding 0%nat)) s6
             (map (EvOncebinding 0%nat) (seq 0 (List.length ls))) tt s'
     /\ t = [EvBatch 0%nat; EvForward 0%nat fsize] ++ tsub ++ tobs
            ++ map EvHome (datas Samples.family_root
                           ++ (if _clockindicator Samples.family_root then [_clock Samples.family_root] else [])
                           ++ _indicators Samples.family_root ++ _observers Samples.family_root ++ [0%nat])
            ++ [EvPreonce 0%nat 0 (_minperiod Samples.family_root - 1);
                EvOnce 0%nat (_minperiod Samples.family_root - 1) T]
            ++ map (EvOncebinding 0%nat) (seq 0 (List.length ls)).
Proof.
  assert (E : exists t s',
             runs (_once default_callbacks Samples.family 2 0%nat) Samples.three_bars t tt s')
    by (vm_compute; do 2 eexists; split; reflexivity).
  destruct E as (t & s' & E). exists t, s'. split; [exact E|].
  assert (Hme : Samples.family !! 0%nat = Some Samples.family_root)
    by (vm_compute; reflexivity).
  exact (proj1 (once_calls_in_order default_callbacks Samples.family 1 0%nat
                  Samples.family_root Samples.three_bars t s' Hme) E).
Defined.

(** ** Walking the graph: one round of [_next] follows the schedule *)

Section Walk.

Context (cb : Callbacks) (g : Graph) (rk : nid -> nat).
Context (I : list mark -> State -> Prop) (k : Z) (whole : list mark).

Local Open Scope eng_scope.

Hypothesis Hrk : ranked g rk.
Hypothesis Hplain : plain_clocks g.

(** What the two moments do to the invariant, wherever they occur in the
    schedule of the whole round. *)
Hypothesis Harr : forall pre post n x s,
  whole = pre ++ Arr n :: post -> g !! n = Some x -> I pre s ->
  exists s', (log (EvStep n) ;; arrive n x) s = Ok (k, s') /\ I (pre ++ [Arr n]) s'.

Hypothesis Hfin : forall pre post n x s,
  whole = pre ++ Fin n :: post -> g !! n = Some x -> I pre s ->
  exists s', dispatch cb n k (_minperiod x) s = Ok (tt, s')
             /\ I (pre ++ [Fin n]) s'.

Lemma walk_each (body : nid -> M unit) (sch : nid -> list mark) l :
  (forall c pre post s, c ∈ l ->
     whole = pre ++ sch c ++ post -> I pre s ->
     exists s', body c s = Ok (tt, s') /\ I (pre ++ sch c) s') ->
  forall pre post s,
    whole = pre ++ flat_map sch l ++ post -> I pre s ->
    exists s', for_each l body s = Ok (tt, s') /\ I (pre ++ flat_map sch l) s'.
Proof.
  induction l as [|c l IH]; intros Hb pre post s Hw Hi; simpl.
  - exists s. split; [reflexivity|]. rewrite app_nil_r. exact Hi.
  - simpl in Hw. rewrite <- app_assoc in Hw.
    destruct (Hb c pre _ s (list_elem_of_here _ _) Hw Hi) as (s1 & E1 & I1).
    destruct (IH (fun c' pre' post' s' Hc => Hb c' pre' post' s' (list_elem_of_further _ _ _ Hc))
                 (pre ++ sch c) post s1) as (s2 & E2 & I2).
    + rewrite <- app_assoc. exact Hw.
    + exact I1.
    + exists s2. split.
      * apply bind_ok. exists tt, s1. auto.
      * rewrite app_assoc. exact I2.
Qed.

Lemma walk fuel : forall n pre post s,
  (rk n < fuel)%nat -> is_Some (g !! n) ->
  whole = pre ++ sched g fuel n ++ post -> I pre s ->
  exists s', _next cb g fuel n s = Ok (tt, s') /\ I (pre ++ sched g fuel n) s'.
Proof.
  induction fuel as [|fuel IH]; intros n pre post s Hlt [x Hx] Hw Hi; [lia|].
  rewrite (_next_eq cb g fuel n x s Hx).
  simpl in Hw. rewrite Hx in Hw. simpl in Hw.
  rewrite (Hplain n x Hx).
  destruct (Harr pre _ n x s Hw Hx Hi) as (s1 & E1 & I1).
  assert (Hkid : forall c, c ∈ _indicators x ++ _observers x ->
            (rk c < fuel)%nat /\ is_Some (g !! c)).
  { intros c Hc. destruct (Hrk n x c Hx Hc) as [He Hr]. split; [lia | exact He]. }
  destruct (walk_each (_next cb g fuel) (sched g fuel) (_indicators x))
    with (pre := pre ++ [Arr n])
         (post := Fin n :: flat_map (sched g fuel) (_observers x) ++ post)
         (s := s1) as (s2 & E2 & I2).
  { intros c pre' post' s' Hc Hw' Hi'.
    destruct (Hkid c) as [Hr He]; [apply elem_of_app; left; exact Hc|].
    exact (IH c pre' post' s' Hr He Hw' Hi'). }
  { rewrite Hw. rewrite <- !app_assoc. reflexivity. }
  { exact I1. }
  destruct (Hfin (pre ++ [Arr n] ++ flat_map (sched g fuel) (_indicators x))
              (flat_map (sched g fuel) (_observers x) ++ post) n x s2)
    as (s3 & E3 & I3).
  { rewrite Hw. rewrite <- !app_assoc. reflexivity. }
  { exact Hx. }
  { rewrite app_assoc. exact I2. }
  destruct (walk_each (_next cb g fuel) (sched g fuel) (_observers x))
    with (pre := (pre ++ [Arr n] ++ flat_map (sched g fuel) (_indicators x))
                   ++ [Fin n])
         (post := post) (s := s3) as (s4 & E4 & I4).
  { intros c pre' post' s' Hc Hw' Hi'.
    destruct (Hkid c) as [Hr He]; [apply elem_of_app; right; exact Hc|].
    exact (IH c pre' post' s' Hr He Hw' Hi'). }
  { rewrite Hw. rewrite <- !app_assoc. reflexivity. }
  { exact I3. }
  exists s4. split.
  - unfold bind at 1. unfold bind at 1.
    change (bind (log (EvStep n)) (fun _ => arrive n x) s = Ok (k, s1)) in E1.
    revert E1. unfold bind at 1. unfold log at 1 2. unfold ret at 1.
    intros E1. unfold bind at 1. rewrite E1.
    unfold bind at 1. rewrite E2. unfold bind at 1. rewrite E3. exact E4.
  - simpl. rewrite Hx.
    replace (pre ++ Arr n :: flat_map (sched g fuel) (_indicators x)
               ++ Fin n :: flat_map (sched g fuel) (_observers x))
      with (((pre ++ [Arr n] ++ flat_map (sched g fuel) (_indicators x))
               ++ [Fin n]) ++ flat_map (sched g fuel) (_observers x)).
    + exact I4.
    + rewrite <- !app_assoc. reflexivity.
Qed.

End Walk.

(** ** Step mode, one round: sizes and lifecycle callbacks *)

Lemma arrived_app l1 l2 : arrived (l1 ++ l2) = arrived l1 ++ arrived l2.
Proof. unfold arrived. apply omap_app. Qed.

Lemma finished_app l1 l2 : finished (l1 ++ l2) = finished l1 ++ finished l2.
Proof. unfold finished. apply omap_app. Qed.

Lemma sound_arr g feeds pre : forall arr fin n post,
  sound g feeds arr fin (pre ++ Arr n :: post) = true ->
  exists x, g !! n = Some x
            /\ _clock x ∈ feeds ++ arrived pre ++ arr
            /\ n ∉ feeds ++ arrived pre ++ arr.
Proof.
  induction pre as [|m pre IH]; intros arr fin n post H; simpl in H.
  - destruct (g !! n) as [x|]; [|discriminate].
    apply andb_prop in H as [H _]. apply andb_prop in H as [H1 H2].
    apply bool_decide_eq_true in H1. apply bool_decide_eq_true in H2.
    exists x. simpl. auto.
  - destruct m as [m|m].
    + destruct (g !! m) as [y|]; [|discriminate].
      apply andb_prop in H as [_ H].
      destruct (IH _ _ _ _ H) as (x & Hx & Hc & Hn). exists x.
      split; [exact Hx|]. simpl. split.
      * clear -Hc. set_solver.
      * clear -Hn. set_solver.
    + apply andb_prop in H as [_ H]. exact (IH _ _ _ _ H).
Qed.

Lemma sound_fin g feeds pre : forall arr fin n post,
  sound g feeds arr fin (pre ++ Fin n :: post) = true ->
  n ∈ arrived pre ++ arr /\ n ∉ finished pre ++ fin.
Proof.
  induction pre as [|m pre IH]; intros arr fin n post H; simpl in H.
  - apply andb_prop in H as [H _]. apply andb_prop in H as [H1 H2].
    apply bool_decide_eq_true in H1. apply bool_decide_eq_true in H2.
    simpl. auto.
  - destruct m as [m|m].
    + destruct (g !! m) as [y|]; [|discriminate].
      apply andb_prop in H as [_ H].
      destruct (IH _ _ _ _ H) as (Ha & Hf). simpl. split; [|exact Hf].
      clear -Ha. set_solver.
    + apply andb_prop in H as [_ H].
      destruct (IH _ _ _ _ H) as (Ha & Hf). simpl. split; [exact Ha|].
      clear -Hf. set_solver.
Qed.

Lemma same_shapes_refl b : same_shapes b b.
Proof. intros m. reflexivity. Qed.

Lemma same_shapes_trans b1 b2 b3 :
  same_shapes b1 b2 -> same_shapes b2 b3 -> same_shapes b1 b3.
Proof. intros H1 H2 m. rewrite H2. apply H1. Qed.

Lemma same_shapes_insert b n ls ls' :
  b !! n = Some ls -> map shape ls' = map shape ls ->
  same_shapes b (<[n := ls']> b).
Proof.
  intros Hn Hs m. destruct (decide (n = m)) as [<-|Hne].
  - rewrite lookup_insert_eq, Hn. simpl. rewrite Hs. reflexivity.
  - rewrite lookup_insert_ne by exact Hne. reflexivity.
Qed.

Lemma same_shapes_arity b b' m :
  same_shapes b b' -> List.length <$> b' !! m = List.length <$> b !! m.
Proof.
  intros Hs. specialize (Hs m).
  destruct (b' !! m) as [ls'|], (b !! m) as [ls|]; try discriminate;
    [|reflexivity].
  simpl in *. injection Hs as Hs. f_equal.
  rewrite <- (length_map shape ls'), Hs, length_map. reflexivity.
Qed.

Lemma Forall_shape (Q : Z * nat * list (nid * nat) -> Prop) ls ls' :
  map shape ls' = map shape ls ->
  Forall (fun l => Q (shape l)) ls -> Forall (fun l => Q (shape l)) ls'.
Proof.
  revert ls'. induction ls as [|l ls IH]; intros [|l' ls'] Hm Hf;
    try discriminate; [constructor|].
  assert (Hl : shape l' = shape l) by (simpl in Hm; congruence).
  assert (Hr : map shape ls' = map shape ls) by (simpl in Hm; congruence).
  inversion Hf as [|? ? Hq Hf']; subst.
  constructor; [rewrite Hl; exact Hq | apply IH; assumption].
Qed.

Lemma at_bar_shapes k b b' m :
  same_shapes b b' -> at_bar k b m -> at_bar k b' m.
Proof.
  intros Hs (l & ls & Hm & Hf). specialize (Hs m). rewrite Hm in Hs.
  destruct (b' !! m) as [ls'|] eqn:Hm'; [|discriminate]. simpl in Hs.
  injection Hs as Hs. destruct ls' as [|l' ls']; [discriminate|].
  exists l', ls'. split; [exact Hm'|].
  apply (Forall_shape
           (fun sh => fst (fst sh) = k - 1 /\ Z.of_nat (snd (fst sh)) = k)
           (l :: ls) (l' :: ls') Hs).
  exact Hf.
Qed.

Lemma at_bar_len k s m : at_bar k (bufs s) m -> len m s = Ok (k, s).
Proof.
  intros (l & ls & Hm & Hf). unfold len, bind, lines_of. rewrite Hm.
  inversion Hf as [|? ? [Hi _] _]; subst. unfold ret, LineOps.length.
  rewrite Hi. replace (k - 1 + 1) with k by lia. reflexivity.
Qed.

Lemma at_bar_forward k b m l ls :
  b !! m = Some (l :: ls) ->
  at_bar (k - 1) b m ->
  at_bar k (<[m := map (LineOps.forward 1) (l :: ls)]> b) m.
Proof.
  intros Hm (l0 & ls0 & Hm' & Hf). rewrite Hm in Hm'. injection Hm' as <- <-.
  exists (LineOps.forward 1 l), (map (LineOps.forward 1) ls).
  split; [rewrite lookup_insert_eq; reflexivity|].
  change (Forall (fun l => idx l = k - 1 /\ Z.of_nat (List.length (array l)) = k)
            (map (LineOps.forward 1) (l :: ls))).
  apply Forall_map. eapply Forall_impl; [exact Hf|].
  intros a [Hi Hl]. simpl. rewrite length_app. simpl. lia.
Qed.

Lemma at_bar_other k b m n ls :
  m <> n -> at_bar k b m -> at_bar k (<[n := ls]> b) m.
Proof.
  intros Hne (l & ls0 & Hm & Hf). exists l, ls0.
  rewrite lookup_insert_ne by auto. auto.
Qed.

Lemma calls_of_app m t1 t2 : calls_of m (t1 ++ t2) = calls_of m t1 ++ calls_of m t2.
Proof. unfold calls_of. apply List.filter_app. Qed.

Lemma calls_of_phase cb m n p :
  calls_of m (phase_calls cb n p) = if bool_decide (n = m) then phase_calls cb n p else [].
Proof.
  unfold calls_of, phase_calls.
  destruct p; [|destruct (cb_nextstart cb n)|]; simpl;
    case_bool_decide; reflexivity.
Qed.

Section Round.

Context (cb : Callbacks) (g : Graph) (feeds : list nid) (whole : list mark).
Context (k : Z) (b0 : Bufs) (tr0 : list event).

Local Open Scope eng_scope.

Hypothesis Htidy : tidy_callbacks cb.
Hypothesis Hsound : sound g feeds [] [] whole = true.
Hypothesis Hk : 1 <= k.

Lemma tidy_user n h s :
  tidy n h -> at_bar k (bufs s) n ->
  exists s', user h s = Ok (tt, s')
             /\ same_shapes (bufs s) (bufs s') /\ trace s' = trace s.
Proof.
  intros Ht (l & ls & Hm & Hf).
  destruct (Ht (bufs s) (l :: ls) Hm) as (ls' & Hh & Hs).
  { eapply Forall_impl; [exact Hf|]. intros a [Hi Hl]. simpl in *. lia. }
  exists (mkState (<[n := ls']> (bufs s)) (trace s)).
  unfold user. rewrite Hh. split; [reflexivity|].
  split; [|reflexivity]. simpl. eapply same_shapes_insert; eassumption.
Qed.

Lemma tidy_logged n e h s :
  tidy n h -> at_bar k (bufs s) n ->
  exists s', (log e ;; user h) s = Ok (tt, s')
             /\ same_shapes (bufs s) (bufs s') /\ trace s' = trace s ++ [e].
Proof.
  intros Ht Ha.
  destruct (tidy_user n h (mkState (bufs s) (trace s ++ [e])) Ht Ha)
    as (s' & E & Hs & Htr).
  exists s'. split; [|auto]. apply bind_ok.
  exists tt, (mkState (bufs s) (trace s ++ [e])). split; [reflexivity|].
  exact E.
Qed.

Lemma tidy_lifecycle n P s :
  at_bar k (bufs s) n ->
  exists s', lifecycle cb n k P s = Ok (tt, s')
             /\ same_shapes (bufs s) (bufs s')
             /\ trace s' = trace s ++ phase_calls cb n (phase_of k P).
Proof.
  intros Ha. destruct (Htidy n) as (_ & Hpre & Hnext & Hstart).
  unfold lifecycle, phase_of. destruct (k >? P).
  - apply (tidy_logged n); assumption.
  - destruct (k =? P).
    + unfold nextstart, phase_calls.
      destruct (cb_nextstart cb n) as [h|] eqn:Eh.
      * apply (tidy_logged n); [apply Hstart; reflexivity | assumption].
      * destruct (tidy_logged n (EvNext n) (cb_next cb n)
                    (mkState (bufs s) (trace s ++ [EvNextstart n])) Hnext Ha)
          as (s' & E & Hs & Htr).
        exists s'. split; [|split; [exact Hs|]].
        -- apply bind_ok.
           exists tt, (mkState (bufs s) (trace s ++ [EvNextstart n])).
           split; [reflexivity | exact E].
        -- rewrite Htr. simpl. rewrite <- app_assoc. reflexivity.
    + apply (tidy_logged n); assumption.
Qed.

Lemma tidy_dispatch n P s :
  at_bar k (bufs s) n ->
  exists s', dispatch cb n k P s = Ok (tt, s')
             /\ same_shapes (bufs s) (bufs s')
             /\ trace s' = trace s ++ EvNotify n :: phase_calls cb n (phase_of k P).
Proof.
  intros Ha. destruct (Htidy n) as (Hnot & _).
  destruct (tidy_logged n (EvNotify n) (cb_notify cb n) s Hnot Ha)
    as (s1 & E1 & S1 & T1).
  destruct (tidy_lifecycle n P s1) as (s2 & E2 & S2 & T2).
  { eapply at_bar_shapes; eassumption. }
  exists s2. split; [|split].
  - apply bind_ok. exists tt, s1. auto.
  - eapply same_shapes_trans; eassumption.
  - rewrite T2, T1, <- app_assoc. reflexivity.
Qed.

Lemma round_arr pre post n x s :
  whole = pre ++ Arr n :: post -> g !! n = Some x ->
  in_round cb g feeds whole k b0 tr0 pre s ->
  exists s', (log (EvStep n) ;; arrive n x) s = Ok (k, s')
             /\ in_round cb g feeds whole k b0 tr0 (pre ++ [Arr n]) s'.
Proof.
  intros Hw Hx (Hready & Hrest & Hary & t & Htr & Hcalls).
  pose proof Hsound as Hs. rewrite Hw in Hs.
  apply sound_arr in Hs as (x' & Hx' & Hc & Hn).
  rewrite Hx in Hx'. injection Hx' as <-. rewrite app_nil_r in Hc, Hn.
  assert (Hin : n ∈ arrived whole).
  { rewrite Hw, arrived_app. simpl. set_solver. }
  assert (Hnp : n ∉ arrived pre) by set_solver.
  pose proof (Hrest n Hin Hnp) as Hold.
  pose proof (Hready _ Hc) as Hclock.
  destruct Hold as (l & ls & Hm & Hf).
  set (s1 := mkState (bufs s) (trace s ++ [EvStep n])).
  exists (mkState (<[n := map (LineOps.forward 1) (l :: ls)]> (bufs s))
                  ((trace s ++ [EvStep n]) ++ [EvForward n 1])).
  split.
  - apply bind_ok. exists tt, s1. split; [reflexivity|].
    unfold arrive. apply bind_ok. exists k, s1.
    split; [apply at_bar_len; exact Hclock|].
    apply bind_ok. exists (k - 1), s1.
    split; [apply at_bar_len; exists l, ls; auto|].
    rewrite bool_decide_eq_true_2 by lia.
    apply bind_ok. exists tt; eexists. split; [|reflexivity].
    unfold forward. apply bind_ok. exists tt; eexists. split; [reflexivity|].
    apply bind_ok. exists (l :: ls); eexists. split.
    + unfold lines_of. simpl. rewrite Hm. reflexivity.
    + reflexivity.
  - split; [|split; [|split]].
    + intros c Hc'. simpl. destruct (decide (c = n)) as [->|Hne].
      * apply at_bar_forward; [exact Hm | exists l, ls; auto].
      * apply at_bar_other; [exact Hne|]. apply Hready.
        rewrite arrived_app in Hc'. simpl in Hc'. set_solver.
    + intros m Hmw Hmp. simpl. rewrite arrived_app in Hmp. simpl in Hmp.
      apply at_bar_other; [set_solver|]. apply Hrest; [exact Hmw | set_solver].
    + intros m. simpl. destruct (decide (n = m)) as [<-|Hne].
      * rewrite lookup_insert_eq, <- Hary, Hm. simpl.
        rewrite length_map. reflexivity.
      * rewrite lookup_insert_ne by exact Hne. apply Hary.
    + exists (t ++ [EvStep n; EvForward n 1]). split.
      * simpl. rewrite Htr, <- !app_assoc. reflexivity.
      * intros m y Hy. rewrite calls_of_app, (Hcalls m y Hy).
        rewrite finished_app. simpl. rewrite !app_nil_r. reflexivity.
Qed.

Lemma round_fin pre post n x s :
  whole = pre ++ Fin n :: post -> g !! n = Some x ->
  in_round cb g feeds whole k b0 tr0 pre s ->
  exists s', dispatch cb n k (_minperiod x) s = Ok (tt, s')
             /\ in_round cb g feeds whole k b0 tr0 (pre ++ [Fin n]) s'.
Proof.
  intros Hw Hx (Hready & Hrest & Hary & t & Htr & Hcalls).
  pose proof Hsound as Hs. rewrite Hw in Hs.
  apply sound_fin in Hs as (Ha & Hf). rewrite app_nil_r in Ha, Hf.
  assert (Hat : at_bar k (bufs s) n) by (apply Hready; set_solver).
  destruct (tidy_dispatch n (_minperiod x) s Hat) as (s' & E & Hsh & Ht).
  exists s'. split; [exact E|]. split; [|split; [|split]].
  - intros c Hc. eapply at_bar_shapes; [exact Hsh|]. apply Hready.
    rewrite arrived_app in Hc. simpl in Hc. rewrite app_nil_r in Hc. exact Hc.
  - intros m Hmw Hmp. eapply at_bar_shapes; [exact Hsh|].
    apply Hrest; [exact Hmw|]. rewrite arrived_app in Hmp. simpl in Hmp.
    rewrite app_nil_r in Hmp. exact Hmp.
  - intros m. rewrite <- Hary. apply same_shapes_arity. exact Hsh.
  - exists (t ++ EvNotify n :: phase_calls cb n (phase_of k (_minperiod x))).
    split; [rewrite Ht, Htr, <- app_assoc; reflexivity|].
    intros m y Hy. rewrite calls_of_app, (Hcalls m y Hy).
    change (EvNotify n :: ?r) with ([EvNotify n] ++ r).
    rewrite calls_of_app, calls_of_phase. simpl.
    rewrite finished_app. simpl.
    destruct (decide (n = m)) as [->|Hne].
    + rewrite (bool_decide_eq_true_2 (m = m)) by reflexivity.
      rewrite (bool_decide_eq_false_2 (m ∈ finished pre)) by exact Hf.
      rewrite bool_decide_eq_true_2 by set_solver.
      rewrite Hx in Hy. injection Hy as <-. reflexivity.
    + rewrite (bool_decide_eq_false_2 (n = m)) by exact Hne.
      rewrite app_nil_r.
      rewrite (bool_decide_ext (m ∈ finished pre ++ [n]) (m ∈ finished pre))
        by set_solver.
      reflexivity.
Qed.

End Round.

(** ** Step mode, the whole run *)

Lemma at_bar_lookup k b b' m :
  b' !! m = b !! m -> at_bar k b m -> at_bar k b' m.
Proof. intros E (l & ls & Hm & Hf). exists l, ls. rewrite E. auto. Qed.

Lemma Forall_zip_with {A B C} (P : A -> Prop) (Q : C -> Prop) (f : A -> B -> C) :
  (forall a b, P a -> Q (f a b)) ->
  forall l1 l2, Forall P l1 -> Forall Q (zip_with f l1 l2).
Proof.
  intros Hf l1. induction l1 as [|a l1 IH]; intros [|b l2] H; simpl;
    try constructor.
  - inversion H; subst. auto.
  - inversion H; subst. auto.
Qed.

Lemma at_bar_push i k b f ls arrs :
  b !! f = Some ls -> List.length arrs = List.length ls ->
  at_bar k b f ->
  at_bar (k + 1)
    (<[f := zip_with (fun l arr => push (nth i arr NaN) l) ls arrs]> b) f.
Proof.
  intros Hf Hlen (l & ls' & Hm & Hall). rewrite Hf in Hm. injection Hm as ->.
  destruct arrs as [|a arrs]; [discriminate|]. simpl.
  eexists _, _. split; [rewrite lookup_insert_eq; reflexivity|].
  change (Forall (fun l0 => idx l0 = k + 1 - 1
                            /\ Z.of_nat (List.length (array l0)) = k + 1)
            (zip_with (fun l0 arr => push (nth i arr NaN) l0) (l :: ls') (a :: arrs))).
  eapply Forall_zip_with; [|exact Hall].
  intros l0 arr [Hi Hl]. simpl. rewrite length_app. simpl. lia.
Qed.

Lemma deliver_each i k fds : forall s,
  NoDup (map fst fds) ->
  (forall f arrs, (f, arrs) ∈ fds ->
     at_bar k (bufs s) f
     /\ exists ls, bufs s !! f = Some ls /\ List.length arrs = List.length ls) ->
  exists s', for_each fds (deliver i) s = Ok (tt, s')
    /\ trace s' = trace s
    /\ (forall f, f ∈ map fst fds -> at_bar (k + 1) (bufs s') f)
    /\ (forall m, m ∉ map fst fds -> bufs s' !! m = bufs s !! m)
    /\ same_arity (bufs s) (bufs s').
Proof.
  induction fds as [|[f arrs] fds IH]; intros s Hnd Hpre.
  - exists s. simpl. repeat split; auto.
    intros f Hf. apply elem_of_nil in Hf. destruct Hf.
  - simpl in Hnd. apply NoDup_cons in Hnd as [Hnf Hnd].
    destruct (Hpre f arrs (list_elem_of_here _ _)) as (Hat & ls & Hls & Hlen).
    set (s1 := mkState
                 (<[f := zip_with (fun l arr => push (nth i arr NaN) l) ls arrs]>
                    (bufs s)) (trace s)).
    destruct (IH s1 Hnd) as (s' & E & Ht & Hfeeds & Hother & Hary).
    { intros f' arrs' Hin.
      assert (Hne : f' <> f).
      { intros ->. apply Hnf. apply list_elem_of_fmap. exists (f, arrs'). auto. }
      destruct (Hpre f' arrs' (list_elem_of_further _ _ _ Hin))
        as (Hat' & ls' & Hls' & Hlen').
      split; [apply at_bar_other; assumption|].
      exists ls'. simpl. rewrite lookup_insert_ne by auto. auto. }
    exists s'. split; [|split; [|split; [|split]]].
    + simpl. apply bind_ok. exists tt, s1. split; [|exact E].
      unfold deliver. apply bind_ok. exists ls, s. split.
      * unfold lines_of. simpl. rewrite Hls. reflexivity.
      * reflexivity.
    + rewrite Ht. reflexivity.
    + intros f' Hf'. simpl in Hf'. apply elem_of_cons in Hf' as [->|Hf'].
      * eapply at_bar_lookup; [apply Hother; exact Hnf|].
        apply at_bar_push; assumption.
      * apply Hfeeds. exact Hf'.
    + intros m Hm. simpl in Hm. rewrite Hother by set_solver.
      simpl. apply lookup_insert_ne. set_solver.
    + intros m. rewrite Hary. simpl. destruct (decide (f = m)) as [<-|Hne].
      * rewrite lookup_insert_eq, Hls. simpl. f_equal.
        rewrite length_zip_with. lia.
      * rewrite lookup_insert_ne by exact Hne. reflexivity.
Qed.

Lemma sound_arrived_fresh g feeds whole n :
  sound g feeds [] [] whole = true -> n ∈ arrived whole -> n ∉ feeds.
Proof.
  intros Hs Hn. unfold arrived in Hn. apply list_elem_of_omap in Hn as (m & Hm & E).
  destruct m as [n'|n']; [|discriminate]. injection E as ->.
  apply list_elem_of_split in Hm as (pre & post & ->).
  apply sound_arr in Hs as (x & _ & _ & Hfresh). set_solver.
Qed.

Lemma lifecycle_history_S cb m P T :
  lifecycle_history cb m P (S T)
  = lifecycle_history cb m P T ++ phase_calls cb m (phase_of (Z.of_nat (S T)) P).
Proof.
  unfold lifecycle_history. rewrite seq_S, flat_map_app. simpl.
  rewrite app_nil_r. reflexivity.
Qed.

Section StepRun.

Context (cb : Callbacks) (g : Graph) (rk : nid -> nat).
Context (fuel : nat) (root : nid) (feeds : FeedData).

Local Open Scope eng_scope.

Let whole := sched g fuel root.
Let feed_ids := map fst feeds.

Hypothesis Hrk : ranked g rk.
Hypothesis Hplain : plain_clocks g.
Hypothesis Htidy : tidy_callbacks cb.
Hypothesis Hsound : sound g feed_ids [] [] whole = true.
Hypothesis Hfuel : (rk root < fuel)%nat.
Hypothesis Hroot : is_Some (g !! root).
Hypothesis Hnodup : NoDup feed_ids.

(** One more bar: the feeds receive it, the root is stepped. *)
Lemma one_more_bar (i : nat) s :
  settled feed_ids whole (Z.of_nat i) (bufs s) ->
  (forall f arrs, (f, arrs) ∈ feeds ->
     exists ls, bufs s !! f = Some ls /\ List.length arrs = List.length ls) ->
  exists s' t,
    (for_each feeds (deliver i) ;; _next cb g fuel root) s = Ok (tt, s')
    /\ settled feed_ids whole (Z.of_nat (S i)) (bufs s')
    /\ same_arity (bufs s) (bufs s')
    /\ trace s' = trace s ++ t
    /\ forall m x, m ∈ finished whole -> g !! m = Some x ->
         calls_of m t = phase_calls cb m (phase_of (Z.of_nat (S i)) (_minperiod x)).
Proof.
  intros Hset Hfit.
  destruct (deliver_each i (Z.of_nat i) feeds s Hnodup)
    as (s1 & E1 & T1 & Hfed & Hkept & Hary1).
  { intros f arrs Hin. split; [|exact (Hfit f arrs Hin)].
    apply Hset. apply elem_of_app. left. apply list_elem_of_fmap.
    exists (f, arrs). auto. }
  assert (Hk : 1 <= Z.of_nat (S i)) by lia.
  assert (Hin0 : in_round cb g feed_ids whole (Z.of_nat (S i)) (bufs s1)
                   (trace s1) [] s1).
  { split; [|split; [|split]].
    - intros c Hc. simpl in Hc. rewrite app_nil_r in Hc.
      replace (Z.of_nat (S i)) with (Z.of_nat i + 1) by lia. apply Hfed, Hc.
    - intros m Hm _. replace (Z.of_nat (S i) - 1) with (Z.of_nat i) by lia.
      eapply at_bar_lookup.
      + apply Hkept. eapply sound_arrived_fresh; eassumption.
      + apply Hset. apply elem_of_app. right. exact Hm.
    - intros m. reflexivity.
    - exists []. split; [rewrite app_nil_r; reflexivity|]. intros m x _.
      rewrite bool_decide_eq_false_2; [reflexivity|].
      intros H. apply elem_of_nil in H. exact H. }
  destruct (walk cb g rk
              (in_round cb g feed_ids whole (Z.of_nat (S i)) (bufs s1) (trace s1))
              (Z.of_nat (S i)) whole Hrk Hplain
              (round_arr cb g feed_ids whole _ _ _ Htidy Hsound Hk)
              (round_fin cb g feed_ids whole _ _ _ Htidy Hsound Hk)
              fuel root [] [] s1 Hfuel Hroot)
    as (s2 & E2 & Hready & Hrest & Hary2 & t & Ht & Hcalls).
  { simpl. rewrite app_nil_r. reflexivity. }
  { exact Hin0. }
  exists s2, t. split; [|split; [|split; [|split]]].
  - apply bind_ok. exists tt, s1. auto.
  - intros c Hc. apply Hready. exact Hc.
  - intros m. rewrite Hary2. apply Hary1.
  - rewrite Ht, T1. reflexivity.
  - intros m x Hm Hx. rewrite (Hcalls m x Hx).
    rewrite bool_decide_eq_true_2; [reflexivity | exact Hm].
Qed.

(** A whole run of [bars] bars, from buffers that hold nothing yet. *)
Lemma step_run_history (bars : nat) s0 :
  settled feed_ids whole 0 (bufs s0) ->
  (forall f arrs, (f, arrs) ∈ feeds ->
     exists ls, bufs s0 !! f = Some ls /\ List.length arrs = List.length ls) ->
  exists s' t,
    step_run cb g fuel root feeds bars s0 = Ok (tt, s')
    /\ settled feed_ids whole (Z.of_nat bars) (bufs s')
    /\ same_arity (bufs s0) (bufs s')
    /\ trace s' = trace s0 ++ t
    /\ forall m x, m ∈ finished whole -> g !! m = Some x ->
         calls_of m t = lifecycle_history cb m (_minperiod x) bars.
Proof.
  intros Hset Hfit. induction bars as [|i IH].
  - exists s0, []. simpl. repeat split; auto.
    + symmetry. apply app_nil_r.
  - destruct IH as (s1 & t1 & E1 & Hset1 & Hary1 & Ht1 & Hc1).
    destruct (one_more_bar i s1 Hset1) as (s2 & t2 & E2 & Hset2 & Hary2 & Ht2 & Hc2).
    { intros f arrs Hin. destruct (Hfit f arrs Hin) as (ls & Hls & Hlen).
      specialize (Hary1 f). rewrite Hls in Hary1.
      destruct (bufs s1 !! f) as [ls1|]; [|discriminate].
      exists ls1. split; [reflexivity|]. simpl in Hary1. congruence. }
    exists s2, (t1 ++ t2). split; [|split; [|split; [|split]]].
    + simpl. apply bind_ok. exists tt, s1. auto.
    + exact Hset2.
    + intros m. rewrite Hary2. apply Hary1.
    + rewrite Ht2, Ht1, app_assoc. reflexivity.
    + intros m x Hm Hx. rewrite calls_of_app, (Hc1 m x Hm Hx), (Hc2 m x Hm Hx).
      rewrite lifecycle_history_S. reflexivity.
Qed.

End StepRun.

Lemma starts_app m t1 t2 : starts m (t1 ++ t2) = (starts m t1 + starts m t2)%nat.
Proof. unfold starts. rewrite List.filter_app, length_app. reflexivity. Qed.

Lemma starts_calls_of m t : starts m (calls_of m t) = starts m t.
Proof.
  unfold starts, calls_of. induction t as [|e t IH]; [reflexivity|].
  simpl. destruct e; simpl; try exact IH;
    case_bool_decide; simpl; try exact IH;
    try (rewrite bool_decide_eq_true_2 by assumption);
    try (rewrite bool_decide_eq_false_2 by assumption);
    simpl; rewrite ?IH; reflexivity.
Qed.

Lemma starts_phase cb m p :
  starts m (phase_calls cb m p) = match p with Start => 1%nat | _ => 0%nat end.
Proof.
  unfold starts, phase_calls. destruct p; [|destruct (cb_nextstart cb m)|];
    simpl; rewrite ?bool_decide_eq_true_2 by reflexivity; reflexivity.
Qed.

Lemma phase_of_spec L P :
  (L < P -> phase_of L P = Warmup)
  /\ (L = P -> phase_of L P = Start)
  /\ (L > P -> phase_of L P = Steady).
Proof.
  unfold phase_of. destruct (L >? P) eqn:E1; [|destruct (L =? P) eqn:E2];
    repeat split; intros; try reflexivity; lia.
Qed.

Lemma starts_history cb m P bars :
  starts m (lifecycle_history cb m P bars)
  = if bool_decide (1 <= P <= Z.of_nat bars) then 1%nat else 0%nat.
Proof.
  induction bars as [|i IH].
  - simpl. rewrite bool_decide_eq_false_2 by lia. reflexivity.
  - rewrite lifecycle_history_S, starts_app, IH, starts_phase.
    destruct (phase_of_spec (Z.of_nat (S i)) P) as (Hw & Hs & Hst).
    destruct (Z.lt_trichotomy (Z.of_nat (S i)) P) as [Hlt|[Heq|Hgt]].
    + rewrite (Hw Hlt). rewrite !bool_decide_eq_false_2 by lia. reflexivity.
    + rewrite (Hs Heq). rewrite bool_decide_eq_false_2 by lia.
      rewrite bool_decide_eq_true_2 by lia. reflexivity.
    + rewrite Hst by lia. destruct (decide (1 <= P)).
      * rewrite !bool_decide_eq_true_2 by lia. reflexivity.
      * rewrite !bool_decide_eq_false_2 by lia. reflexivity.
Qed.

(** Checking the side conditions on a given graph by computation. *)
Lemma ranked_check g rk :
  bool_decide (map_Forall
                 (fun n x => Forall (fun c => is_Some (g !! c) /\ (rk c < rk n)%nat)
                                    (_indicators x ++ _observers x)) g) = true ->
  ranked g rk.
Proof.
  intros H. apply bool_decide_eq_true in H. intros n x c Hx Hc.
  specialize (H n x Hx). simpl in H. rewrite Forall_forall in H. apply H, Hc.
Qed.

Lemma plain_check g :
  bool_decide (map_Forall (fun (n : nid) x => _clockindicator x = false) g) = true ->
  plain_clocks g.
Proof. intros H. apply bool_decide_eq_true in H. exact H. Qed.

Lemma settled_check feeds whole k b :
  forallb (fun c => match b !! c with
                    | Some (l :: ls) =>
                        forallb (fun l => (idx l =? k - 1)
                                          && (Z.of_nat (List.length (array l)) =? k))
                                (l :: ls)
                    | _ => false
                    end) (feeds ++ arrived whole) = true ->
  settled feeds whole k b.
Proof.
  intros H c Hc. rewrite forallb_forall in H.
  specialize (H c (proj1 (list_elem_of_In _ _) Hc)).
  destruct (b !! c) as [[|l ls]|] eqn:E; try discriminate.
  exists l, ls. split; [exact E|].
  apply Forall_forall. intros a Ha. rewrite forallb_forall in H.
  specialize (H a (proj1 (list_elem_of_In _ _) Ha)).
  apply andb_prop in H as [H1 H2]. lia.
Qed.

Lemma tidy_pass n : tidy n pass.
Proof.
  intros b ls Hn _. exists ls. unfold pass.
  rewrite insert_id by exact Hn. auto.
Qed.

Lemma tidy_default : tidy_callbacks default_callbacks.
Proof.
  intros n. simpl. repeat split; try apply tidy_pass. intros h H. discriminate H.
Qed.

(** ** Alignment with the clock *)

(** Lines 154-156: [forward] is called on the node exactly when the two
    lengths differ, and then by one slot. *)
Lemma runs_arrive self me sa ta L sb :
  runs (arrive self me) sa ta L sb ->
  exists own ls,
    len (_clock me) sa = Ok (L, sa) /\ len self sa = Ok (own, sa)
    /\ bufs sa !! self = Some ls
    /\ ta = (if bool_decide (L ≠ own) then [EvForward self 1] else [])
    /\ bufs sb = (if bool_decide (L ≠ own)
                  then <[self := map (LineOps.forward 1) ls]> (bufs sa)
                  else bufs sa).
Proof.
  intros R. unfold arrive in R.
  apply bind_runs in R as (L' & s1 & t1 & t2 & R1 & R & ->); [|solve_traced..].
  pose proof (runs_len _ _ _ _ _ R1) as (-> & ->).
  apply bind_runs in R as (own & s2 & t3 & t4 & R2 & R & ->); [|solve_traced..].
  pose proof (runs_len _ _ _ _ _ R2) as (-> & ->).
  apply bind_runs in R as ([] & s3 & t5 & t6 & R3 & R & ->); [|solve_traced..].
  destruct (runs_det _ _ _ _ _ _ _ _ R (runs_ret _ _)) as (-> & HL & ->).
  subst L'.
  assert (Hls : exists ls, bufs sa !! self = Some ls).
  { destruct R2 as [R2 _]. unfold len, bind, lines_of in R2.
    destruct (bufs sa !! self) as [ls|]; [eauto | discriminate]. }
  destruct Hls as (ls & Hls). exists own, ls.
  split; [exact (proj1 R1)|]. split; [exact (proj1 R2)|]. split; [exact Hls|].
  simpl. rewrite app_nil_r. destruct (bool_decide (L ≠ own)).
  - split; [eapply runs_forward; exact R3|].
    destruct R3 as [R3 _]. unfold forward, bind, log, lines_of, put_lines in R3.
    simpl in R3. rewrite Hls in R3. injection R3 as <-. reflexivity.
  - destruct (runs_det _ _ _ _ _ _ _ _ R3 (runs_ret _ _)) as (-> & _ & ->). auto.
Qed.

(** ** One [_next] call, stage by stage *)

(** [len] looks at the buffers only. *)
Lemma len_forwarded self ls own s :
  bufs s !! self = Some ls -> len self s = Ok (own, s) ->
  forall s', bufs s' = <[self := map (LineOps.forward 1) ls]> (bufs s) ->
    len self s' = Ok (own + 1, s').
Proof.
  intros Hls H s' Hb. unfold len, bind, lines_of in H |- *.
  rewrite Hls in H. rewrite Hb, lookup_insert_eq.
  destruct ls as [|l ls]; [discriminate H|].
  unfold ret in H |- *. simpl. injection H as <-.
  unfold LineOps.length. simpl. first [reflexivity | repeat f_equal; lia].
Qed.

(** Every [_next] call that returns has gone through these stages, each
    started in the state the one before has left: the step of the clock
    where that is explicit; the reading of the clock's length [L] and of
    the node's own length, with [forward] by one bar exactly when they
    differ; the steps of the indicators; [_notify]; the lifecycle callback
    picked by [L] and [_minperiod]; the steps of the observers. *)
Lemma next_parts cb g fuel self me s t s' :
  g !! self = Some me ->
  runs (_next cb g (S fuel) self) s t tt s' ->
  exists L own ls s1 s2 s3 s4 s5 t1 t3 t5,
    runs (if _clockindicator me then _next cb g fuel (_clock me) else ret tt)
         (mkState (bufs s) (trace s ++ [EvStep self])) t1 tt s1
    /\ len (_clock me) s1 = Ok (L, s1)
    /\ len self s1 = Ok (own, s1)
    /\ bufs s1 !! self = Some ls
    /\ runs (arrive self me) s1
            (if bool_decide (L ≠ own) then [EvForward self 1] else []) L s2
    /\ bufs s2 = (if bool_decide (L ≠ own)
                  then <[self := map (LineOps.forward 1) ls]> (bufs s1)
                  else bufs s1)
    /\ runs (for_each (_indicators me) (_next cb g fuel)) s2 t3 tt s3
    /\ runs (_notify cb self) s3 [EvNotify self] tt s4
    /\ runs (lifecycle cb self L (_minperiod me)) s4
            (phase_calls cb self (phase_of L (_minperiod me))) tt s5
    /\ runs (for_each (_observers me) (_next cb g fuel)) s5 t5 tt s'
    /\ t = EvStep self :: t1
           ++ (if bool_decide (L ≠ own) then [EvForward self 1] else [])
           ++ t3
           ++ EvNotify self :: phase_calls cb self (phase_of L (_minperiod me))
           ++ t5.
Proof.
  intros Hme R.
  rewrite (runs_eq _ _ _ _ _ _ (_next_eq cb g fuel self me s Hme)) in R.
  cut_run R u0 s0 t0 t0' R0. apply runs_log_inv in R0 as [-> ->].
  cut_run R u1 s1 t1 t1' R1.
  cut_run R L s2 t2 t2' R2.
  pose proof (runs_arrive _ _ _ _ _ _ R2) as (own & ls & HL & Hown & Hls & -> & B2).
  cut_run R u3 s3 t3 t3' R3.
  cut_run R u4 s5 t4 t4' R4.
  unfold dispatch in R4.
  cut_run R4 u5 s4 t5 t5' R5.
  pose proof (runs_logged_user _ _ _ _ _ _ R5) as ->.
  pose proof (runs_lifecycle _ _ _ _ _ _ _ _ R4) as ->.
  destruct u1, u3, u4, u5.
  exists L, own, ls, s1, s2, s3, s4, s5, t1, t3, t4'.
  repeat (split; [assumption|]).
  simpl. rewrite <- ?app_assoc. reflexivity.
Qed.





Lemma in_round_start cb g feeds whole k s :
  settled feeds [] k (bufs s) ->
  settled [] whole (k - 1) (bufs s) ->
  in_round cb g feeds whole k (bufs s) (trace s) [] s.
Proof.
  intros Hf Hn. split; [|split; [|split]].
  - exact Hf.
  - intros m Hm _. apply Hn. exact Hm.
  - intros m. reflexivity.
  - exists []. split; [rewrite app_nil_r; reflexivity|]. intros m x _.
    rewrite bool_decide_eq_false_2; [reflexivity|].
    intros H. apply elem_of_nil in H. exact H.
Qed.



(** * Further properties of the construction protocol *)

Lemma keep_first_elem l : forall seen x,
  x ∈ keep_first seen l <-> x ∈ l /\ x ∉ seen.
Proof.
  induction l as [|a l IH]; intros seen x; simpl.
  - split; [intros H; apply elem_of_nil in H; destruct H|].
    intros [H _]. apply elem_of_nil in H. destruct H.
  - case_bool_decide as Ha.
    + rewrite IH. split.
      * intros [H1 H2]. split; [right; exact H1 | exact H2].
      * intros [H1 H2]. split; [|exact H2].
        apply elem_of_cons in H1 as [->|H1]; [contradiction | exact H1].
    + rewrite elem_of_cons, IH. split.
      * intros [->|[H1 H2]]; [split; [left | exact Ha]|].
        split; [right; exact H1|]. intros H. apply H2. right. exact H.
      * intros [H1 H2]. apply elem_of_cons in H1 as [->|H1]; [left; reflexivity|].
        destruct (decide (x = a)) as [->|Hne]; [left; reflexivity|].
        right. split; [exact H1|].
        intros H. apply elem_of_cons in H as [->|H]; contradiction.
Qed.

Lemma keep_first_NoDup l : forall seen, NoDup (keep_first seen l).
Proof.
  induction l as [|a l IH]; intros seen; simpl; [constructor|].
  case_bool_decide as Ha; [apply IH|].
  constructor; [|apply IH].
  rewrite keep_first_elem. intros [_ H]. apply H. left.
Qed.

Lemma keep_first_sublist l : forall seen, sublist (keep_first seen l) l.
Proof.
  induction l as [|a l IH]; intros seen; simpl; [constructor|].
  case_bool_decide as Ha.
  - apply sublist_cons. apply IH.
  - apply sublist_skip. apply IH.
Qed.

Lemma keep_first_id l : forall seen,
  NoDup l -> (forall x, x ∈ l -> x ∉ seen) -> keep_first seen l = l.
Proof.
  induction l as [|a l IH]; intros seen Hnd Hs; simpl; [reflexivity|].
  apply NoDup_cons in Hnd as [Ha Hnd].
  rewrite bool_decide_eq_false_2 by (apply Hs; left).
  f_equal. apply IH; [exact Hnd|].
  intros x Hx Hin. apply elem_of_cons in Hin as [->|Hin]; [contradiction|].
  apply (Hs x); [right; exact Hx | exact Hin].
Qed.

(** What [addindicator] changes: the callee, and nothing else. *)
Lemma addindicator_frame g self indicator g' m :
  addindicator g self indicator = Ok g' -> m <> self -> g' !! m = g !! m.
Proof.
  unfold addindicator. intros H Hne.
  destruct (g !! self) as [me|]; [|discriminate].
  destruct (g !! indicator) as [ind|]; [|discriminate].
  destruct (is_observer ind).
  - injection H as <-. apply lookup_insert_ne. auto.
  - rewrite lookup_insert_eq in H.
    destruct (<[self:=_]> g !! indicator); [|discriminate].
    injection H as <-. rewrite !lookup_insert_ne by auto. reflexivity.
Qed.

(** X5: registering an observer appends it to [_observers] and leaves
    [_indicators] and [_minperiod] alone; registering anything else appends
    it to [_indicators] and raises [_minperiod] to the larger of the two
    values, never lowering it; the other attributes of the node and all
    other objects are untouched. *)
Theorem addindicator_effect g self indicator me ind g' :
  g !! self = Some me ->
  g !! indicator = Some ind ->
  addindicator g self indicator = Ok g' ->
  (forall m, m <> self -> g' !! m = g !! m)
  /\ exists me',
       g' !! self = Some me'
       /\ _owner me' = _owner me /\ datas me' = datas me
       /\ _clock me' = _clock me
       /\ _clockindicator me' = _clockindicator me
       /\ is_observer me' = is_observer me
       /\ (if is_observer ind
           then _observers me' = _observers me ++ [indicator]
                /\ _indicators me' = _indicators me
                /\ _minperiod me' = _minperiod me
           else _indicators me' = _indicators me ++ [indicator]
                /\ _observers me' = _observers me
                /\ _minperiod me <= _minperiod me'
                /\ _minperiod me'
                   = Z.max (if bool_decide (indicator = self)
                            then _minperiod me else _minperiod ind)
                           (_minperiod me)).
Proof.
  intros Hme Hind H. split.
  { intros m Hne. eapply addindicator_frame; eassumption. }
  unfold addindicator in H. rewrite Hme, Hind in H.
  destruct (is_observer ind).
  - injection H as <-. eexists. split; [apply lookup_insert_eq|].
    simpl. repeat split; reflexivity.
  - rewrite lookup_insert_eq in H.
    destruct (decide (indicator = self)) as [->|Hne].
    + rewrite lookup_insert_eq in H. injection H as <-.
      rewrite bool_decide_eq_true_2 by reflexivity.
      eexists. split; [apply lookup_insert_eq|]. simpl.
      repeat split; try reflexivity. lia.
    + rewrite lookup_insert_ne, Hind in H by auto. injection H as <-.
      rewrite bool_decide_eq_false_2 by exact Hne.
      eexists. split; [apply lookup_insert_eq|]. simpl.
      repeat split; try reflexivity. lia.
Qed.

Lemma keep_first_ext l : forall seen seen',
  (forall x, x ∈ seen <-> x ∈ seen') -> keep_first seen l = keep_first seen' l.
Proof.
  induction l as [|a l IH]; intros seen seen' H; simpl; [reflexivity|].
  rewrite (bool_decide_ext (a ∈ seen) (a ∈ seen')) by apply H.
  case_bool_decide; [apply IH; exact H|].
  f_equal. apply IH. intros x. rewrite !elem_of_cons, H. reflexivity.
Qed.

Lemma keep_first_app l1 : forall seen l2,
  keep_first seen (l1 ++ l2) = keep_first seen l1 ++ keep_first (l1 ++ seen) l2.
Proof.
  induction l1 as [|a l1 IH]; intros seen l2; simpl; [reflexivity|].
  case_bool_decide as Ha.
  - rewrite IH. f_equal. apply keep_first_ext. intros x.
    clear IH. set_solver.
  - simpl. f_equal. rewrite IH. f_equal. apply keep_first_ext. intros x.
    clear IH. set_solver.
Qed.

(** X1: a successful [dopostinit] leaves in [_indicators] each registered
    indicator exactly once, at the place of its first registration: the
    list has no duplicates, the same members as before, their order is
    that of the registrations (a later duplicate never displaces an
    earlier entry), and a list without duplicates is left as it is.  The
    node's other attributes stay as they were. *)
Theorem dopostinit_keeps_first_registrations g _obj x g' :
  g !! _obj = Some x ->
  _owner x <> Some _obj ->
  dopostinit g _obj = Ok g' ->
  exists x',
    g' !! _obj = Some x'
    /\ NoDup (_indicators x')
    /\ (forall c, c ∈ _indicators x' <-> c ∈ _indicators x)
    /\ sublist (_indicators x') (_indicators x)
    /\ (forall p q, _indicators x = p ++ q ->
          _indicators x' = keep_first [] p ++ keep_first p q)
    /\ (NoDup (_indicators x) -> _indicators x' = _indicators x)
    /\ _observers x' = _observers x /\ _minperiod x' = _minperiod x
    /\ datas x' = datas x /\ _clock x' = _clock x /\ _owner x' = _owner x.
Proof.
  intros Hx Hown H. unfold dopostinit in H. rewrite Hx in H.
  assert (Hreg : exists g1, (match _owner x with
                            | Some o => addindicator g o _obj
                            | None => Ok g
                            end) = Ok g1 /\ g1 !! _obj = Some x).
  { destruct (_owner x) as [o|] eqn:Eo.
    - destruct (addindicator g o _obj) as [g1| |] eqn:Ea; [|discriminate..].
      exists g1. split; [reflexivity|].
      rewrite (addindicator_frame _ _ _ _ _ Ea); [exact Hx|]. congruence.
    - exists g. auto. }
  destruct Hreg as (g1 & Hreg & Hx1). rewrite Hreg, Hx1 in H.
  cbv zeta in H. case_bool_decide; [discriminate|]. injection H as <-.
  eexists. split; [apply lookup_insert_eq|]. simpl.
  split; [apply keep_first_NoDup|].
  split.
  { intros c. rewrite keep_first_elem. split; [tauto|]. intros Hc.
    split; [exact Hc|]. intros Hn. apply elem_of_nil in Hn. exact Hn. }
  split; [apply keep_first_sublist|].
  split.
  { intros p q ->. rewrite keep_first_app, app_nil_r. reflexivity. }
  split.
  { intros Hnd. apply keep_first_id; [exact Hnd|].
    intros c _ Hn. apply elem_of_nil in Hn. exact Hn. }
  repeat split; reflexivity.
Qed.

(** X2: no node leaves [dopostinit] marked for an explicit clock step: on
    success [_clockindicator] is [False] and the clock is not among the
    node's indicators, so [_next] and [_once] never take their
    [_clockindicator] branches on a constructed node. *)
Theorem dopostinit_never_marks_clock g _obj g' :
  dopostinit g _obj = Ok g' ->
  exists x', g' !! _obj = Some x'
             /\ _clockindicator x' = false
             /\ _clock x' ∉ _indicators x'.
Proof.
  unfold dopostinit. intros H.
  destruct (g !! _obj) as [x|]; [|discriminate].
  destruct (match _owner x with Some o => addindicator g o _obj | None => Ok g end)
    as [g1| |]; [|discriminate..].
  destruct (g1 !! _obj) as [x1|]; [|discriminate].
  cbv zeta in H. case_bool_decide as Hc; [discriminate|]. injection H as <-.
  eexists. split; [apply lookup_insert_eq|]. split; [reflexivity | exact Hc].
Qed.

(** X3: [dopostinit] registers the node with its owner before anything
    else: an observer ends up last in the owner's [_observers] (the owner's
    [_minperiod] unchanged), any other node last in the owner's
    [_indicators], the owner's [_minperiod] raised to at least the node's;
    a node without owner registers nowhere. *)
Theorem dopostinit_registers_with_owner g _obj x o y g' :
  g !! _obj = Some x ->
  _owner x = Some o ->
  o <> _obj ->
  g !! o = Some y ->
  dopostinit g _obj = Ok g' ->
  exists y',
    g' !! o = Some y'
    /\ (if is_observer x
        then _observers y' = _observers y ++ [_obj]
             /\ _indicators y' = _indicators y
             /\ _minperiod y' = _minperiod y
        else _indicators y' = _indicators y ++ [_obj]
             /\ _observers y' = _observers y
             /\ _minperiod y' = Z.max (_minperiod x) (_minperiod y))
    /\ forall m, m <> o -> m <> _obj -> g' !! m = g !! m.
Proof.
  intros Hx Ho Hne Hy H. unfold dopostinit in H. rewrite Hx, Ho in H.
  destruct (addindicator g o _obj) as [g1| |] eqn:Ea; [|discriminate..].
  destruct (addindicator_effect g o _obj y x g1 Hy Hx Ea)
    as (Hframe & y' & Hy' & _ & _ & _ & _ & _ & Heff).
  rewrite (Hframe _obj) in H by auto. rewrite Hx in H.
  cbv zeta in H.
  match type of H with
  | context [bool_decide ?P] => destruct (bool_decide P)
  end; [discriminate|].
  injection H as <-.
  exists y'. split; [rewrite lookup_insert_ne by auto; exact Hy'|].
  split.
  - destruct (is_observer x); [exact Heff|].
    rewrite bool_decide_eq_false_2 in Heff by auto. tauto.
  - intros m Hmo Hmn. rewrite lookup_insert_ne by auto. apply Hframe. exact Hmo.
Qed.

Lemma dopostinit_keeps_first_registrations_witness :
  exists g x g' x',
    Samples.registered_twice = Ok g /\ g !! 0%nat = Some x
    /\ _indicators x = [1%nat; 2%nat; 1%nat]
    /\ dopostinit g 0%nat = Ok g' /\ g' !! 0%nat = Some x'
    /\ NoDup (_indicators x')
    /\ (forall c, c ∈ _indicators x' <-> c ∈ _indicators x)
    /\ _indicators x' = keep_first [] [1%nat; 2%nat] ++ keep_first [1%nat; 2%nat] [1%nat].
Proof.
  assert (E : exists g x g',
             Samples.registered_twice = Ok g /\ g !! 0%nat = Some x
             /\ _indicators x = [1%nat; 2%nat; 1%nat] /\ _owner x = None
             /\ dopostinit g 0%nat = Ok g')
    by (vm_compute; do 3 eexists; repeat split; reflexivity).
  destruct E as (g & x & g' & E & Hx & Hi & Ho & Hp).
  assert (Hown : _owner x <> Some 0%nat) by (rewrite Ho; discriminate).
  destruct (dopostinit_keeps_first_registrations g 0%nat x g' Hx Hown Hp)
    as (x' & Hx' & Hnd & Hmem & _ & Hsplit & _).
  exists g, x, g', x'. repeat (split; [assumption|]).
  apply (Hsplit [1%nat; 2%nat] [1%nat]). exact Hi.
Defined.

Lemma dopostinit_registers_with_owner_witness :
  exists g x y g' y',
    Samples.before_postinit = Ok g
    /\ g !! 1%nat = Some x /\ g !! 0%nat = Some y
    /\ dopostinit g 1%nat = Ok g'
    /\ g' !! 0%nat = Some y'
    /\ _indicators y' = _indicators y ++ [1%nat]
    /\ _minperiod y' = Z.max (_minperiod x) (_minperiod y).
Proof.
  assert (E : exists g x y g',
             Samples.before_postinit = Ok g
             /\ g !! 1%nat = Some x /\ g !! 0%nat = Some y
             /\ _owner x = Some 0%nat /\ is_observer x = false
             /\ dopostinit g 1%nat = Ok g')
    by (vm_compute; do 4 eexists; repeat split; reflexivity).
  destruct E as (g & x & y & g' & E & Hx & Hy & Ho & Hk & Hp).
  assert (Hne : 0%nat <> 1%nat) by discriminate.
  destruct (dopostinit_registers_with_owner g 1%nat x 0%nat y g' Hx Ho Hne Hy Hp)
    as (y' & Hy' & Heff & _).
  rewrite Hk in Heff. destruct Heff as (Hi & _ & Hm).
  exists g, x, y, g', y'. repeat (split; [assumption|]). exact Hm.
Defined.

Lemma addindicator_effect_witness :
  exists g' me',
    addindicator Samples.unbuilt 0%nat 1%nat = Ok g'
    /\ g' !! 0%nat = Some me'
    /\ _indicators me' = [1%nat] /\ _minperiod me' = 1
    /\ g' !! 1%nat = Samples.unbuilt !! 1%nat.
Proof.
  assert (E : exists g',
             addindicator Samples.unbuilt 0%nat 1%nat = Ok g'
             /\ Samples.unbuilt !! 0%nat = Some (Samples.blank false)
             /\ Samples.unbuilt !! 1%nat = Some (Samples.blank false))
    by (vm_compute; eexists; repeat split; reflexivity).
  destruct E as (g' & E & H0 & H1).
  destruct (addindicator_effect _ _ _ _ _ _ H0 H1 E)
    as (Hframe & me' & Hme' & _ & _ & _ & _ & _ & Heff).
  simpl in Heff. destruct Heff as (Hi & _ & _ & Hm).
  exists g', me'. split; [exact E|]. split; [exact Hme'|].
  split; [exact Hi|]. split; [exact Hm|]. apply Hframe. discriminate.
Defined.

Lemma fold_max_in r : forall x, fold_left Z.max r x ∈ x :: r.
Proof.
  induction r as [|a r IH]; intros x; simpl; [left|].
  specialize (IH (Z.max x a)). apply elem_of_cons in IH as [E|H].
  - rewrite E. destruct (Z.max_spec x a) as [[_ ->]|[_ ->]];
      [right; left | left].
  - right. right. exact H.
Qed.

Lemma plain_filter (datas0 : list nid) args :
  (forall o, ArgSeries o ∈ args -> o ∈ datas0) ->
  List.filter (fun a => match a with
                        | ArgSeries o => bool_decide (o ∉ datas0)
                        | ArgPlain _ => true
                        end) args
  = List.filter is_plain args.
Proof.
  induction args as [|a args IH]; intros H; simpl; [reflexivity|].
  rewrite IH by (intros o Ho; apply H; right; exact Ho).
  destruct a as [o|z]; simpl; [|reflexivity].
  rewrite bool_decide_eq_false_2; [reflexivity|].
  intros Hn. apply Hn, H. left.
Qed.

Lemma series_args_elem o args : ArgSeries o ∈ args -> o ∈ series_args args.
Proof.
  intros H. unfold series_args. apply list_elem_of_omap.
  exists (ArgSeries o). auto.
Qed.

Lemma series_args_nil o args : series_args args = [] -> ArgSeries o ∉ args.
Proof.
  intros E H. apply series_args_elem in H. rewrite E in H.
  apply elem_of_nil in H. exact H.
Qed.

(** X4: what a successful [dopreinit] leaves behind: the owner found is
    recorded; the series arguments, in order, are the datas -- or the owner
    alone when there is none; the clock is the first of them; both
    registries start empty; [_minperiod] is exactly the largest
    [_minperiod] among the datas, whatever the object's own value was; the
    arguments handed on are the plain ones, in order; no other object is
    touched. *)
Theorem dopreinit_outcome g _obj owner args g' args' :
  dopreinit g _obj owner args = Ok (g', args') ->
  exists x',
    g' !! _obj = Some x'
    /\ _owner x' = owner
    /\ map Some (datas x') = match series_args args with
                             | [] => [owner]
                             | l => map Some l
                             end
    /\ head (datas x') = Some (_clock x')
    /\ _indicators x' = [] /\ _observers x' = []
    /\ (forall d y, d ∈ datas x' -> g !! d = Some y -> _minperiod y <= _minperiod x')
    /\ (exists d y, d ∈ datas x' /\ g !! d = Some y /\ _minperiod y = _minperiod x')
    /\ args' = List.filter is_plain args
    /\ forall m, m <> _obj -> g' !! m = g !! m.
Proof.
  unfold dopreinit. intros H.
  destruct (g !! _obj) as [x|]; [|discriminate]. cbv zeta in H.
  destruct (comprehension _ _) as [dm| |] eqn:Ec; [|discriminate..].
  apply comprehension_ok in Ec.
  assert (Hds : map Some (map fst dm)
                = match series_args args with
                  | [] => [owner]
                  | _ => map Some (series_args args)
                  end).
  { clear H. induction Ec as [|d p ds ps [-> _] _ IH]; [reflexivity|].
    simpl. rewrite IH. reflexivity. }
  assert (Hlook : forall p, p ∈ dm ->
                    exists y, g !! fst p = Some y /\ snd p = _minperiod y).
  { clear H Hds. induction Ec as [|d p ds ps [_ Hp] _ IH]; intros q Hq.
    - apply elem_of_nil in Hq. destruct Hq.
    - apply elem_of_cons in Hq as [->|Hq]; [exact Hp | exact (IH q Hq)]. }
  destruct dm as [|p dm]; [discriminate|]. simpl in H. injection H as <- <-.
  eexists. split; [apply lookup_insert_eq|]. simpl.
  split; [reflexivity|].
  split; [destruct (series_args args); exact Hds|].
  split; [reflexivity|]. split; [reflexivity|]. split; [reflexivity|].
  split.
  { intros d y Hd Hy.
    change (fst p :: map fst dm) with (map fst (p :: dm)) in Hd.
    apply list_elem_of_fmap in Hd as (q & -> & Hq).
    destruct (Hlook q Hq) as (z & Hz & Hs). rewrite Hz in Hy. injection Hy as <-.
    rewrite <- Hs. apply fold_max_bound.
    change (snd p :: map snd dm) with (map snd (p :: dm)).
    apply list_elem_of_fmap. exists q. auto. }
  split.
  { pose proof (fold_max_in (map snd dm) (snd p)) as Hin.
    change (snd p :: map snd dm) with (map snd (p :: dm)) in Hin.
    apply list_elem_of_fmap in Hin as (q & Hq & Hqin).
    destruct (Hlook q Hqin) as (z & Hz & Hs).
    exists (fst q), z. split; [|split; [exact Hz | congruence]].
    change (fst p :: map fst dm) with (map fst (p :: dm)).
    apply list_elem_of_fmap. exists q. auto. }
  split.
  { apply plain_filter. intros o Ho.
    destruct (series_args args) as [|a l] eqn:Es.
    - exfalso. eapply series_args_nil; eassumption.
    - apply series_args_elem in Ho. rewrite Es in Ho.
      apply (inj (fmap Some)) in Hds.
      change (fst p :: map fst dm) with (map fst (p :: dm)).
      rewrite Hds. exact Ho. }
  intros m Hm. apply lookup_insert_ne. auto.
Qed.

Lemma dopreinit_outcome_witness :
  exists g' x',
    dopreinit Samples.unbuilt 1%nat (Some 0%nat)
      [ArgPlain 7; ArgSeries 3%nat; ArgPlain 9; ArgSeries 2%nat] = Ok (g', [ArgPlain 7; ArgPlain 9])
    /\ g' !! 1%nat = Some x'
    /\ _owner x' = Some 0%nat
    /\ map Some (datas x') = map Some [3%nat; 2%nat]
    /\ head (datas x') = Some (_clock x')
    /\ _indicators x' = [] /\ _observers x' = [].
Proof.
  assert (E : exists g',
             dopreinit Samples.unbuilt 1%nat (Some 0%nat)
               [ArgPlain 7; ArgSeries 3%nat; ArgPlain 9; ArgSeries 2%nat]
             = Ok (g', [ArgPlain 7; ArgPlain 9]))
    by (vm_compute; eexists; reflexivity).
  destruct E as (g' & E).
  destruct (dopreinit_outcome _ _ _ _ _ _ E)
    as (x' & Hx' & Ho & Hd & Hc & Hi & Hob & _).
  exists g', x'. repeat (split; [assumption|]). exact Hob.
Defined.

Lemma set_minperiod_same x : set_minperiod (_minperiod x) x = x.
Proof. destruct x. reflexivity. Qed.

(** X6: [setminperiod(p)] adds [p - 1] to the node's [_minperiod] and
    touches nothing else; so [setminperiod(1)] changes nothing, a request
    below 1 lowers the value, and two calls take effect in either order
    with the same result. *)
Theorem setminperiod_adds g self me a :
  g !! self = Some me ->
  setminperiod g self 1 = Ok g
  /\ (forall b,
        and_then (setminperiod g self a) (fun g1 => setminperiod g1 self b)
        = and_then (setminperiod g self b) (fun g1 => setminperiod g1 self a))
  /\ exists g1 me1,
       setminperiod g self a = Ok g1
       /\ g1 !! self = Some me1
       /\ _minperiod me1 = _minperiod me + a - 1
       /\ (a < 1 -> _minperiod me1 < _minperiod me)
       /\ set_minperiod (_minperiod me) me1 = me
       /\ forall m, m <> self -> g1 !! m = g !! m.
Proof.
  intros Hme. unfold setminperiod. rewrite Hme. split; [|split].
  - f_equal. replace (_minperiod me + (1 - 1)) with (_minperiod me) by lia.
    rewrite set_minperiod_same. apply insert_id. exact Hme.
  - intros b. simpl. rewrite !lookup_insert_eq, !insert_insert_eq. simpl.
    do 2 f_equal. destruct me. unfold set_minperiod. simpl. f_equal. lia.
  - eexists _, _. split; [reflexivity|]. split; [apply lookup_insert_eq|].
    simpl. split; [lia|]. split; [lia|]. split; [destruct me; reflexivity|].
    intros m Hm. apply lookup_insert_ne. auto.
Qed.

Lemma setminperiod_adds_witness :
  setminperiod Samples.unbuilt 2%nat 1 = Ok Samples.unbuilt
  /\ and_then (setminperiod Samples.unbuilt 2%nat 30)
              (fun g1 => setminperiod g1 2%nat 5)
     = and_then (setminperiod Samples.unbuilt 2%nat 5)
                (fun g1 => setminperiod g1 2%nat 30).
Proof.
  assert (H : Samples.unbuilt !! 2%nat = Some (Samples.blank false))
    by (vm_compute; reflexivity).
  destruct (setminperiod_adds Samples.unbuilt 2%nat _ 30 H) as (H1 & H2 & _).
  split; [exact H1 | exact (H2 5)].
Defined.

Lemma dopostinit_never_marks_clock_witness :
  exists g g' x',
    Samples.before_postinit = Ok g
    /\ dopostinit g 1%nat = Ok g'
    /\ g' !! 1%nat = Some x'
    /\ _clockindicator x' = false
    /\ _clock x' ∉ _indicators x'.
Proof.
  assert (E : exists g g',
             Samples.before_postinit = Ok g /\ dopostinit g 1%nat = Ok g')
    by (vm_compute; do 2 eexists; split; reflexivity).
  destruct E as (g & g' & E & Hp).
  destruct (dopostinit_never_marks_clock g 1%nat g' Hp) as (x' & Hx & Hc & Hn).
  exists g, g', x'. auto.
Defined.

(** * Further properties of the bindings *)

Section BindingFacts.

Context (g : Graph).

Local Open Scope eng_scope.

Lemma bind_one_mirror self lineit x W i line w s :
  g !! lineit = Some x -> _owner x = Some self ->
  W !! i = Some w ->
  bind_one g lineit (line, w) s = bind2_one self lineit W i line s.
Proof.
  intros Hx Ho Hw. unfold bind_one, bind2_one. rewrite Hw.
  unfold bind, node_of. rewrite Hx, Ho.
  destruct (lines_of lineit s) as [[ls s1]| |]; [|reflexivity..].
  destruct (line_at ls w s1) as [[src s2]| |]; reflexivity.
Qed.

Lemma bind_cong {A B} (m1 m2 : M A) (k1 k2 : A -> M B) s :
  m1 s = m2 s -> (forall a s', k1 a s' = k2 a s') ->
  bind m1 k1 s = bind m2 k2 s.
Proof.
  intros Hm Hk. unfold bind. rewrite Hm.
  destruct (m2 s) as [[a s']| |]; [apply Hk | reflexivity..].
Qed.

Lemma for_each_mirror self lineit x W L : forall k s,
  g !! lineit = Some x -> _owner x = Some self ->
  (k + List.length L <= List.length W)%nat ->
  for_each (zip L (drop k W)) (bind_one g lineit) s
  = for_each (zip (seq k (List.length L)) L)
      (fun '(i, line) => bind2_one self lineit W i line) s.
Proof.
  induction L as [|line L IH]; intros k s Hx Ho Hlen; [reflexivity|].
  simpl in Hlen.
  destruct (lookup_lt_is_Some_2 W k) as [w Hw]; [lia|].
  rewrite (drop_S W w k Hw).
  change (bind (bind_one g lineit (line, w))
               (fun _ => for_each (zip L (drop (S k) W)) (bind_one g lineit)) s
          = bind (bind2_one self lineit W k line)
                 (fun _ => for_each (zip (seq (S k) (List.length L)) L)
                             (fun '(i, line) => bind2_one self lineit W i line)) s).
  apply bind_cong.
  - apply (bind_one_mirror self lineit x W k line w s Hx Ho Hw).
  - intros _ s'. apply IH; [assumption..|lia].
Qed.

(** X7: [bind2lines] is [bindlines] seen from the other side.  For an
    object [lineit] owned by [self], [self.bind2lines(lines, lineit,
    itlines)] declares exactly the bindings that
    [lineit.bindlines(owner=lines, own=itlines)] declares (from line
    [itlines[i]] of [lineit] to line [lines[i]] of [self]), whenever
    [lines] is neither [0] nor empty and [itlines] is omitted or a
    non-empty sequence (or non-zero index) at least as long as [lines]. *)
Theorem bind2lines_mirrors_bindlines self lineit x lines itlines s :
  g !! lineit = Some x ->
  _owner x = Some self ->
  truthy (Some lines) = true ->
  match itlines with
  | None => True
  | Some a => truthy (Some a) = true
              /\ (List.length (as_iterable lines) <= List.length (as_iterable a))%nat
  end ->
  bindlines g lineit (Some lines) itlines s
  = (bind2lines self lines lineit itlines ;; ret lineit) s.
Proof.
  intros Hx Ho Ht Hit. unfold bindlines, bind2lines, enumerate.
  rewrite Ht. simpl from_option.
  set (L := as_iterable lines).
  set (W := match itlines with
            | None => map Z.of_nat (seq 0 (List.length L))
            | Some a => as_iterable a
            end).
  assert (HW : (if truthy itlines then from_option as_iterable [] itlines
                else map Z.of_nat (seq 0 (List.length L))) = W).
  { destruct itlines as [a|]; [|reflexivity]. destruct Hit as [-> _]. reflexivity. }
  rewrite HW.
  assert (Hlen : (0 + List.length L <= List.length W)%nat).
  { subst W. destruct itlines as [a|].
    - destruct Hit as [_ Hl]. exact Hl.
    - rewrite length_map, length_seq. lia. }
  apply bind_cong; [|reflexivity].
  rewrite <- (for_each_mirror self lineit x W L 0 s Hx Ho Hlen).
  rewrite drop_0. reflexivity.
Qed.

Lemma line_at_ok ls i s :
  0 <= i < Z.of_nat (List.length ls) ->
  exists l, ls !! Z.to_nat i = Some l /\ line_at ls i s = Ok (l, s).
Proof.
  intros Hi. unfold line_at.
  destruct (Z.leb_spec 0 i) as [_|]; [|lia].
  destruct (lookup_lt_is_Some_2 ls (Z.to_nat i)) as [l Hl]; [lia|].
  exists l. rewrite Hl. auto.
Qed.

(** The loop of [bindlines] over valid pairs. *)
Lemma bind_pairs self me o no pairs : forall s ls,
  g !! self = Some me -> _owner me = Some o ->
  bufs s !! self = Some ls ->
  (exists ols, bufs s !! o = Some ols /\ List.length ols = no) ->
  (forall lo lw, (lo, lw) ∈ pairs ->
     0 <= lo < Z.of_nat no /\ 0 <= lw < Z.of_nat (List.length ls)) ->
  exists ls',
    for_each pairs (bind_one g self) s
    = Ok (tt, mkState (<[self := ls']> (bufs s)) (trace s))
    /\ List.length ls' = List.length ls
    /\ forall i l, ls !! i = Some l ->
         ls' !! i = Some (mkLine (array l) (idx l)
                                 (bindings l ++ bound_to o i pairs)).
Proof.
  induction pairs as [|[lo lw] pairs IH]; intros s ls Hme Ho Hls Hols Hv.
  - exists ls. simpl. split; [|split; [reflexivity|]].
    + unfold ret. rewrite insert_id by exact Hls. destruct s; reflexivity.
    + intros i l Hl. rewrite Hl, app_nil_r. destruct l; reflexivity.
  - destruct (Hv lo lw (list_elem_of_here _ _)) as [Hlo Hlw].
    destruct Hols as (ols & Hols & Hno).
    destruct (line_at_ok ls lw s Hlw) as (src & Hsrc & Esrc).
    assert (Hlo' : 0 <= lo < Z.of_nat (List.length ols)) by lia.
    destruct (line_at_ok ols lo s Hlo') as (tgt & _ & Etgt).
    set (ls1 := <[Z.to_nat lw := LineOps.addbinding (o, Z.to_nat lo) src]> ls).
    set (s1 := mkState (<[self := ls1]> (bufs s)) (trace s)).
    assert (E1 : bind_one g self (lo, lw) s = Ok (tt, s1)).
    { unfold bind_one, bind, lines_of, node_of. rewrite Hls, Esrc, Hme, Ho.
      rewrite Hols, Etgt, Hls. reflexivity. }
    destruct (IH s1 ls1 Hme Ho) as (ls' & E & Hlen & Hall).
    { simpl. apply lookup_insert_eq. }
    { simpl. destruct (decide (self = o)) as [<-|Hne].
      - exists ls1. rewrite lookup_insert_eq. split; [reflexivity|].
        subst ls1. rewrite length_insert. congruence.
      - exists ols. rewrite lookup_insert_ne by exact Hne. auto. }
    { intros lo' lw' Hin. subst ls1. rewrite length_insert.
      apply Hv. right. exact Hin. }
    exists ls'. split; [|split].
    + simpl. apply bind_ok. exists tt, s1. split; [exact E1|].
      rewrite E. simpl. rewrite insert_insert_eq. reflexivity.
    + rewrite Hlen. subst ls1. apply length_insert.
    + intros i l Hl. subst ls1. simpl.
      destruct (decide (Z.to_nat lw = i)) as [<-|Hne].
      * rewrite Hl in Hsrc. injection Hsrc as <-.
        rewrite (Hall (Z.to_nat lw) (LineOps.addbinding (o, Z.to_nat lo) l)).
        -- rewrite bool_decide_eq_true_2 by reflexivity. simpl.
           rewrite <- app_assoc. reflexivity.
        -- apply list_lookup_insert_eq. apply lookup_lt_Some in Hl. exact Hl.
      * rewrite (Hall i l).
        -- rewrite bool_decide_eq_false_2 by exact Hne. reflexivity.
        -- rewrite list_lookup_insert_ne by exact Hne. exact Hl.
Qed.

(** X8: what [bindlines] does on lines that exist.  The owner lines
    (line 0 when the argument is [None], [0] or empty) are paired by
    position with the own lines (which default to [0, 1, ...] when the
    argument is [None], [0] or empty), stopping silently at the end of the
    shorter sequence; each pair appends one binding, towards that owner
    line, to that own line -- in call order, without looking for
    duplicates; values and cursors of the lines are untouched, no other
    object changes, and the node itself is returned. *)
Theorem bindlines_effect self me o owner own ls ols s :
  g !! self = Some me ->
  _owner me = Some o ->
  bufs s !! self = Some ls ->
  bufs s !! o = Some ols ->
  (forall lo lw, (lo, lw) ∈ zip (owner_lines owner) (own_lines owner own) ->
     0 <= lo < Z.of_nat (List.length ols) /\ 0 <= lw < Z.of_nat (List.length ls)) ->
  exists ls',
    bindlines g self owner own s
    = Ok (self, mkState (<[self := ls']> (bufs s)) (trace s))
    /\ List.length ls' = List.length ls
    /\ forall i l, ls !! i = Some l ->
         ls' !! i
         = Some (mkLine (array l) (idx l)
                   (bindings l
                    ++ bound_to o i (zip (owner_lines owner) (own_lines owner own)))).
Proof.
  intros Hme Ho Hls Hols Hv.
  destruct (bind_pairs self me o (List.length ols)
              (zip (owner_lines owner) (own_lines owner own)) s ls Hme Ho Hls)
    as (ls' & E & Hlen & Hall); [eauto | exact Hv |].
  exists ls'. split; [|auto].
  unfold bindlines. apply bind_ok. exists tt; eexists. split; [exact E | reflexivity].
Qed.

Lemma bind2_one_cases self lineit W i line ls ols s :
  bufs s !! lineit = Some ls ->
  bufs s !! self = Some ols ->
  bind2_one self lineit W i line s = Raise IndexError
  \/ exists w ls',
       W !! i = Some w
       /\ bind2_one self lineit W i line s
          = Ok (tt, mkState (<[lineit := ls']> (bufs s)) (trace s)).
Proof.
  intros Hls Hols. unfold bind2_one, bind, lines_of. rewrite Hls.
  destruct (W !! i) as [w|]; [|left; reflexivity].
  unfold line_at, raise, ret.
  destruct (0 <=? w); [|left; reflexivity].
  destruct (ls !! Z.to_nat w) as [src|]; [|left; reflexivity].
  rewrite Hols.
  destruct (0 <=? line); [|left; reflexivity].
  destruct (ols !! Z.to_nat line) as [tgt|]; [|left; reflexivity].
  rewrite Hls. right. eexists _, _. split; reflexivity.
Qed.

Lemma bind2_short self lineit W L : forall k s,
  is_Some (bufs s !! lineit) -> is_Some (bufs s !! self) ->
  (k <= List.length W < k + List.length L)%nat ->
  for_each (zip (seq k (List.length L)) L)
    (fun '(i, line) => bind2_one self lineit W i line) s
  = Raise IndexError.
Proof.
  induction L as [|line L IH]; intros k s [ls Hls] [ols Hols] Hlen.
  - simpl in Hlen. lia.
  - simpl in Hlen.
    change (bind (bind2_one self lineit W k line)
                 (fun _ => for_each (zip (seq (S k) (List.length L)) L)
                             (fun '(i, line) => bind2_one self lineit W i line)) s
            = Raise IndexError).
    unfold bind.
    destruct (bind2_one_cases self lineit W k line ls ols s Hls Hols)
      as [->|(w & ls' & Hw & ->)]; [reflexivity|].
    apply lookup_lt_Some in Hw.
    apply IH; simpl.
    + rewrite lookup_insert_eq. eauto.
    + destruct (decide (lineit = self)) as [->|Hne].
      * rewrite lookup_insert_eq. eauto.
      * rewrite lookup_insert_ne by exact Hne. eauto.
    + lia.
Qed.

(** X9: unlike [bindlines], which stops at the shorter of its two
    sequences, [bind2lines] raises [IndexError] whenever [itlines] is given
    with fewer entries than [lines] -- whatever the entries are, on any two
    objects that have lines.  (Bindings declared before the failing
    iteration are not undone.) *)
Theorem bind2lines_short_itlines_raises self lineit lines a s :
  is_Some (bufs s !! lineit) ->
  is_Some (bufs s !! self) ->
  (List.length (as_iterable a) < List.length (as_iterable lines))%nat ->
  bind2lines self lines lineit (Some a) s = Raise IndexError.
Proof.
  intros Hl Hs Hlen. unfold bind2lines, enumerate.
  apply bind2_short; [assumption..|lia].
Qed.

End BindingFacts.

Lemma bind2lines_mirrors_bindlines_witness :
  bindlines Samples.owned 1%nat (Some (PyIter [0; 1])) (Some (PyIter [2; 0]))
    (mkState Samples.two_and_three [])
  = (bind2lines 0%nat (PyIter [0; 1]) 1%nat (Some (PyIter [2; 0])) ;; ret 1%nat)
      (mkState Samples.two_and_three []).
Proof.
  eapply (bind2lines_mirrors_bindlines Samples.owned 0%nat 1%nat);
    [vm_compute; reflexivity | reflexivity | reflexivity
    | split; [reflexivity | simpl; lia]].
Defined.

Lemma bindlines_effect_witness :
  exists ls',
    bindlines Samples.owned 1%nat (Some (PyIter [0; 1; 0])) (Some (PyIter [2; 0; 2; 1]))
      (mkState Samples.two_and_three [])
    = Ok (1%nat, mkState (<[1%nat := ls']> Samples.two_and_three) [])
    /\ ls' !! 0%nat = Some (mkLine [] (-1) [(0%nat, 1%nat)])
    /\ ls' !! 1%nat = Some (mkLine [] (-1) [])
    /\ ls' !! 2%nat = Some (mkLine [] (-1) [(0%nat, 0%nat); (0%nat, 0%nat)]).
Proof.
  destruct (bindlines_effect Samples.owned 1%nat
              (mkNode (Some 0%nat) [0%nat] 0%nat 1 [] [] false false) 0%nat
              (Some (PyIter [0; 1; 0])) (Some (PyIter [2; 0; 2; 1]))
              [Samples.fresh_line; Samples.fresh_line; Samples.fresh_line]
              [Samples.fresh_line; Samples.fresh_line]
              (mkState Samples.two_and_three []))
    as (ls' & E & _ & Hall).
  - vm_compute; reflexivity.
  - reflexivity.
  - vm_compute; reflexivity.
  - vm_compute; reflexivity.
  - intros lo lw Hin. simpl in Hin.
    repeat (apply elem_of_cons in Hin; destruct Hin as [[= -> ->]|Hin];
            [simpl; lia|]).
    apply elem_of_nil in Hin. contradiction.
  - exists ls'. split; [exact E|].
    split; [apply (Hall 0%nat Samples.fresh_line); reflexivity|].
    split; [apply (Hall 1%nat Samples.fresh_line); reflexivity|].
    apply (Hall 2%nat Samples.fresh_line); reflexivity.
Defined.

Lemma bind2lines_short_itlines_raises_witness :
  bind2lines 0%nat (PyIter [0; 1]) 1%nat (Some (PyInt 2))
    (mkState Samples.two_and_three [])
  = Raise IndexError
  /\ exists s', bindlines Samples.owned 1%nat (Some (PyIter [0; 1])) (Some (PyInt 2))
                  (mkState Samples.two_and_three []) = Ok (1%nat, s').
Proof.
  split.
  - apply bind2lines_short_itlines_raises;
      [vm_compute; eauto | vm_compute; eauto | simpl; lia].
  - vm_compute. eexists. reflexivity.
Defined.

(** * Further properties of the VChart feed *)

Module VChartColumns.
Import VChart.
Local Open Scope feed_scope.

Ltac red_in H :=
  cbv beta iota zeta in H; cbn [counter flines written] in H; cbv beta iota in H;
  repeat match type of H with
         | context [decide (?a = ?b)] =>
             let E := fresh in destruct (decide (a = b)) as [E|_]; [discriminate E|]
         end.

Ltac field_in H toks float k t x Hk Hx l Hl :=
  destruct (toks !! k) as [t|] eqn:Hk; red_in H; [|discriminate H];
  destruct (float t) as [x| |] eqn:Hx; red_in H; [|discriminate H..];
  match type of H with
  | context [LineOps.set0 ?v ?ln] =>
      destruct (LineOps.set0 v ln) as [l| |] eqn:Hl; red_in H; [|discriminate H..]
  end.

Ltac red_goal :=
  cbv beta iota zeta; cbn [counter flines written]; cbv beta iota;
  repeat match goal with
         | |- context [decide (?a = ?b)] =>
             let E := fresh in destruct (decide (a = b)) as [E|_]; [discriminate E|]
         end.

Lemma set0_ok v l l' :
  LineOps.set0 v l = Ok l' <-> on_slot l /\ l' = with_current v l.
Proof.
  unfold LineOps.set0, on_slot, with_current.
  destruct (Z.leb_spec 0 (idx l)), (Z.ltb_spec (idx l) (Z.of_nat (List.length (array l))));
    simpl; split; try discriminate; try (intros [? _]; lia).
  - intros [= <-]. split; [lia | reflexivity].
  - intros [_ ->]. reflexivity.
Qed.

Lemma datetime_ok y m d hh mm ss dt :
  datetime_datetime y m d hh mm ss = Ok dt <->
  dt = Stamp y m d hh mm ss
  /\ 1 <= y <= 9999 /\ 1 <= m <= 12 /\ 1 <= d <= days_in_month y m
  /\ 0 <= hh <= 23 /\ 0 <= mm <= 59 /\ 0 <= ss <= 59.
Proof.
  unfold datetime_datetime. split.
  - destruct (_ && _) eqn:E; [|discriminate]. intros [= <-].
    rewrite !andb_true_iff, !Z.leb_le in E. split; [reflexivity | lia].
  - intros (-> & H). destruct (_ && _) eqn:E; [reflexivity|].
    rewrite !andb_false_iff, !Z.leb_gt in E. lia.
Qed.

Lemma time_fields hh mm ss :
  0 <= mm <= 59 -> 0 <= ss <= 59 ->
  let t := hh * 10000 + mm * 100 + ss in
  t / 10000 = hh /\ t mod 10000 / 100 = mm /\ (t mod 10000) mod 100 = ss.
Proof.
  intros Hm Hs t.
  assert (E1 : t / 10000 = hh).
  { symmetry. apply (Z.div_unique t 10000 hh (mm * 100 + ss)); subst t; lia. }
  assert (E2 : t mod 10000 = mm * 100 + ss).
  { symmetry. apply (Z.mod_unique t 10000 hh (mm * 100 + ss)); subst t; lia. }
  rewrite E1, E2. split; [reflexivity|]. split.
  - symmetry. apply (Z.div_unique _ 100 mm ss); lia.
  - symmetry. apply (Z.mod_unique _ 100 mm ss); lia.
Qed.

(** What a successful [_loadline] has read and done. *)
Lemma loadline_inv float toks s r s' :
  _loadline float toks s = Ok (r, s') ->
  exists dttxt tmtxt y m d t dt xo xh xl xc xv xi,
    toks !! 2%nat = Some dttxt /\ toks !! 3%nat = Some tmtxt
    /\ int (substring 0 4 dttxt) = Ok y
    /\ int (substring 4 2 dttxt) = Ok m
    /\ int (substring 6 2 dttxt) = Ok d
    /\ int tmtxt = Ok t
    /\ datetime_datetime y m d (t / 10000) (t mod 10000 / 100) ((t mod 10000) mod 100)
       = Ok dt
    /\ column float toks 4 xo /\ column float toks 5 xh /\ column float toks 6 xl
    /\ column float toks 7 xc /\ column float toks 8 xv /\ column float toks 9 xi
    /\ r = true
    /\ (forall nm, on_slot (flines s nm)
                   /\ flines s' nm
                      = with_current (bar_values dt xo xh xl xc xv xi nm) (flines s nm))
    /\ written s'
       = written s ++ map (fun nm => (nm, bar_values dt xo xh xl xc xv xi nm)) feed_lines.
Proof.
  unfold _loadline, float_token.
  unfold fbind, count0, next_i, token, lift, fret, setitem0.
  intros H. red_in H.
  destruct (toks !! 2%nat) as [dttxt|] eqn:H2; red_in H; [|discriminate H].
  destruct (int (substring 0 4 dttxt)) as [y| |] eqn:Hy; red_in H; [|discriminate H..].
  destruct (int (substring 4 2 dttxt)) as [m| |] eqn:Hm; red_in H; [|discriminate H..].
  destruct (int (substring 6 2 dttxt)) as [d| |] eqn:Hd; red_in H; [|discriminate H..].
  destruct (toks !! 3%nat) as [tmtxt|] eqn:H3; red_in H; [|discriminate H].
  destruct (int tmtxt) as [t| |] eqn:Ht; red_in H; [|discriminate H..].
  destruct (datetime_datetime y m d _ _ _) as [dt| |] eqn:Hdt; red_in H;
    [|discriminate H..].
  destruct (LineOps.set0 dt (flines s datetime)) as [l0| |] eqn:S0; red_in H;
    [|discriminate H..].
  field_in H toks float 4%nat t4 xo H4 F4 l1 S1.
  field_in H toks float 5%nat t5 xh H5 F5 l2 S2.
  field_in H toks float 6%nat t6 xl H6 F6 l3 S3.
  field_in H toks float 7%nat t7 xc H7 F7 l4 S4.
  field_in H toks float 8%nat t8 xv H8 F8 l5 S5.
  field_in H toks float 9%nat t9 xi H9 F9 l6 S6.
  injection H as <- <-.
  apply set0_ok in S0 as [P0 ->], S1 as [P1 ->], S2 as [P2 ->], S3 as [P3 ->],
    S4 as [P4 ->], S5 as [P5 ->], S6 as [P6 ->].
  exists dttxt, tmtxt, y, m, d, t, dt, xo, xh, xl, xc, xv, xi.
  unfold column. repeat (split; [solve [eauto]|]). split.
  - intros nm. cbn [flines].
    destruct nm; (split; [assumption|]);
      repeat case_decide; try congruence; reflexivity.
  - cbn [written]. rewrite <- !app_assoc. reflexivity.
Qed.

Lemma loadline_complete float toks s dttxt tmtxt y m d t dt xo xh xl xc xv xi :
  toks !! 2%nat = Some dttxt -> toks !! 3%nat = Some tmtxt ->
  int (substring 0 4 dttxt) = Ok y ->
  int (substring 4 2 dttxt) = Ok m ->
  int (substring 6 2 dttxt) = Ok d ->
  int tmtxt = Ok t ->
  datetime_datetime y m d (t / 10000) (t mod 10000 / 100) ((t mod 10000) mod 100)
  = Ok dt ->
  column float toks 4 xo -> column float toks 5 xh -> column float toks 6 xl ->
  column float toks 7 xc -> column float toks 8 xv -> column float toks 9 xi ->
  (forall nm, on_slot (flines s nm)) ->
  exists s', _loadline float toks s = Ok (true, s').
Proof.
  intros H2 H3 Hy Hm Hd Ht Hdt (t4 & H4 & F4) (t5 & H5 & F5) (t6 & H6 & F6)
    (t7 & H7 & F7) (t8 & H8 & F8) (t9 & H9 & F9) Hs.
  assert (S : forall nm v,
             LineOps.set0 v (flines s nm) = Ok (with_current v (flines s nm))).
  { intros nm v. apply set0_ok. auto. }
  unfold _loadline, float_token.
  unfold fbind, count0, next_i, token, lift, fret, setitem0.
  red_goal. rewrite H2; red_goal. rewrite Hy; red_goal. rewrite Hm; red_goal.
  rewrite Hd; red_goal. rewrite H3; red_goal. rewrite Ht; red_goal.
  rewrite Hdt; red_goal. rewrite S; red_goal.
  rewrite H4; red_goal; rewrite F4; red_goal; rewrite S; red_goal.
  rewrite H5; red_goal; rewrite F5; red_goal; rewrite S; red_goal.
  rewrite H6; red_goal; rewrite F6; red_goal; rewrite S; red_goal.
  rewrite H7; red_goal; rewrite F7; red_goal; rewrite S; red_goal.
  rewrite H8; red_goal; rewrite F8; red_goal; rewrite S; red_goal.
  rewrite H9; red_goal; rewrite F9; red_goal; rewrite S; red_goal.
  eexists. reflexivity.
Qed.

(** X10: which column feeds which line.  A record that [_loadline]
    accepts has its date in the first eight characters of column 2
    (yyyymmdd), its time in column 3 as the number hhmmss, and numbers in
    columns 4 to 9; the values stored are that timestamp -- a valid
    calendar date and time of day -- in [datetime], and columns 4, 5, 6, 7,
    8, 9 in [open], [high], [low], [close], [volume], [openinterest].
    Columns 0 and 1 are not looked at. *)
Theorem loadline_decodes_columns float toks s r s' :
  _loadline float toks s = Ok (r, s') ->
  exists dttxt tmtxt y m d hh mm ss xo xh xl xc xv xi,
    toks !! 2%nat = Some dttxt /\ toks !! 3%nat = Some tmtxt
    /\ int (substring 0 4 dttxt) = Ok y
    /\ int (substring 4 2 dttxt) = Ok m
    /\ int (substring 6 2 dttxt) = Ok d
    /\ int tmtxt = Ok (hh * 10000 + mm * 100 + ss)
    /\ 1 <= y <= 9999 /\ 1 <= m <= 12 /\ 1 <= d <= days_in_month y m
    /\ 0 <= hh <= 23 /\ 0 <= mm <= 59 /\ 0 <= ss <= 59
    /\ column float toks 4 xo /\ column float toks 5 xh /\ column float toks 6 xl
    /\ column float toks 7 xc /\ column float toks 8 xv /\ column float toks 9 xi
    /\ written s'
       = written s
         ++ map (fun nm => (nm, bar_values (Stamp y m d hh mm ss) xo xh xl xc xv xi nm))
                feed_lines.
Proof.
  intros H.
  destruct (loadline_inv _ _ _ _ _ H)
    as (dttxt & tmtxt & y & m & d & t & dt & xo & xh & xl & xc & xv & xi
        & H2 & H3 & Hy & Hm & Hd & Ht & Hdt & C4 & C5 & C6 & C7 & C8 & C9
        & _ & _ & Hw).
  apply datetime_ok in Hdt as (-> & Ry & Rm & Rd & Rh & Rmm & Rs).
  exists dttxt, tmtxt, y, m, d, (t / 10000), (t mod 10000 / 100),
    ((t mod 10000) mod 100), xo, xh, xl, xc, xv, xi.
  assert (Et : t = t / 10000 * 10000 + t mod 10000 / 100 * 100
                   + (t mod 10000) mod 100).
  { pose proof (Z.div_mod t 10000 ltac:(lia)).
    pose proof (Z.div_mod (t mod 10000) 100 ltac:(lia)). lia. }
  rewrite <- Et. repeat (split; [assumption|]). exact Hw.
Qed.

Lemma loadline_decodes_columns_witness :
  exists s',
    _loadline Samples.float_of_int Samples.record_tokens Samples.open_feed
    = Ok (true, s')
    /\ exists dttxt tmtxt y m d hh mm ss xo xh xl xc xv xi,
         Samples.record_tokens !! 2%nat = Some dttxt
         /\ Samples.record_tokens !! 3%nat = Some tmtxt
         /\ int (substring 0 4 dttxt) = Ok y
         /\ int (substring 4 2 dttxt) = Ok m
         /\ int (substring 6 2 dttxt) = Ok d
         /\ int tmtxt = Ok (hh * 10000 + mm * 100 + ss)
         /\ 1 <= y <= 9999 /\ 1 <= m <= 12 /\ 1 <= d <= days_in_month y m
         /\ 0 <= hh <= 23 /\ 0 <= mm <= 59 /\ 0 <= ss <= 59
         /\ column Samples.float_of_int Samples.record_tokens 4 xo
         /\ column Samples.float_of_int Samples.record_tokens 5 xh
         /\ column Samples.float_of_int Samples.record_tokens 6 xl
         /\ column Samples.float_of_int Samples.record_tokens 7 xc
         /\ column Samples.float_of_int Samples.record_tokens 8 xv
         /\ column Samples.float_of_int Samples.record_tokens 9 xi
         /\ written s'
            = written Samples.open_feed
              ++ map (fun nm => (nm, bar_values (Stamp y m d hh mm ss)
                                       xo xh xl xc xv xi nm))
                     feed_lines.
Proof.
  assert (E : exists s',
             _loadline Samples.float_of_int Samples.record_tokens
               Samples.open_feed = Ok (true, s'))
    by (vm_compute; eexists; reflexivity).
  destruct E as (s' & E). exists s'. split; [exact E|].
  exact (loadline_decodes_columns _ _ _ _ _ E).
Defined.

(** X11: a well-formed record is always accepted.  If columns 2 to 9
    exist, the date is a calendar date, the time is a time of day written
    hhmmss, columns 4 to 9 read as numbers and every line of the feed has
    its cursor on a slot, then [_loadline] returns [True]. *)
Theorem loadline_accepts_wellformed float toks s dttxt tmtxt y m d hh mm ss
    xo xh xl xc xv xi :
  toks !! 2%nat = Some dttxt -> toks !! 3%nat = Some tmtxt ->
  int (substring 0 4 dttxt) = Ok y ->
  int (substring 4 2 dttxt) = Ok m ->
  int (substring 6 2 dttxt) = Ok d ->
  int tmtxt = Ok (hh * 10000 + mm * 100 + ss) ->
  1 <= y <= 9999 -> 1 <= m <= 12 -> 1 <= d <= days_in_month y m ->
  0 <= hh <= 23 -> 0 <= mm <= 59 -> 0 <= ss <= 59 ->
  column float toks 4 xo -> column float toks 5 xh -> column float toks 6 xl ->
  column float toks 7 xc -> column float toks 8 xv -> column float toks 9 xi ->
  (forall nm, on_slot (flines s nm)) ->
  exists s', _loadline float toks s = Ok (true, s').
Proof.
  intros H2 H3 Hy Hm Hd Ht Ry Rm Rd Rh Rmm Rs C4 C5 C6 C7 C8 C9 Hs.
  destruct (time_fields hh mm ss Rmm Rs) as (E1 & E2 & E3).
  eapply (loadline_complete float toks s dttxt tmtxt y m d _
            (Stamp y m d hh mm ss)); eauto.
  rewrite E1, E2, E3. apply datetime_ok. auto 10.
Qed.

Lemma loadline_accepts_wellformed_witness :
  exists s',
    _loadline Samples.float_of_int Samples.record_tokens Samples.open_feed
    = Ok (true, s').
Proof.
  apply (loadline_accepts_wellformed Samples.float_of_int Samples.record_tokens
           Samples.open_feed "20150102" "093000" 2015 1 2 9 30 0
           (inject_Z 10) (inject_Z 12) (inject_Z 9) (inject_Z 11)
           (inject_Z 1000) (inject_Z 0));
    try (vm_compute; reflexivity);
    try (vm_compute; split; discriminate);
    try (eexists; split; vm_compute; reflexivity).
  intros nm. unfold on_slot. simpl. lia.
Defined.

(** X12: [_loadline] only assigns to the current slot.  When it returns,
    every line of the feed had its cursor on a slot, and afterwards has
    the same cursor, the same bindings, the same number of slots and the
    same value in every slot other than the current one. *)
Theorem loadline_touches_current_slots_only float toks s r s' :
  _loadline float toks s = Ok (r, s') ->
  forall nm,
    on_slot (flines s nm)
    /\ idx (flines s' nm) = idx (flines s nm)
    /\ bindings (flines s' nm) = bindings (flines s nm)
    /\ List.length (array (flines s' nm)) = List.length (array (flines s nm))
    /\ forall j, j <> Z.to_nat (idx (flines s nm)) ->
         array (flines s' nm) !! j = array (flines s nm) !! j.
Proof.
  intros H nm.
  destruct (loadline_inv _ _ _ _ _ H)
    as (dttxt & tmtxt & y & m & d & t & dt & xo & xh & xl & xc & xv & xi
        & _ & _ & _ & _ & _ & _ & _ & _ & _ & _ & _ & _ & _ & _ & Hl & _).
  destruct (Hl nm) as [Hs ->]. unfold with_current. simpl.
  split; [exact Hs|]. split; [reflexivity|]. split; [reflexivity|].
  split; [apply length_insert|].
  intros j Hj. apply list_lookup_insert_ne. congruence.
Qed.

Lemma loadline_touches_current_slots_only_witness :
  exists s',
    _loadline Samples.float_of_int Samples.record_tokens Samples.open_feed
    = Ok (true, s')
    /\ forall nm, idx (flines s' nm) = 0
                  /\ List.length (array (flines s' nm)) = 1%nat.
Proof.
  assert (E : exists s',
             _loadline Samples.float_of_int Samples.record_tokens
               Samples.open_feed = Ok (true, s'))
    by (vm_compute; eexists; reflexivity).
  destruct E as (s' & E). exists s'. split; [exact E|].
  intros nm.
  destruct (loadline_touches_current_slots_only _ _ _ _ _ E nm)
    as (_ & Hi & _ & Hn & _).
  rewrite Hi, Hn. split; reflexivity.
Defined.

(** X13: only columns 2 to 9 matter.  Two records that agree on these
    columns are treated alike -- same stored values or same exception --
    whatever the ticker name in column 0, the daily/intraday mark in
    column 1 and any column after the tenth hold. *)
Theorem loadline_reads_columns_2_to_9 float toks toks' s :
  (forall k, (2 <= k <= 9)%nat -> toks !! k = toks' !! k) ->
  _loadline float toks s = _loadline float toks' s.
Proof.
  intros Hk.
  unfold _loadline, float_token.
  unfold fbind, count0, next_i, token, lift, fret, setitem0.
  red_goal.
  rewrite <- (Hk 2%nat) by lia.
  destruct (toks !! 2%nat) as [dttxt|]; red_goal; [|reflexivity].
  destruct (int (substring 0 4 dttxt)); red_goal; [|reflexivity..].
  destruct (int (substring 4 2 dttxt)); red_goal; [|reflexivity..].
  destruct (int (substring 6 2 dttxt)); red_goal; [|reflexivity..].
  rewrite <- (Hk 3%nat) by lia.
  destruct (toks !! 3%nat) as [tmtxt|]; red_goal; [|reflexivity].
  destruct (int tmtxt); red_goal; [|reflexivity..].
  destruct (datetime_datetime _ _ _ _ _ _); red_goal; [|reflexivity..].
  destruct (LineOps.set0 _ _); red_goal; [|reflexivity..].
  rewrite <- (Hk 4%nat) by lia.
  destruct (toks !! 4%nat); red_goal; [|reflexivity].
  destruct (float _); red_goal; [|reflexivity..].
  destruct (LineOps.set0 _ _); red_goal; [|reflexivity..].
  rewrite <- (Hk 5%nat) by lia.
  destruct (toks !! 5%nat); red_goal; [|reflexivity].
  destruct (float _); red_goal; [|reflexivity..].
  destruct (LineOps.set0 _ _); red_goal; [|reflexivity..].
  rewrite <- (Hk 6%nat) by lia.
  destruct (toks !! 6%nat); red_goal; [|reflexivity].
  destruct (float _); red_goal; [|reflexivity..].
  destruct (LineOps.set0 _ _); red_goal; [|reflexivity..].
  rewrite <- (Hk 7%nat) by lia.
  destruct (toks !! 7%nat); red_goal; [|reflexivity].
  destruct (float _); red_goal; [|reflexivity..].
  destruct (LineOps.set0 _ _); red_goal; [|reflexivity..].
  rewrite <- (Hk 8%nat) by lia.
  destruct (toks !! 8%nat); red_goal; [|reflexivity].
  destruct (float _); red_goal; [|reflexivity..].
  destruct (LineOps.set0 _ _); red_goal; [|reflexivity..].
  rewrite <- (Hk 9%nat) by lia.
  destruct (toks !! 9%nat); red_goal; [|reflexivity].
  destruct (float _); red_goal; [|reflexivity..].
  destruct (LineOps.set0 _ _); red_goal; reflexivity.
Qed.

Lemma loadline_reads_columns_2_to_9_witness :
  _loadline Samples.float_of_int Samples.record_tokens Samples.open_feed
  = _loadline Samples.float_of_int
      ("OTHER" :: "I" :: drop 2 Samples.record_tokens ++ ["more"])%string
      Samples.open_feed.
Proof.
  apply loadline_reads_columns_2_to_9.
  intros k Hk.
  do 2 (destruct k as [|k]; [lia|]).
  do 8 (destruct k as [|k]; [reflexivity|]). lia.
Defined.

(** C9: a successful [_loadline] returns [True] and stores exactly one
    value in the current slot of each of the seven lines -- datetime, open,
    high, low, close, volume, openinterest, in this order, so that no line
    is written twice and none is left out.  The value stored in [datetime]
    is the timestamp read from columns 2 and 3 of the record, the values
    stored in the other six lines are the numbers read from columns 4 to
    9; each line keeps its cursor and everything but the current slot, and
    the current slot holds the value afterwards. *)
Theorem loadline_writes_each_line_once float toks s r s' :
  _loadline float toks s = Ok (r, s') ->
  r = true
  /\ exists dttxt tmtxt y m d t dt xo xh xl xc xv xi,
       toks !! 2%nat = Some dttxt /\ toks !! 3%nat = Some tmtxt
       /\ int (substring 0 4 dttxt) = Ok y
       /\ int (substring 4 2 dttxt) = Ok m
       /\ int (substring 6 2 dttxt) = Ok d
       /\ int tmtxt = Ok t
       /\ datetime_datetime y m d (t / 10000) (t mod 10000 / 100)
            ((t mod 10000) mod 100) = Ok dt
       /\ column float toks 4 xo /\ column float toks 5 xh
       /\ column float toks 6 xl /\ column float toks 7 xc
       /\ column float toks 8 xv /\ column float toks 9 xi
       /\ written s'
          = written s
            ++ map (fun nm => (nm, bar_values dt xo xh xl xc xv xi nm)) feed_lines
       /\ NoDup feed_lines
       /\ forall nm,
            nm ∈ feed_lines
            /\ on_slot (flines s nm)
            /\ flines s' nm
               = with_current (bar_values dt xo xh xl xc xv xi nm) (flines s nm)
            /\ array (flines s' nm) !! Z.to_nat (idx (flines s nm))
               = Some (bar_values dt xo xh xl xc xv xi nm).
Proof.
  intros H.
  destruct (loadline_inv _ _ _ _ _ H)
    as (dttxt & tmtxt & y & m & d & t & dt & xo & xh & xl & xc & xv & xi
        & H2 & H3 & Hy & Hm & Hd & Ht & Hdt & C4 & C5 & C6 & C7 & C8 & C9
        & Hr & Hl & Hw).
  split; [exact Hr|].
  exists dttxt, tmtxt, y, m, d, t, dt, xo, xh, xl, xc, xv, xi.
  repeat (split; [assumption|]). split.
  - unfold feed_lines. repeat (apply NoDup_cons; split; [set_solver|]).
    apply NoDup_nil. exact I.
  - intros nm. destruct (Hl nm) as [Hs Hf].
    split; [unfold feed_lines; destruct nm; set_solver|].
    split; [exact Hs|]. split; [exact Hf|].
    rewrite Hf. unfold with_current. simpl.
    apply list_lookup_insert_eq. unfold on_slot in Hs. lia.
Qed.

Lemma loadline_writes_each_line_once_witness :
  exists s',
    _loadline Samples.float_of_int Samples.record_tokens Samples.open_feed
    = Ok (true, s')
    /\ written s'
       = map (fun nm => (nm, bar_values (Stamp 2015 1 2 9 30 0)
                               (inject_Z 10) (inject_Z 12) (inject_Z 9)
                               (inject_Z 11) (inject_Z 1000) (inject_Z 0) nm))
             feed_lines
    /\ forall nm,
         array (flines s' nm) !! 0%nat
         = Some (bar_values (Stamp 2015 1 2 9 30 0)
                   (inject_Z 10) (inject_Z 12) (inject_Z 9)
                   (inject_Z 11) (inject_Z 1000) (inject_Z 0) nm).
Proof.
  assert (E : exists s',
             _loadline Samples.float_of_int Samples.record_tokens
               Samples.open_feed = Ok (true, s'))
    by (vm_compute; eexists; reflexivity).
  destruct E as (s' & E). exists s'. split; [exact E|].
  destruct (loadline_writes_each_line_once _ _ _ _ _ E)
    as (_ & dttxt & tmtxt & y & m & d & t & dt & xo & xh & xl & xc & xv & xi
        & H2 & H3 & Hy & Hm & Hd & Ht & Hdt & (t4 & H4 & F4) & (t5 & H5 & F5)
        & (t6 & H6 & F6) & (t7 & H7 & F7) & (t8 & H8 & F8) & (t9 & H9 & F9)
        & Hw & _ & Hl).
  injection H2 as <-. injection H3 as <-.
  injection H4 as <-. injection H5 as <-. injection H6 as <-.
  injection H7 as <-. injection H8 as <-. injection H9 as <-.
  vm_compute in Hy, Hm, Hd, Ht, F4, F5, F6, F7, F8, F9.
  injection Hy as <-. injection Hm as <-. injection Hd as <-. injection Ht as <-.
  injection F4 as <-. injection F5 as <-. injection F6 as <-.
  injection F7 as <-. injection F8 as <-. injection F9 as <-.
  vm_compute in Hdt. injection Hdt as <-.
  split; [exact Hw|]. intros nm. exact (proj2 (proj2 (proj2 (Hl nm)))).
Defined.

End VChartColumns.

(** * Whole runs: what batch mode and step mode never do *)

Section RunFacts.

Context (cb : Callbacks) (g : Graph).

Local Open Scope eng_scope.

(** A property of call sequences that holds of each turn of a loop holds
    of the loop. *)
Lemma runs_for_each_closed {A} (P : list event -> Prop) (body : A -> M unit) l :
  P [] -> (forall t1 t2, P t1 -> P t2 -> P (t1 ++ t2)) ->
  (forall x, traced (body x)) ->
  (forall x s t a s', x ∈ l -> runs (body x) s t a s' -> P t) ->
  forall s t a s', runs (for_each l body) s t a s' -> P t.
Proof.
  intros P0 Papp Hb. induction l as [|x l IH]; intros Hq s t a s' R; simpl in R.
  - destruct a. destruct (runs_det _ _ _ _ _ _ _ _ R (runs_ret tt _)) as (-> & _).
    exact P0.
  - apply bind_runs in R as ([] & s1 & t1 & t2 & R1 & R2 & ->);
      [|apply Hb|intros _; apply traced_for_each; exact Hb].
    apply Papp.
    + eapply Hq; [left|exact R1].
    + eapply IH; [|exact R2]. intros y sy ty ay sy' Hy. apply Hq. right. exact Hy.
Qed.

Lemma Forall_map_event {A} (P : event -> Prop) (f : A -> event) l :
  (forall x, P (f x)) -> Forall P (map f l).
Proof. intros H. induction l; simpl; constructor; auto. Qed.

Lemma batch_event_below root c t :
  batch_child g c ->
  Forall (batch_event g c) t -> Forall (batch_event g root) t.
Proof.
  intros Hc H. eapply Forall_impl; [exact H|]. intros e. unfold batch_event.
  destruct e; try tauto; intros [->|?]; auto.
Qed.

(** X14: what a batch run never does.  Whatever the graph and the
    callbacks, a [_once] call that returns has called [_once], [preonce],
    [once] and [oncebinding] only on the object it was called on and on
    objects registered as an indicator (or stepped as a clock) of some
    object -- an object that is only an observer is sized and rewound but
    never computed -- and it has called no [_next], [_notify], [prenext],
    [nextstart] or [next] at all. *)
Theorem once_never_runs_observers fuel root s t s' :
  runs (_once cb g fuel root) s t tt s' ->
  forall e, e ∈ t -> batch_event g root e.
Proof.
  intros R. apply Forall_forall. revert root s t s' R.
  induction fuel as [|fuel IH]; intros root s t s' R.
  { destruct R as [R _]. discriminate R. }
  simpl in R.
  cut_run R u0 s0 t0 t0' R0. apply runs_log_inv in R0 as [-> ->].
  cut_run R me s1 t1 t1' R1. apply runs_node_of in R1 as (-> & -> & Hme).
  cut_run R fsize s2 t2 t2' R2. apply runs_buflen in R2 as (-> & ->).
  cut_run R u3 s3 t3 t3' R3. apply runs_forward in R3 as ->.
  cut_run R u4 s4 t4 t4' R4.
  cut_run R u5 s5 t5 t5' R5.
  cut_run R u6 s6 t6 t6' R6.
  cut_run R u7 s7 t7 t7' R7.
  cut_run R u8 s8 t8 t8' R8.
  cut_run R u9 s9 t9 t9' R9.
  cut_run R u10 s10 t10 t10' R10.
  cut_run R u11 s11 t11 t11' R11. apply runs_home in R11 as ->.
  cut_run R u12 s12 t12 t12' R12. apply runs_preonce in R12 as ->.
  cut_run R ftotal s13 t13 t13' R13.
  pose proof (runs_buflen _ _ _ _ _ R13) as (-> & ->).
  cut_run R u14 s14 t14 t14' R14. apply runs_once in R14 as ->.
  cut_run R ls s15 t15 t15' R15. apply runs_lines_of in R15 as (-> & -> & _).
  apply (runs_for_each_map (EvOncebinding root)) in R as ->;
    [|solve_traced|intros; eapply runs_oncebinding; eassumption].
  apply (runs_for_each_map EvHome) in R7 as ->;
    [|solve_traced|intros; eapply runs_home; eassumption].
  apply (runs_for_each_map EvHome) in R9 as ->;
    [|solve_traced|intros; eapply runs_home; eassumption].
  apply (runs_for_each_map EvHome) in R10 as ->;
    [|solve_traced|intros; eapply runs_home; eassumption].
  assert (H4 : Forall (batch_event g root) t4).
  { destruct (_clockindicator me) eqn:Hci.
    - destruct u4. apply (batch_event_below root (_clock me)); [|eapply IH; exact R4].
      exists root, me. auto.
    - destruct u4.
      destruct (runs_det _ _ _ _ _ _ _ _ R4 (runs_ret tt _)) as (-> & _).
      constructor. }
  assert (H5 : Forall (batch_event g root) t5).
  { revert R5. apply runs_for_each_closed;
      [constructor | intros; apply Forall_app; auto | solve_traced |].
    intros c sc tc [] sc' Hc Rc.
    apply (batch_event_below root c); [|eapply IH; exact Rc].
    exists root, me. auto. }
  assert (H6 : Forall (batch_event g root) t6).
  { revert R6. apply runs_for_each_closed;
      [constructor | intros; apply Forall_app; auto | solve_traced |].
    intros o sx tx ax sx' _ Rx.
    cut_run Rx sz sy ty ty' Ry. apply runs_buflen in Ry as (-> & ->).
    apply runs_forward in Rx as ->. repeat constructor. }
  assert (H8 : Forall (batch_event g root) t8).
  { destruct (_clockindicator me).
    - apply runs_home in R8 as ->. repeat constructor.
    - destruct u8.
      destruct (runs_det _ _ _ _ _ _ _ _ R8 (runs_ret tt _)) as (-> & _).
      constructor. }
  repeat (apply Forall_app; split); auto;
    try (apply Forall_map_event; intros; simpl; auto);
    repeat constructor; simpl; auto.
Qed.

End RunFacts.

Lemma once_never_runs_observers_witness :
  exists t s',
    runs (_once default_callbacks Samples.watched 3 0%nat)
         (mkState Samples.watched_start []) t tt s'
    /\ EvForward 3%nat 0 ∈ t
    /\ forall e, e ∈ t -> batch_event Samples.watched 0%nat e.
Proof.
  assert (E : exists t s',
             runs (_once default_callbacks Samples.watched 3 0%nat)
               (mkState Samples.watched_start []) t tt s'
             /\ EvForward 3%nat 0 ∈ t).
  { vm_compute. do 2 eexists. split; [split; reflexivity|].
    apply list_elem_of_In. simpl. auto. }
  destruct E as (t & s' & E & Hin). exists t, s'.
  split; [exact E|]. split; [exact Hin|].
  exact (once_never_runs_observers default_callbacks Samples.watched 3 0%nat _ t s' E).
Defined.

Section StepRunFacts.

Context (cb : Callbacks) (g : Graph).

Local Open Scope eng_scope.

Lemma tally_app f t1 t2 : tally f (t1 ++ t2) = (tally f t1 + tally f t2)%nat.
Proof. unfold tally. rewrite List.filter_app, length_app. reflexivity. Qed.

Lemma tally_cons f e t :
  tally f (e :: t) = ((if f e then 1 else 0) + tally f t)%nat.
Proof. unfold tally. simpl. destruct (f e); reflexivity. Qed.

Lemma tally_nil f : tally f [] = 0%nat.
Proof. reflexivity. Qed.

Lemma paced_nil : paced [].
Proof. split; [constructor | intros o; split; reflexivity]. Qed.

Lemma paced_app t1 t2 : paced t1 -> paced t2 -> paced (t1 ++ t2).
Proof.
  intros [F1 H1] [F2 H2]. split; [apply Forall_app; auto|].
  intros o. rewrite !tally_app.
  destruct (H1 o) as [-> ?], (H2 o) as [-> ?]. lia.
Qed.

Lemma phase_calls_steps n p :
  Forall step_event (phase_calls cb n p)
  /\ forall o, tally (is_step o) (phase_calls cb n p) = 0%nat
               /\ tally (is_notify o) (phase_calls cb n p) = 0%nat
               /\ tally (is_forward o) (phase_calls cb n p) = 0%nat.
Proof.
  unfold phase_calls. destruct p; [| destruct (cb_nextstart cb n) |];
    (split; [repeat constructor | intros o; repeat split]).
Qed.

(** X15: what a step never does, and what it always does.  Whatever the
    graph and the callbacks, a [_next] call that returns has made no
    batch-mode call ([_once], [home], [preonce], [once], [oncebinding]),
    has called [forward] by one bar only, and for every object has called
    [_notify] as often as it has entered the object's [_next] and
    [forward] at most as often. *)
Theorem next_notifies_each_step fuel root s t s' :
  runs (_next cb g fuel root) s t tt s' ->
  Forall step_event t
  /\ forall o, tally (is_notify o) t = tally (is_step o) t
               /\ (tally (is_forward o) t <= tally (is_step o) t)%nat.
Proof.
  change (runs (_next cb g fuel root) s t tt s' -> paced t).
  revert root s t s'.
  induction fuel as [|fuel IH]; intros root s t s' R.
  { destruct R as [R _]. discriminate R. }
  destruct (g !! root) as [me|] eqn:Hme.
  2:{ destruct R as [R _]. simpl in R. unfold bind, log, node_of in R.
      simpl in R. rewrite Hme in R. discriminate R. }
  apply (runs_eq _ _ _ _ _ _ (_next_eq cb g fuel root me s Hme)) in R.
  cut_run R u0 s0 t0 t0' R0. apply runs_log_inv in R0 as [-> ->].
  cut_run R u1 s1 t1 t1' R1.
  cut_run R L s2 t2 t2' R2.
  apply runs_arrive in R2 as (own & ls & _ & _ & _ & -> & _).
  cut_run R u3 s3 t3 t3' R3.
  cut_run R u4 s4 t4 t4' R4. apply runs_dispatch in R4 as ->.
  assert (P1 : paced t1).
  { destruct (_clockindicator me); destruct u1.
    - eapply IH; exact R1.
    - destruct (runs_det _ _ _ _ _ _ _ _ R1 (runs_ret tt _)) as (-> & _).
      apply paced_nil. }
  assert (P3 : paced t3).
  { revert R3. apply runs_for_each_closed;
      [apply paced_nil | apply paced_app | solve_traced |].
    intros c sc tc [] sc' _ Rc. eapply IH; exact Rc. }
  assert (P5 : paced t4').
  { revert R. apply runs_for_each_closed;
      [apply paced_nil | apply paced_app | solve_traced |].
    intros c sc tc [] sc' _ Rc. eapply IH; exact Rc. }
  destruct P1 as [F1 C1], P3 as [F3 C3], P5 as [F5 C5].
  destruct (phase_calls_steps root (phase_of L (_minperiod me))) as [Fp Cp].
  split.
  - repeat (apply Forall_app; split); auto.
    + repeat constructor.
    + destruct (bool_decide (L ≠ own)); repeat constructor.
    + constructor; [exact I | exact Fp].
  - intros o.
    destruct (C1 o) as [N1 W1], (C3 o) as [N3 W3], (C5 o) as [N5 W5].
    destruct (Cp o) as (Ps & Pn & Pf).
    destruct (bool_decide (L ≠ own));
      rewrite ?tally_app, ?tally_cons, ?tally_nil, ?tally_app;
      cbn [is_step is_notify is_forward];
      destruct (bool_decide (root = o)); lia.
Qed.

End StepRunFacts.

Lemma next_notifies_each_step_witness :
  exists t s',
    runs (_next default_callbacks Samples.family 2 0%nat)
         (mkState (Samples.family_bufs [Samples.num 10]) []) t tt s'
    /\ tally (is_step 3%nat) t = 1%nat
    /\ Forall step_event t
    /\ forall o, tally (is_notify o) t = tally (is_step o) t
                 /\ (tally (is_forward o) t <= tally (is_step o) t)%nat.
Proof.
  assert (E : exists t s',
             runs (_next default_callbacks Samples.family 2 0%nat)
               (mkState (Samples.family_bufs [Samples.num 10]) []) t tt s'
             /\ tally (is_step 3%nat) t = 1%nat)
    by (vm_compute; do 2 eexists; split; [split|]; reflexivity).
  destruct E as (t & s' & E & H3). exists t, s'.
  split; [exact E|]. split; [exact H3|].
  exact (next_notifies_each_step default_callbacks Samples.family 2 0%nat _ t s' E).
Defined.

Section RewindFacts.

Context (cb : Callbacks) (g : Graph).

Local Open Scope eng_scope.

Lemma same_cursors_refl b : same_cursors b b.
Proof. intros o. reflexivity. Qed.

Lemma same_cursors_trans b1 b2 b3 :
  same_cursors b1 b2 -> same_cursors b2 b3 -> same_cursors b1 b3.
Proof. intros H1 H2 o. rewrite H2. apply H1. Qed.

Lemma rewound_same b b' o : same_cursors b b' -> rewound b o -> rewound b' o.
Proof.
  intros H (ls & Hls & F). specialize (H o). rewrite Hls in H. simpl in H.
  destruct (b' !! o) as [ls'|] eqn:Hls'; [|discriminate]. injection H as H.
  exists ls'. split; [exact Hls'|].
  apply (proj1 (List.Forall_map idx (fun z => z = -1) ls')). rewrite H.
  apply (proj2 (List.Forall_map idx (fun z => z = -1) ls)). exact F.
Qed.

Lemma home_rewinds o s u s' :
  home o s = Ok (u, s') ->
  rewound (bufs s') o /\ forall o', rewound (bufs s) o' -> rewound (bufs s') o'.
Proof.
  unfold home, bind, log, lines_of, put_lines. simpl.
  destruct (bufs s !! o) as [ls|] eqn:Hls; [|discriminate].
  intros [= _ <-]. simpl.
  assert (Ho : rewound (<[o := map LineOps.home ls]> (bufs s)) o).
  { exists (map LineOps.home ls). split; [apply lookup_insert_eq|].
    apply (proj2 (List.Forall_map LineOps.home (fun l => idx l = -1) ls)).
    apply Forall_forall. reflexivity. }
  split; [exact Ho|]. intros o' H'.
  destruct (decide (o' = o)) as [->|Hne]; [exact Ho|].
  destruct H' as (ls' & H' & F). exists ls'.
  rewrite lookup_insert_ne by congruence. auto.
Qed.

Lemma homes_rewind l : forall s u s',
  for_each l home s = Ok (u, s') ->
  (forall o, o ∈ l -> rewound (bufs s') o)
  /\ forall o', rewound (bufs s) o' -> rewound (bufs s') o'.
Proof.
  induction l as [|x l IH]; intros s u s' H; simpl in H.
  - injection H as _ <-. split; [|auto]. intros o Ho. apply elem_of_nil in Ho. tauto.
  - apply bind_ok in H as ([] & s1 & H1 & H2).
    apply home_rewinds in H1 as [Hx Hk]. apply IH in H2 as [Hl Hk2].
    split; [|auto]. intros o Ho. apply elem_of_cons in Ho as [->|Ho]; auto.
Qed.

Lemma user_keeps h s u s' :
  keeps_cursors h -> user h s = Ok (u, s') -> same_cursors (bufs s) (bufs s').
Proof.
  intros Hh. unfold user. destruct (h (bufs s)) as [b| |] eqn:E; [|discriminate..].
  intros [= _ <-]. simpl. apply Hh. exact E.
Qed.

Lemma bind_target_keeps src tgt s u s' :
  bind_target src tgt s = Ok (u, s') -> same_cursors (bufs s) (bufs s').
Proof.
  unfold bind_target, bind, lines_of, put_lines.
  destruct (bufs s !! fst tgt) as [ls|] eqn:Hls; [|discriminate].
  destruct (ls !! snd tgt) as [t|] eqn:Ht; [|discriminate].
  intros [= _ <-]. simpl. intros o.
  destruct (decide (o = fst tgt)) as [->|Hne].
  - rewrite lookup_insert_eq, Hls. simpl. f_equal.
    rewrite <- (list_insert_id ls (snd tgt) t Ht) at 2.
    change (map idx) with (fmap (M:=list) idx).
    rewrite !list_fmap_insert. reflexivity.
  - rewrite lookup_insert_ne by congruence. reflexivity.
Qed.

Lemma for_each_keeps {A} (body : A -> M unit) l :
  (forall x s u s', body x s = Ok (u, s') -> same_cursors (bufs s) (bufs s')) ->
  forall s u s', for_each l body s = Ok (u, s') -> same_cursors (bufs s) (bufs s').
Proof.
  intros Hb. induction l as [|x l IH]; intros s u s' H; simpl in H.
  - injection H as _ <-. apply same_cursors_refl.
  - apply bind_ok in H as ([] & s1 & H1 & H2).
    eapply same_cursors_trans; [eapply Hb; exact H1 | eapply IH; exact H2].
Qed.

Lemma oncebinding_keeps o i s u s' :
  oncebinding o i s = Ok (u, s') -> same_cursors (bufs s) (bufs s').
Proof.
  unfold oncebinding. intros H.
  apply bind_ok in H as ([] & s1 & H1 & H). injection H1 as <-.
  apply bind_ok in H as (ls & s2 & H2 & H).
  unfold lines_of in H2. simpl in H2.
  destruct (bufs s !! o); [|discriminate]. injection H2 as -> <-.
  destruct (ls !! i) as [src|]; [|discriminate].
  apply (for_each_keeps (bind_target src)) in H; [exact H|].
  intros x sx ux sx'. apply bind_target_keeps.
Qed.

Lemma log_user_keeps e h s u s' :
  keeps_cursors h ->
  (log e ;; user h) s = Ok (u, s') -> same_cursors (bufs s) (bufs s').
Proof.
  intros Hh H. apply bind_ok in H as ([] & s1 & H1 & H). injection H1 as <-.
  apply (user_keeps h _ _ _ Hh) in H. exact H.
Qed.

(** X16: a batch run ends rewound.  When [_once] returns, every line of
    the node, of its datas, of its indicators, of its observers and of a
    clock it steps has its cursor before the first slot -- whatever the
    [_once] of the children did -- provided the node's own [preonce] and
    [once] move no cursor. *)
Theorem once_leaves_rewound fuel self me s s' :
  g !! self = Some me ->
  (forall a b, keeps_cursors (cb_preonce cb self a b)) ->
  (forall a b, keeps_cursors (cb_once cb self a b)) ->
  _once cb g (S fuel) self s = Ok (tt, s') ->
  forall o,
    o ∈ self :: datas me ++ (if _clockindicator me then [_clock me] else [])
             ++ _indicators me ++ _observers me ->
    rewound (bufs s') o.
Proof.
  intros Hme Hpre Honce H o Ho. simpl in H.
  apply bind_ok in H as ([] & s0 & _ & H).
  apply bind_ok in H as (me' & s1 & H1 & H).
  unfold node_of in H1. rewrite Hme in H1. injection H1 as <- _.
  apply bind_ok in H as (fsize & s2 & _ & H).
  apply bind_ok in H as ([] & s3 & _ & H).
  apply bind_ok in H as ([] & s4 & _ & H).
  apply bind_ok in H as ([] & s5 & _ & H).
  apply bind_ok in H as ([] & s6 & _ & H).
  apply bind_ok in H as ([] & s7 & H7 & H).
  apply bind_ok in H as ([] & s8 & H8 & H).
  apply bind_ok in H as ([] & s9 & H9 & H).
  apply bind_ok in H as ([] & s10 & H10 & H).
  apply bind_ok in H as ([] & s11 & H11 & H).
  apply bind_ok in H as ([] & s12 & H12 & H).
  apply bind_ok in H as (ftotal & s13 & H13 & H).
  apply bind_ok in H as ([] & s14 & H14 & H).
  apply bind_ok in H as (ls & s15 & H15 & H).
  apply homes_rewind in H7 as [D7 K7], H9 as [D9 K9], H10 as [D10 K10].
  apply home_rewinds in H11 as [D11 K11].
  assert (D8 : (forall c, c ∈ (if _clockindicator me then [_clock me] else [])
                          -> rewound (bufs s8) c)
               /\ forall o', rewound (bufs s7) o' -> rewound (bufs s8) o').
  { destruct (_clockindicator me).
    - apply home_rewinds in H8 as [D8 K8]. split; [|exact K8].
      intros c Hc. apply list_elem_of_singleton in Hc as ->. exact D8.
    - injection H8 as <-. split; [|auto].
      intros c Hc. apply elem_of_nil in Hc. tauto. }
  destruct D8 as [D8 K8].
  assert (R11 : rewound (bufs s11) o).
  { rewrite elem_of_cons, !elem_of_app in Ho.
    destruct Ho as [->|[Ho|[Ho|[Ho|Ho]]]]; auto 10. }
  assert (C : same_cursors (bufs s11) (bufs s')).
  { apply (log_user_keeps _ _ _ _ _ (Hpre _ _)) in H12.
    unfold buflen in H13. apply bind_ok in H13 as (l13 & s13' & L13 & H13).
    unfold lines_of in L13. destruct (bufs s12 !! self); [|discriminate].
    injection L13 as -> <-.
    assert (s13 = s12) as -> by (destruct l13; [discriminate | injection H13; auto]).
    apply (log_user_keeps _ _ _ _ _ (Honce _ _)) in H14.
    unfold lines_of in H15. destruct (bufs s14 !! self); [|discriminate].
    injection H15 as -> <-.
    apply (for_each_keeps (oncebinding self)) in H;
      [|intros x sx ux sx'; apply oncebinding_keeps].
    eapply same_cursors_trans; [exact H12|].
    eapply same_cursors_trans; [exact H14 | exact H]. }
  eapply rewound_same; [exact C | exact R11].
Qed.

End RewindFacts.

Lemma once_leaves_rewound_witness :
  exists s',
    _once default_callbacks Samples.family 2 0%nat
      (mkState (Samples.family_bufs [Samples.num 10; Samples.num 11; Samples.num 12]) [])
    = Ok (tt, s')
    /\ forall o, o ∈ [0%nat; 9%nat; 1%nat; 2%nat; 3%nat] -> rewound (bufs s') o.
Proof.
  assert (E : exists s',
             _once default_callbacks Samples.family 2 0%nat
               (mkState (Samples.family_bufs
                           [Samples.num 10; Samples.num 11; Samples.num 12]) [])
             = Ok (tt, s'))
    by (vm_compute; eexists; reflexivity).
  destruct E as (s' & E). exists s'. split; [exact E|].
  assert (Hme : Samples.family !! 0%nat = Some Samples.family_root)
    by (vm_compute; reflexivity).
  assert (Hk : forall a b : Z, keeps_cursors pass).
  { intros a b x y [= <-]. apply same_cursors_refl. }
  exact (once_leaves_rewound default_callbacks Samples.family 1 0%nat
           Samples.family_root _ s' Hme Hk Hk E).
Defined.

Section OwnerlessFacts.

Context (g : Graph).

Local Open Scope eng_scope.

Lemma owner_lines_cons owner : exists lo r, owner_lines owner = lo :: r.
Proof.
  unfold owner_lines. destruct owner as [[i|[|x l]]|]; simpl; eauto.
  destruct (i =? 0); simpl; eauto.
Qed.

Lemma own_lines_cons owner own : exists lw r, own_lines owner own = lw :: r.
Proof.
  unfold own_lines. destruct (owner_lines_cons owner) as (lo & r & ->).
  destruct own as [[i|[|x l]]|]; simpl; eauto.
  destruct (i =? 0); simpl; eauto.
Qed.

(** X17: [bindlines] needs an owner.  On an object without owner the
    call never returns, whatever the arguments: it raises [IndexError]
    when the first own line named does not exist, and [AttributeError]
    (the owner is [None]) otherwise -- in both cases before any binding is
    declared. *)
Theorem bindlines_without_owner_raises self me ls owner own s :
  g !! self = Some me ->
  _owner me = None ->
  bufs s !! self = Some ls ->
  bindlines g self owner own s
  = Raise (if bool_decide (0 <= hd 0 (own_lines owner own)
                                < Z.of_nat (List.length ls))
           then AttributeError else IndexError).
Proof.
  intros Hme Ho Hls. unfold bindlines.
  fold (owner_lines owner). fold (own_lines owner own).
  destruct (owner_lines_cons owner) as (lo & ro & ->).
  destruct (own_lines_cons owner own) as (lw & rw & ->).
  cbn [hd]. simpl. unfold bind, bind_one, bind, lines_of, line_at, node_of, raise, ret.
  rewrite Hls.
  destruct (Z.leb_spec 0 lw) as [H0|H0].
  - destruct (ls !! Z.to_nat lw) as [l|] eqn:Hl.
    + apply lookup_lt_Some in Hl.
      rewrite bool_decide_eq_true_2 by lia. rewrite Hme, Ho. reflexivity.
    + apply lookup_ge_None in Hl.
      rewrite bool_decide_eq_false_2 by lia. reflexivity.
  - rewrite bool_decide_eq_false_2 by lia. reflexivity.
Qed.

End OwnerlessFacts.

Lemma bindlines_without_owner_raises_witness :
  bindlines Samples.owned 0%nat None None (mkState Samples.one_line_each [])
  = Raise AttributeError.
Proof.
  apply (bindlines_without_owner_raises Samples.owned 0%nat (Samples.blank false)
           [Samples.fresh_line] None None (mkState Samples.one_line_each []));
    vm_compute; reflexivity.
Defined.

Section StepFrame.

Context (cb : Callbacks) (g : Graph).

Hypothesis Hcb : own_only_callbacks cb.

Local Open Scope eng_scope.

Lemma user_frame n h s u s' :
  own_only n h -> user h s = Ok (u, s') ->
  forall o, o ≠ n -> bufs s' !! o = bufs s !! o.
Proof.
  intros Hh. unfold user. destruct (h (bufs s)) as [b| |] eqn:E; [|discriminate..].
  intros [= _ <-]. simpl. apply Hh. exact E.
Qed.

Lemma logged_user_frame n e h s u s' :
  own_only n h -> (log e ;; user h) s = Ok (u, s') ->
  forall o, o ≠ n -> bufs s' !! o = bufs s !! o.
Proof.
  intros Hh H. apply bind_ok in H as ([] & s1 & H1 & H). injection H1 as <-.
  apply (user_frame n h _ _ _ Hh H).
Qed.

Lemma dispatch_frame root L P s u s' :
  dispatch cb root L P s = Ok (u, s') ->
  forall o, o ≠ root -> bufs s' !! o = bufs s !! o.
Proof.
  destruct (Hcb root) as (Hn & Hp & Hx & Hs).
  intros H o Ho. unfold dispatch in H.
  apply bind_ok in H as ([] & s1 & H1 & H).
  apply (logged_user_frame root _ _ _ _ _ Hn) with (o := o) in H1; [|exact Ho].
  rewrite <- H1. clear H1.
  unfold lifecycle in H. destruct (L >? P).
  { apply (logged_user_frame root _ _ _ _ _ Hx H o Ho). }
  destruct (L =? P).
  2:{ apply (logged_user_frame root _ _ _ _ _ Hp H o Ho). }
  unfold nextstart in H. destruct (cb_nextstart cb root) as [h|] eqn:Eh.
  - apply (logged_user_frame root _ _ _ _ _ (Hs h eq_refl) H o Ho).
  - apply bind_ok in H as ([] & s2 & H2 & H). injection H2 as <-.
    apply (logged_user_frame root _ _ _ _ _ Hx H o Ho).
Qed.

Lemma runs_for_each_frame (body : nid -> M unit) l :
  (forall x, traced (body x)) ->
  (forall x s t a s', x ∈ l -> runs (body x) s t a s' ->
     forall o, tally (is_step o) t = 0%nat -> bufs s' !! o = bufs s !! o) ->
  forall s t a s', runs (for_each l body) s t a s' ->
    forall o, tally (is_step o) t = 0%nat -> bufs s' !! o = bufs s !! o.
Proof.
  intros Hb. induction l as [|x l IH]; intros Hq s t a s' R o Ho; simpl in R.
  - destruct a.
    destruct (runs_det _ _ _ _ _ _ _ _ R (runs_ret tt _)) as (_ & _ & ->).
    reflexivity.
  - apply bind_runs in R as ([] & s1 & t1 & t2 & R1 & R2 & ->);
      [|apply Hb|intros _; apply traced_for_each; exact Hb].
    rewrite tally_app in Ho.
    rewrite (IH (fun y sy ty ay sy' Hy => Hq y sy ty ay sy' (list_elem_of_further _ _ _ Hy))
               _ _ _ _ R2 o) by lia.
    apply (Hq x _ _ _ _ (list_elem_of_here _ _) R1 o). lia.
Qed.

(** X18: a step touches only what it steps.  If each callback writes
    into the lines of its own object only, then after a [_next] call an
    object whose [_next] was not entered -- a data feed, for one -- has
    exactly the lines it had. *)
Theorem next_touches_only_stepped fuel root s t s' :
  runs (_next cb g fuel root) s t tt s' ->
  forall o, tally (is_step o) t = 0%nat -> bufs s' !! o = bufs s !! o.
Proof.
  revert root s t s'.
  induction fuel as [|fuel IH]; intros root s t s' R o Ho.
  { destruct R as [R _]. discriminate R. }
  destruct (g !! root) as [me|] eqn:Hme.
  2:{ destruct R as [R _]. simpl in R. unfold bind, log, node_of in R.
      simpl in R. rewrite Hme in R. discriminate R. }
  apply (runs_eq _ _ _ _ _ _ (_next_eq cb g fuel root me s Hme)) in R.
  cut_run R u0 s0 t0 t0' R0. apply runs_log_inv in R0 as [-> ->].
  cut_run R u1 s1 t1 t1' R1.
  cut_run R L s2 t2 t2' R2.
  apply runs_arrive in R2 as (own & ls & _ & _ & _ & -> & B2).
  cut_run R u3 s3 t3 t3' R3.
  cut_run R u4 s4 t4 t4' R4.
  rewrite !tally_app, tally_cons, tally_nil in Ho. cbn [is_step] in Ho.
  assert (Hne : o ≠ root).
  { intros ->. rewrite bool_decide_eq_true_2 in Ho by reflexivity. lia. }
  rewrite bool_decide_eq_false_2 in Ho by congruence.
  assert (F1 : bufs s1 !! o = bufs s !! o).
  { destruct (_clockindicator me); destruct u1.
    - apply (IH _ _ _ _ R1 o). lia.
    - destruct (runs_det _ _ _ _ _ _ _ _ R1 (runs_ret tt _)) as (_ & _ & ->).
      reflexivity. }
  assert (F2 : bufs s2 !! o = bufs s1 !! o).
  { rewrite B2. destruct (bool_decide (L ≠ own)); [|reflexivity].
    apply lookup_insert_ne. congruence. }
  assert (F3 : bufs s3 !! o = bufs s2 !! o).
  { revert R3. intros R3.
    apply (runs_for_each_frame (_next cb g fuel) (_indicators me)) with (o := o) in R3;
      [exact R3 | solve_traced | | lia].
    intros c sc tc [] sc' _ Rc. apply (IH _ _ _ _ Rc). }
  assert (F4 : bufs s4 !! o = bufs s3 !! o).
  { destruct u4. apply (dispatch_frame root L (_minperiod me) s3 tt s4 (proj1 R4) o Hne). }
  assert (F5 : bufs s' !! o = bufs s4 !! o).
  { apply (runs_for_each_frame (_next cb g fuel) (_observers me)) with (o := o) in R;
      [exact R | solve_traced | | lia].
    intros c sc tc [] sc' _ Rc. apply (IH _ _ _ _ Rc). }
  congruence.
Qed.

End StepFrame.

Lemma next_touches_only_stepped_witness :
  exists t s',
    runs (_next default_callbacks Samples.family 2 0%nat)
         (mkState (Samples.family_bufs [Samples.num 10]) []) t tt s'
    /\ bufs s' !! 9%nat = Some [Samples.line_of [Samples.num 10]].
Proof.
  assert (E : exists t s',
             runs (_next default_callbacks Samples.family 2 0%nat)
               (mkState (Samples.family_bufs [Samples.num 10]) []) t tt s'
             /\ tally (is_step 9%nat) t = 0%nat)
    by (vm_compute; do 2 eexists; split; [split|]; reflexivity).
  destruct E as (t & s' & E & H9). exists t, s'. split; [exact E|].
  assert (Hcb : own_only_callbacks default_callbacks).
  { intros n. repeat split; try (intros b b' [= <-] o _; reflexivity).
    intros h [=]. }
  exact (next_touches_only_stepped default_callbacks Samples.family Hcb 2 0%nat
           _ t s' E 9%nat H9).
Defined.

(** * The minimum period across the construction protocol *)

Section CoverFacts.

Implicit Types (g : Graph) (n m o : nid).

(** Replacing an object other than [n] keeps [n] covering, unless the
    object is one [n] covers and its [_minperiod] ends above that of [n]. *)
Lemma covers_insert g n m z :
  m ≠ n ->
  (forall x, g !! n = Some x -> m ∈ covered_by g n ->
     _minperiod z <= _minperiod x) ->
  minperiod_covers g n -> minperiod_covers (<[m := z]> g) n.
Proof.
  intros Hne Hz Hcov x. rewrite lookup_insert_ne by exact Hne. intros Hx.
  destruct (Hcov x Hx) as [Hi Hd].
  assert (Hc : forall c y, c ∈ datas x ++ _indicators x ->
                 <[m := z]> g !! c = Some y -> _minperiod y <= _minperiod x).
  { intros c y Hc Hy. destruct (decide (m = c)) as [<-|Hmc].
    - rewrite lookup_insert_eq in Hy. injection Hy as <-.
      apply (Hz x Hx). unfold covered_by. rewrite Hx. exact Hc.
    - rewrite lookup_insert_ne in Hy by exact Hmc.
      apply elem_of_app in Hc as [Hc|Hc]; eauto. }
  split; intros c y Hc' Hy; apply (Hc c y); [set_solver | exact Hy | set_solver | exact Hy].
Qed.

(** Replacing [n] itself: same datas, no new indicator, no lower
    [_minperiod]. *)
Lemma covers_own g n x x' :
  g !! n = Some x ->
  datas x' = datas x ->
  (forall c, c ∈ _indicators x' -> c ∈ _indicators x) ->
  _minperiod x <= _minperiod x' ->
  minperiod_covers g n -> minperiod_covers (<[n := x']> g) n.
Proof.
  intros Hx Hd Hi Hm Hcov y. rewrite lookup_insert_eq. intros [= <-].
  destruct (Hcov x Hx) as [Hci Hcd].
  split; intros c y Hc Hy; (destruct (decide (n = c)) as [<-|Hnc];
    [rewrite lookup_insert_eq in Hy; injection Hy as <-; lia
    |rewrite lookup_insert_ne in Hy by exact Hnc]).
  - specialize (Hci c y (Hi c Hc) Hy). lia.
  - rewrite Hd in Hc. specialize (Hcd c y Hc Hy). lia.
Qed.

(** What [addindicator] changes: the object it is called on, whose
    [_minperiod] stays or becomes the maximum with the indicator's. *)
Lemma addindicator_shape g o c g' :
  addindicator g o c = Ok g' ->
  exists me ind me',
    g !! o = Some me /\ g !! c = Some ind /\ g' = <[o := me']> g
    /\ (_minperiod me' = _minperiod me
        \/ _minperiod me' = Z.max (_minperiod ind) (_minperiod me)).
Proof.
  unfold addindicator. intros H.
  destruct (g !! o) as [me|] eqn:Eme; [|discriminate].
  destruct (g !! c) as [ind|] eqn:Eind; [|discriminate].
  destruct (is_observer ind).
  - injection H as <-. exists me, ind. eexists. repeat split. left. reflexivity.
  - rewrite lookup_insert_eq in H.
    destruct (<[o:=_]> g !! c) as [ind1|] eqn:E1; [|discriminate].
    injection H as <-. exists me, ind. eexists.
    split; [reflexivity|]. split; [reflexivity|].
    split; [apply insert_insert_eq|]. simpl.
    destruct (decide (o = c)) as [<-|Hne].
    + rewrite lookup_insert_eq in E1. injection E1 as <-. simpl. left. lia.
    + rewrite lookup_insert_ne in E1 by exact Hne. rewrite Eind in E1.
      injection E1 as <-. right. reflexivity.
Qed.

Lemma apart_spec g n m :
  apart g n m = true -> m ≠ n /\ m ∉ covered_by g n.
Proof. unfold apart. intros H. apply bool_decide_eq_true_1 in H. exact H. Qed.

Lemma covers_insert_apart g n m z :
  apart g n m = true ->
  minperiod_covers g n -> minperiod_covers (<[m := z]> g) n.
Proof.
  intros H. apply apart_spec in H as [Hne Hnot].
  apply covers_insert; [exact Hne|]. intros x _ Hin. contradiction.
Qed.

(** One harmless call keeps the node covering. *)
Lemma harmless_call_covers g n c g' :
  harmless g n c = true ->
  do_call g c = Ok g' ->
  minperiod_covers g n -> minperiod_covers g' n.
Proof.
  intros Hh Hc Hcov. destruct c as [m owner args|m p|m c|m]; simpl in Hh, Hc.
  - (* dopreinit elsewhere *)
    unfold and_then in Hc.
    destruct (dopreinit g m owner args) as [[g1 a1]| |] eqn:E; [|discriminate..].
    injection Hc as <-. simpl.
    apply dopreinit_ok in E as (x & dm & clock & mp & _ & _ & _ & _ & ->).
    apply covers_insert_apart; assumption.
  - (* setminperiod *)
    unfold setminperiod in Hc.
    destruct (g !! m) as [me|] eqn:Eme; [|discriminate]. injection Hc as <-.
    apply orb_true_iff in Hh as [Hh|Hh].
    + apply andb_true_iff in Hh as [Hm Hp].
      apply bool_decide_eq_true_1 in Hm. subst m. apply Z.leb_le in Hp.
      apply (covers_own g n me); auto. simpl. lia.
    + apply covers_insert_apart; assumption.
  - (* addindicator *)
    apply orb_true_iff in Hh as [Hh|Hh].
    + apply bool_decide_eq_true_1 in Hh. subst m.
      eapply addindicator_covers; eassumption.
    + apply addindicator_shape in Hc as (me & ind & me' & _ & _ & -> & _).
      apply covers_insert_apart; assumption.
  - (* dopostinit *)
    unfold dopostinit in Hc.
    destruct (g !! m) as [x|] eqn:Ex; [|discriminate].
    destruct (match _owner x with
              | Some o => addindicator g o m
              | None => Ok g
              end) as [g1| |] eqn:Eo; [|discriminate..].
    destruct (g1 !! m) as [x1|] eqn:Ex1; [|discriminate].
    match type of Hc with
    | (if bool_decide ?P then _ else _) = _ =>
        destruct (bool_decide P) eqn:Eclk; [discriminate Hc|]
    end.
    injection Hc as <-.
    assert (Hcov1 : minperiod_covers g1 n).
    { destruct (_owner x) as [o|] eqn:Ho; [|injection Eo as <-; exact Hcov].
      destruct (decide (o = n)) as [->|Hon].
      { eapply addindicator_covers; eassumption. }
      apply addindicator_shape in Eo as (me & ind & me' & Hme & Hind & -> & HM).
      apply covers_insert; [exact Hon | | exact Hcov].
      intros xn Hxn Hin.
      apply orb_true_iff in Hh as [Hh|Hh].
      - apply bool_decide_eq_true_1 in Hh. subst m.
        rewrite Hxn in Hind. injection Hind as <-.
        assert (Hle : _minperiod me <= _minperiod xn).
        { destruct (Hcov xn Hxn) as [Hi Hd]. unfold covered_by in Hin.
          rewrite Hxn in Hin. apply elem_of_app in Hin as [Hin|Hin]; eauto. }
        lia.
      - apply orb_true_iff in Hh as [Hh|Hh].
        + apply bool_decide_eq_true_1 in Hh. contradiction.
        + apply apart_spec in Hh as [_ Hnot]. contradiction. }
    destruct (decide (m = n)) as [->|Hmn].
    + apply (covers_own g1 n x1); auto.
      * intros c Hc. simpl in Hc. apply keep_first_elem in Hc as [Hc _]. exact Hc.
      * simpl. lia.
    + apply covers_insert; [exact Hmn | | exact Hcov1].
      intros xn Hxn Hin. simpl.
      destruct (Hcov1 xn Hxn) as [Hi Hd]. unfold covered_by in Hin.
      rewrite Hxn in Hin. apply elem_of_app in Hin as [Hin|Hin]; eauto.
Qed.

Lemma harmless_calls_cover cs : forall g n g',
  all_harmless g n cs = true ->
  do_calls g cs = Ok g' ->
  minperiod_covers g n -> minperiod_covers g' n.
Proof.
  induction cs as [|c cs IH]; intros g n g' Hh Hc Hcov; simpl in Hh, Hc.
  - injection Hc as <-. exact Hcov.
  - unfold and_then in Hc. destruct (do_call g c) as [g1| |] eqn:E; [|discriminate..].
    apply andb_true_iff in Hh as [Hh1 Hh2].
    eapply IH; [exact Hh2 | exact Hc |].
    eapply harmless_call_covers; eassumption.
Qed.

End CoverFacts.

(** C5 (as amended): once [dopreinit] has run on a node, its [_minperiod]
    is at least the [_minperiod] of each of its datas and of each of its
    registered (non-observer) children, and stays so through the rest of
    its construction and afterwards: through its own [setminperiod] calls
    with a period of at least 1, every [addindicator] on it, its own
    [dopostinit] and that of the objects it owns, and through any call
    that writes the [_minperiod] of an object which is neither the node
    nor one of its datas or registered children. *)
Theorem minperiod_covers_own_registrations g _obj owner args g1 args' cs g2 :
  dopreinit g _obj owner args = Ok (g1, args') ->
  all_harmless g1 _obj cs = true ->
  do_calls g1 cs = Ok g2 ->
  minperiod_covers g2 _obj.
Proof.
  intros Hpre Hh Hc.
  eapply harmless_calls_cover; [exact Hh | exact Hc |].
  eapply dopreinit_covers. exact Hpre.
Qed.

Lemma minperiod_covers_own_registrations_witness :
  exists g1 g2,
    dopreinit Samples.unbuilt 0%nat None [ArgSeries 3%nat] = Ok (g1, [])
    /\ do_calls g1 Samples.late_sibling_calls = Ok g2
    /\ Samples.late_sibling = Ok g2
    /\ minperiod_covers g2 0%nat.
Proof.
  assert (E : exists g1 g2,
             dopreinit Samples.unbuilt 0%nat None [ArgSeries 3%nat] = Ok (g1, [])
             /\ all_harmless g1 0%nat Samples.late_sibling_calls = true
             /\ do_calls g1 Samples.late_sibling_calls = Ok g2
             /\ Samples.late_sibling = Ok g2)
    by (vm_compute; do 2 eexists; repeat split; reflexivity).
  destruct E as (g1 & g2 & E1 & Eh & E2 & E3). exists g1, g2.
  split; [exact E1|]. split; [exact E2|]. split; [exact E3|].
  exact (minperiod_covers_own_registrations _ _ _ _ _ _ _ _ E1 Eh E2).
Defined.
